(** * Block-witness engine of turbo-geth: accounts codec, witness builder, resolver

    A shallow embedding of
      - [core/types/accounts/account.go]  (account codec),
      - [trie/proof_generator.go]         (block-witness builder and codec),
      - [trie/resolver.go]                (streaming resolver),
    together with the properties of these programs that the specification
    states.  Byte strings are [list byte]; Go's [uint64] and [int] are [N]
    and [Z]; a [*big.Int] is an [option Z] ([None] is the nil pointer). *)

From Stdlib.Strings Require Import Byte String Ascii.
From Stdlib Require Import NArith ZArith Lia List Bool.
From stdpp Require Import base list option gmap strings.
Import ListNotations.

Local Open Scope N_scope.
Set Warnings "-register-all".

(** ** Bytes *)

Definition b2n (b : byte) : N := Byte.to_N b.

Definition n2b (n : N) : byte :=
  match Byte.of_N (n mod 256) with
  | Some b => b
  | None => x00
  end.

Definition bytes := list byte.

#[global] Instance byte_eq_dec : EqDecision byte := Byte.byte_eq_dec.
#[global] Instance byte_countable : Countable byte :=
  inj_countable Byte.to_N Byte.of_N Byte.of_to_N.

Definition len (s : bytes) : N := N.of_nat (length s).

(** [bytes.Equal] *)
Fixpoint bytes_eqb (x y : bytes) : bool :=
  match x, y with
  | [], [] => true
  | a :: x', b :: y' => Byte.eqb a b && bytes_eqb x' y'
  | _, _ => false
  end.

(** Results of fallible Go functions: a value or an error. *)
Inductive result (E A : Type) : Type :=
| Ok (a : A)
| Err (e : E).
Arguments Ok {E A} a.
Arguments Err {E A} e.

Definition rbind {E A B} (r : result E A) (k : A -> result E B) : result E B :=
  match r with
  | Ok a => k a
  | Err e => Err e
  end.

Notation "x <-- r ;; k" := (rbind r (fun x => k))
  (at level 20, r at level 99, k at level 200, only parsing).
Notation "' p <-- r ;; k" := (rbind r (fun p => k))
  (at level 20, p pattern, r at level 99, k at level 200, only parsing).

(** ** Big-endian integers without leading zeros *)

Fixpoint putint_aux (fuel : nat) (n : N) (acc : bytes) : bytes :=
  match fuel with
  | O => acc
  | S f => if n =? 0 then acc
           else putint_aux f (n / 256) (n2b (n mod 256) :: acc)
  end.

(** [putint n]: the minimal big-endian bytes of [n]; zero is the empty string. *)
Definition putint (n : N) : bytes := putint_aux (N.to_nat (N.size n)) n [].

Definition be_val (s : bytes) : N :=
  fold_left (fun acc b => acc * 256 + b2n b) s 0.

Definition leading_zero (s : bytes) : bool :=
  match s with
  | b :: _ => b2n b =? 0
  | [] => false
  end.

(** ** RLP *)

Module RLP.

(** Modelled from the spec: the [rlp] package of the repository is not among
    the sources.  Section 4.A gives the rules: a single byte below 0x80 is its
    own encoding; a string of at most 55 bytes is prefixed by [0x80 + length];
    a longer string by [0xb7 + length of the length] and the big-endian
    length; lists likewise from 0xc0 and 0xf7.  Integers are big-endian
    without leading zeros, zero being the empty string 0x80. *)
Definition encodeHeader (base : N) (payload : bytes) : bytes :=
  if len payload <=? 55 then [n2b (base + len payload)]
  else n2b (base + 55 + len (putint (len payload))) :: putint (len payload).

Definition encodeString (s : bytes) : bytes :=
  match s with
  | [b] => if b2n b <? 128 then [b] else encodeHeader 128 s ++ s
  | _ => encodeHeader 128 s ++ s
  end.

Definition encodeList (payload : bytes) : bytes :=
  encodeHeader 192 payload ++ payload.

Definition encodeUint (n : N) : bytes := encodeString (putint n).

Inductive error : Type :=
| ErrEOF
| ErrExpectedList
| ErrExpectedString
| ErrCanonSize
| ErrCanonInt
| ErrUintOverflow
| ErrValueTooLarge
| ErrWrongSize
| ErrNegativeBigInt
| ErrTooFewElements
| ErrTooManyElements
| ErrMoreThanOneValue.

Inductive kind : Type := KString | KList.

(** Splits [n] bytes off the front of [s]. *)
Definition splitN (n : N) (s : bytes) : result error (bytes * bytes) :=
  if len s <? n then Err ErrValueTooLarge
  else Ok (take (N.to_nat n) s, drop (N.to_nat n) s).

(** Reads a length of [ll] bytes; it must be canonical: no leading zero and
    at least 56. *)
Definition readSize (ll : N) (s : bytes) : result error (N * bytes) :=
  '(lb, rest) <-- splitN ll s ;;
  if leading_zero lb then Err ErrCanonSize
  else if be_val lb <? 56 then Err ErrCanonSize
  else Ok (be_val lb, rest).

(** Reads one item: its kind, its content and what follows it. *)
Definition readItem (inp : bytes) : result error (kind * bytes * bytes) :=
  match inp with
  | [] => Err ErrEOF
  | b :: tl =>
      let t := b2n b in
      if t <? 128 then Ok (KString, [b], tl)
      else if t <? 184 then
        '(s, rest) <-- splitN (t - 128) tl ;;
        match s with
        | [c] => if b2n c <? 128 then Err ErrCanonSize else Ok (KString, s, rest)
        | _ => Ok (KString, s, rest)
        end
      else if t <? 192 then
        '(sz, tl') <-- readSize (t - 183) tl ;;
        '(s, rest) <-- splitN sz tl' ;;
        Ok (KString, s, rest)
      else if t <? 248 then
        '(s, rest) <-- splitN (t - 192) tl ;;
        Ok (KList, s, rest)
      else
        '(sz, tl') <-- readSize (t - 247) tl ;;
        '(s, rest) <-- splitN sz tl' ;;
        Ok (KList, s, rest)
  end.

(** The next element of a list payload, which must be a string. *)
Definition readString (payload : bytes) : result error (bytes * bytes) :=
  match payload with
  | [] => Err ErrTooFewElements
  | _ =>
      '(k, s, rest) <-- readItem payload ;;
      match k with
      | KString => Ok (s, rest)
      | KList => Err ErrExpectedString
      end
  end.

Definition decodeUint64 (payload : bytes) : result error (N * bytes) :=
  '(s, rest) <-- readString payload ;;
  if 8 <? len s then Err ErrUintOverflow
  else if leading_zero s then Err ErrCanonInt
  else Ok (be_val s, rest).

Definition decodeBigInt (payload : bytes) : result error (Z * bytes) :=
  '(s, rest) <-- readString payload ;;
  if leading_zero s then Err ErrCanonInt
  else Ok (Z.of_N (be_val s), rest).

(** A byte array of fixed size, such as [common.Hash]. *)
Definition decodeArray (size : N) (payload : bytes) : result error (bytes * bytes) :=
  '(s, rest) <-- readString payload ;;
  if len s =? size then Ok (s, rest) else Err ErrWrongSize.

Definition decodeBytes (payload : bytes) : result error (bytes * bytes) :=
  readString payload.

(** A big integer is encoded from its absolute value; a negative one is an
    encoding error. *)
Definition encodeBigInt (z : Z) : result error bytes :=
  if (z <? 0)%Z then Err ErrNegativeBigInt
  else Ok (encodeString (putint (Z.to_N z))).

(** [DecodeBytes] into a struct: the input is one list; its fields are read
    by [fields], which must use the payload up; nothing may follow the list. *)
Definition decodeStruct {A} (fields : bytes -> result error (A * bytes))
    (inp : bytes) : result error A :=
  '(k, payload, rest) <-- readItem inp ;;
  match k with
  | KString => Err ErrExpectedList
  | KList =>
      '(a, unread) <-- fields payload ;;
      match unread with
      | _ :: _ => Err ErrTooManyElements
      | [] => match rest with
              | _ :: _ => Err ErrMoreThanOneValue
              | [] => Ok a
              end
      end
  end.

End RLP.

(** ** Accounts: [core/types/accounts/account.go] *)

Module accounts.

Record ExtAccount : Type := mkExtAccount {
  ext_Nonce : N;               (* uint64 *)
  ext_Balance : option Z       (* *big.Int *)
}.

(** [Root] is a [common.Hash], an array of 32 bytes; [CodeHash] is a slice
    and [None] is the nil slice; [StorageSize] is a [*uint64]. *)
Record Account : Type := mkAccount {
  Nonce : N;
  Balance : option Z;
  Root : bytes;
  CodeHash : option bytes;
  StorageSize : option N
}.

Record accountWithoutStorage : Type := mkAccountWithoutStorage {
  aws_Nonce : N;
  aws_Balance : option Z;
  aws_Root : bytes;
  aws_CodeHash : option bytes
}.

Definition accountSizeWithoutData : N := 1.
Definition minAccountSizeWithRootAndCodeHash : N := 60.

(** Modelled from the spec: [crypto.Keccak256(nil)], which section 6 gives
    as the empty-code hash constant. *)
Definition emptyCodeHash : bytes :=
  [ xc5; xd2; x46; x01; x86; xf7; x23; x3c;
    x92; x7e; x7d; xb2; xdc; xc7; x03; xc0;
    xe5; x00; xb6; x53; xca; x82; x27; x3b;
    x7b; xfa; xd8; x04; x5d; x85; xa4; x70 ].

Definition emptyRoot : bytes :=
  [ x56; xe8; x1f; x17; x1b; xcc; x55; xa6;
    xff; x83; x45; xe6; x92; xc0; xf8; x6e;
    x5b; x48; xe0; x1b; x99; x6c; xad; xc0;
    x01; x62; x2f; xb5; xe3; x63; xb4; x21 ].

(** [common.Hash{}] *)
Definition zeroHash : bytes := repeat x00 32.

(** [new(Account)] *)
Definition newAccount : Account :=
  {| Nonce := 0; Balance := None; Root := zeroHash; CodeHash := None;
     StorageSize := None |}.

(** What goes wrong in the codec: a Go panic, or an error of the rlp package. *)
Inductive fault : Type :=
| PanicNilDereference
| RlpError (e : RLP.error).

Definition IsEmptyCodeHash (a : Account) : bool :=
  match CodeHash a with
  | None => true
  | Some c => bytes_eqb c emptyCodeHash
  end.

Definition IsEmptyRoot (a : Account) : bool :=
  bytes_eqb (Root a) emptyRoot || bytes_eqb (Root a) zeroHash.

Definition setDefaultBalance (a : Account) : Account :=
  match Balance a with
  | None => mkAccount (Nonce a) (Some 0%Z) (Root a) (CodeHash a) (StorageSize a)
  | Some _ => a
  end.

Definition setDefaultCodeHash (a : Account) : Account :=
  if IsEmptyCodeHash a
  then mkAccount (Nonce a) (Balance a) (Root a) (Some emptyCodeHash) (StorageSize a)
  else a.

Definition setDefaultRoot (a : Account) : Account :=
  if IsEmptyRoot a
  then mkAccount (Nonce a) (Balance a) emptyRoot (CodeHash a) (StorageSize a)
  else a.

Definition isNil {A} (p : option A) : bool :=
  match p with
  | None => true
  | Some _ => false
  end.

(** [make([]byte, len(src)); copy]: never nil. *)
Definition copyBytes (src : option bytes) : option bytes :=
  match src with
  | None => Some []
  | Some c => Some c
  end.

(** [z.Set(x)] on a non-nil receiver: a nil [x] is dereferenced. *)
Definition bigSet (x : option Z) : result fault (option Z) :=
  match x with
  | None => Err PanicNilDereference
  | Some v => Ok (Some v)
  end.

Definition fill (a srcAccount : Account) : result fault Account :=
  let a1 := mkAccount (Nonce a) (Balance a) (Root srcAccount)
                      (copyBytes (CodeHash srcAccount)) (StorageSize a) in
  let a2 := setDefaultBalance a1 in
  b <-- bigSet (Balance srcAccount) ;;
  Ok (mkAccount (Nonce srcAccount) b (Root a2) (CodeHash a2)
        (match StorageSize srcAccount with
         | Some s => Some s
         | None => StorageSize a2
         end)).

Definition setCodeHash (a : Account) (codeHash : option bytes) : Account :=
  mkAccount (Nonce a) (Balance a) (Root a) (copyBytes codeHash) (StorageSize a).

Definition fillAccountWithoutStorage (a : Account) (src : accountWithoutStorage)
  : result fault Account :=
  let a1 := mkAccount (Nonce a) (Balance a) (aws_Root src) (CodeHash a) (StorageSize a) in
  let a2 := setDefaultBalance (setCodeHash a1 (aws_CodeHash src)) in
  b <-- bigSet (aws_Balance src) ;;
  Ok (mkAccount (aws_Nonce src) b (Root a2) (CodeHash a2) None).

Definition fillFromExtAccount (a : Account) (src : ExtAccount) : result fault Account :=
  let a1 := mkAccount (ext_Nonce src) (Balance a) (Root a) (CodeHash a) (StorageSize a) in
  let a2 := setDefaultBalance a1 in
  b <-- bigSet (ext_Balance src) ;;
  Ok (mkAccount (Nonce a2) b emptyRoot (Some emptyCodeHash) (StorageSize a2)).

Definition ext_setDefaultBalance (e : ExtAccount) : ExtAccount :=
  match ext_Balance e with
  | None => mkExtAccount (ext_Nonce e) (Some 0%Z)
  | Some _ => e
  end.

Definition ext_fill (e : ExtAccount) (srcAccount : Account) : result fault ExtAccount :=
  let e1 := ext_setDefaultBalance e in
  b <-- bigSet (Balance srcAccount) ;;
  Ok (mkExtAccount (Nonce srcAccount) b).

Definition newAccountCopy (srcAccount : Account) : result fault Account :=
  a <-- fill newAccount srcAccount ;;
  Ok (setDefaultRoot (setDefaultCodeHash (setDefaultBalance a))).

(** *** [rlp.EncodeToBytes] and [rlp.DecodeBytes] at the three struct types *)

Definition liftRlp {A} (r : result RLP.error A) : result fault A :=
  match r with
  | Ok a => Ok a
  | Err e => Err (RlpError e)
  end.

(** A nil [*big.Int] is written as the empty string. *)
Definition encodeBalance (b : option Z) : result fault bytes :=
  match b with
  | None => Ok (RLP.encodeString [])
  | Some z => liftRlp (RLP.encodeBigInt z)
  end.

Definition encodeSlice (c : option bytes) : bytes :=
  RLP.encodeString (match c with Some s => s | None => [] end).

Definition encodeExtAccount (e : ExtAccount) : result fault bytes :=
  b <-- encodeBalance (ext_Balance e) ;;
  Ok (RLP.encodeList (RLP.encodeUint (ext_Nonce e) ++ b)).

Definition encodeAccountWithoutStorage (s : accountWithoutStorage) : result fault bytes :=
  b <-- encodeBalance (aws_Balance s) ;;
  Ok (RLP.encodeList (RLP.encodeUint (aws_Nonce s) ++ b
                        ++ RLP.encodeString (aws_Root s)
                        ++ encodeSlice (aws_CodeHash s))).

Definition encodeAccount (a : Account) : result fault bytes :=
  b <-- encodeBalance (Balance a) ;;
  Ok (RLP.encodeList (RLP.encodeUint (Nonce a) ++ b
                        ++ RLP.encodeString (Root a)
                        ++ encodeSlice (CodeHash a)
                        ++ match StorageSize a with
                           | Some s => RLP.encodeUint s
                           | None => RLP.encodeString []
                           end)).

Definition decodeExtAccount : bytes -> result RLP.error ExtAccount :=
  RLP.decodeStruct (fun p =>
    '(n, p1) <-- RLP.decodeUint64 p ;;
    '(b, p2) <-- RLP.decodeBigInt p1 ;;
    Ok (mkExtAccount n (Some b), p2)).

Definition decodeAccountWithoutStorage : bytes -> result RLP.error accountWithoutStorage :=
  RLP.decodeStruct (fun p =>
    '(n, p1) <-- RLP.decodeUint64 p ;;
    '(b, p2) <-- RLP.decodeBigInt p1 ;;
    '(r, p3) <-- RLP.decodeArray 32 p2 ;;
    '(c, p4) <-- RLP.decodeBytes p3 ;;
    Ok (mkAccountWithoutStorage n (Some b) r (Some c), p4)).

Definition decodeAccountWithStorage : bytes -> result RLP.error Account :=
  RLP.decodeStruct (fun p =>
    '(n, p1) <-- RLP.decodeUint64 p ;;
    '(b, p2) <-- RLP.decodeBigInt p1 ;;
    '(r, p3) <-- RLP.decodeArray 32 p2 ;;
    '(c, p4) <-- RLP.decodeBytes p3 ;;
    '(s, p5) <-- RLP.decodeUint64 p4 ;;
    Ok (mkAccount n (Some b) r (Some c) (Some s), p5)).

(** *** [Encode] and [Decode] *)

Definition balanceIsZero (a : Account) : bool :=
  match Balance a with
  | None => true
  | Some z => (z =? 0)%Z
  end.

Definition Encode (a : Account) (enableStorageSize : bool) : result fault bytes :=
  if IsEmptyCodeHash a && IsEmptyRoot a then
    if balanceIsZero a && (Nonce a =? 0) then Ok [xc0]
    else
      e <-- ext_fill (mkExtAccount 0 None) a ;;
      encodeExtAccount (ext_setDefaultBalance e)
  else
    acc <-- newAccountCopy a ;;
    if negb enableStorageSize || isNil (StorageSize acc)
    then encodeAccountWithoutStorage
           (mkAccountWithoutStorage (Nonce acc) (Balance acc) (Root acc) (CodeHash acc))
    else encodeAccount acc.

(** The method [(a *Account) Decode(enc)]: the receiver afterwards, or the
    error returned (the receiver is then as it was). *)
Definition Account_Decode (a : Account) (enc : bytes) : result fault Account :=
  let encodedLength := len enc in
  if encodedLength =? 0 then Ok a
  else if encodedLength =? accountSizeWithoutData then
    let a1 := mkAccount (Nonce a) (Some 0%Z) (Root a) (CodeHash a) (StorageSize a) in
    let a2 := setCodeHash a1 (Some emptyCodeHash) in
    Ok (mkAccount (Nonce a2) (Balance a2) emptyRoot (CodeHash a2) (StorageSize a2))
  else if encodedLength <? minAccountSizeWithRootAndCodeHash then
    extData <-- liftRlp (decodeExtAccount enc) ;;
    fillFromExtAccount a extData
  else
    match decodeAccountWithoutStorage enc with
    | Ok dataWithoutStorage => fillAccountWithoutStorage a dataWithoutStorage
    | Err RLP.ErrTooManyElements =>
        dataWithStorage <-- liftRlp (decodeAccountWithStorage enc) ;;
        fill a dataWithStorage
    | Err e => Err (RlpError e)
    end.

(** The package-level [Decode(enc)]: the pointer returned ([None] is nil)
    and the error. *)
Definition Decode (enc : bytes) : option Account * option fault :=
  if len enc =? 0 then (None, None)
  else
    let acc := newAccount in
    match Account_Decode acc enc with
    | Ok acc' => (Some acc', None)
    | Err e => (Some acc, Some e)
    end.

(** [EncodeRLP]: always the long form, on a copy of the account; the storage
    size is written whenever it is asked for, a nil one as the empty string. *)
Definition EncodeRLP (a : Account) (enableStorageSize : bool) : result fault bytes :=
  acc <-- newAccountCopy a ;;
  if negb enableStorageSize
  then encodeAccountWithoutStorage
         (mkAccountWithoutStorage (Nonce acc) (Balance acc) (Root acc) (CodeHash acc))
  else encodeAccount acc.

End accounts.

(** ** Accounts: what a round trip through the codec preserves *)

Module accounts_spec.
Import accounts.

(** The balance as a number: a nil [*big.Int] is read as zero. *)
Definition balanceOrZero (a : Account) : Z :=
  match Balance a with
  | Some z => z
  | None => 0%Z
  end.

Definition codeHashBytes (a : Account) : bytes :=
  match CodeHash a with
  | Some c => c
  | None => []
  end.

(** What the Go types guarantee of an account: a 64-bit nonce and storage
    size, a root of 32 bytes, and slices that fit in memory. *)
Definition wellTyped (a : Account) : Prop :=
  Nonce a < 2 ^ 64 /\
  len (Root a) = 32 /\
  (forall s, StorageSize a = Some s -> s < 2 ^ 64) /\
  len (putint (Z.to_N (balanceOrZero a))) + len (codeHashBytes a) < 2 ^ 62.

Definition encodedLength (a : Account) (enableStorageSize : bool) : N :=
  match Encode a enableStorageSize with
  | Ok enc => len enc
  | Err _ => 0
  end.

(** [Decode] tells the short form from the long one by the length of the
    input alone: the short form must stay below 60 bytes, the long one not. *)
Definition lengthTellsForm (a : Account) (enableStorageSize : bool) : bool :=
  if IsEmptyCodeHash a && IsEmptyRoot a
  then encodedLength a enableStorageSize <? minAccountSizeWithRootAndCodeHash
  else minAccountSizeWithRootAndCodeHash <=? encodedLength a enableStorageSize.

(** Decoding the encoding of [a] into a fresh account gives back the nonce,
    balance, root and code hash of [a]. *)
Definition roundTrips (a : Account) (enableStorageSize : bool) : Prop :=
  exists enc a',
    Encode a enableStorageSize = Ok enc /\
    Account_Decode newAccount enc = Ok a' /\
    Nonce a' = Nonce a /\ Balance a' = Balance a /\
    Root a' = Root a /\ CodeHash a' = CodeHash a.

(** The same, a nil balance being read back as zero. *)
Definition roundTripsUpToNilBalance (a : Account) (enableStorageSize : bool) : Prop :=
  exists enc a',
    Encode a enableStorageSize = Ok enc /\
    Account_Decode newAccount enc = Ok a' /\
    Nonce a' = Nonce a /\ Balance a' = Some (balanceOrZero a) /\
    Root a' = Root a /\ CodeHash a' = CodeHash a.

(** What the claim on one-byte inputs says of the method [Decode] on the
    receiver [a]: the byte is accepted and the account afterwards is the
    empty one, with nonce 0, zero balance, empty root and empty code hash. *)
Definition decodesToEmpty (a : Account) (b : byte) : Prop :=
  exists a',
    Account_Decode a [b] = Ok a' /\
    Nonce a' = 0 /\ Balance a' = Some 0%Z /\
    Root a' = emptyRoot /\ CodeHash a' = Some emptyCodeHash.

(** The case in which [Encode] writes the single byte 0xC0. *)
Definition oneByteCase (a : Account) : bool :=
  IsEmptyCodeHash a && IsEmptyRoot a && (balanceIsZero a && (Nonce a =? 0)).

(** The account that [newAccountCopy] makes of [a] with balance [z]. *)
Definition normalCopy (a : Account) (z : Z) : Account :=
  mkAccount (Nonce a) (Some z)
    (if IsEmptyRoot a then emptyRoot else Root a)
    (Some (codeHashBytes a)) (StorageSize a).

(** What every decoded account satisfies. *)
Definition decodedShape (a : Account) : Prop :=
  (exists z, Balance a = Some z /\ (0 <= z)%Z) /\
  Nonce a < 2 ^ 64 /\
  len (Root a) = 32 /\
  CodeHash a <> None /\
  (forall s, StorageSize a = Some s -> s < 2 ^ 64).

End accounts_spec.

(** ** CBOR *)

Module CBOR.

(** The tapes and the header of a witness are written with the CBOR codec of
    [github.com/ugorji/go/codec], which is not part of the repository.  Its
    output for the values the builder hands to it is that of RFC 7049: a head
    byte carrying the major type and the argument, the argument in 1, 2, 4 or
    8 more bytes when it does not fit, then the content.  With [Canonical]
    set, the codec writes a map with its string keys sorted. *)
Fixpoint be_fixed (width : nat) (n : N) : bytes :=
  match width with
  | O => []
  | S w => be_fixed w (n / 256) ++ [n2b (n mod 256)]
  end.

Definition encodeHead (major n : N) : bytes :=
  if n <? 24 then [n2b (major * 32 + n)]
  else if n <? 2 ^ 8 then n2b (major * 32 + 24) :: be_fixed 1 n
  else if n <? 2 ^ 16 then n2b (major * 32 + 25) :: be_fixed 2 n
  else if n <? 2 ^ 32 then n2b (major * 32 + 26) :: be_fixed 4 n
  else n2b (major * 32 + 27) :: be_fixed 8 n.

Definition encodeUint (n : N) : bytes := encodeHead 0 n.

Definition encodeInt (z : Z) : bytes :=
  if (z <? 0)%Z then encodeHead 1 (Z.to_N (-1 - z)) else encodeHead 0 (Z.to_N z).

Definition encodeBytes (s : bytes) : bytes := encodeHead 2 (len s) ++ s.

Definition encodeText (s : string) : bytes :=
  encodeHead 3 (len (list_byte_of_string s)) ++ list_byte_of_string s.

Fixpoint insertByKey (kv : string * Z) (l : list (string * Z)) : list (string * Z) :=
  match l with
  | [] => [kv]
  | x :: t => if String.leb (fst kv) (fst x) then kv :: l else x :: insertByKey kv t
  end.

Definition sortedEntries (m : gmap string Z) : list (string * Z) :=
  fold_right insertByKey [] (map_to_list m).

Definition encodeEntry (kv : string * Z) : bytes :=
  encodeText (fst kv) ++ encodeInt (snd kv).

Definition encodeMapCanonical (m : gmap string Z) : bytes :=
  encodeHead 5 (N.of_nat (length (sortedEntries m)))
    ++ concat (map encodeEntry (sortedEntries m)).

Inductive error : Type :=
| ErrEOF
| ErrUnsupported
| ErrNotAMap
| ErrBadKey
| ErrBadValue.

Definition readFixed (width : N) (inp : bytes) : result error (N * bytes) :=
  if len inp <? width then Err ErrEOF
  else Ok (be_val (take (N.to_nat width) inp), drop (N.to_nat width) inp).

(** The major type, the argument, and the rest of the input. *)
Definition decodeHead (inp : bytes) : result error (N * N * bytes) :=
  match inp with
  | [] => Err ErrEOF
  | b :: tl =>
      let major := b2n b / 32 in
      let info := b2n b mod 32 in
      if info <? 24 then Ok (major, info, tl)
      else if info =? 24 then '(n, r) <-- readFixed 1 tl ;; Ok (major, n, r)
      else if info =? 25 then '(n, r) <-- readFixed 2 tl ;; Ok (major, n, r)
      else if info =? 26 then '(n, r) <-- readFixed 4 tl ;; Ok (major, n, r)
      else if info =? 27 then '(n, r) <-- readFixed 8 tl ;; Ok (major, n, r)
      else Err ErrUnsupported
  end.

Definition decodeText (inp : bytes) : result error (string * bytes) :=
  '(major, n, r) <-- decodeHead inp ;;
  if negb (major =? 3) then Err ErrBadKey
  else if len r <? n then Err ErrEOF
  else Ok (string_of_list_byte (take (N.to_nat n) r), drop (N.to_nat n) r).

Definition decodeInt (inp : bytes) : result error (Z * bytes) :=
  '(major, n, r) <-- decodeHead inp ;;
  if major =? 0 then Ok (Z.of_N n, r)
  else if major =? 1 then Ok ((-1 - Z.of_N n)%Z, r)
  else Err ErrBadValue.

Fixpoint decodeEntries (count : nat) (inp : bytes) (acc : gmap string Z)
  : result error (gmap string Z * bytes) :=
  match count with
  | O => Ok (acc, inp)
  | S c =>
      '(k, r1) <-- decodeText inp ;;
      '(v, r2) <-- decodeInt r1 ;;
      decodeEntries c r2 (<[k := v]> acc)
  end.

(** Decodes one [map[string]int] from the front of the input. *)
Definition decodeMap (inp : bytes) : result error (gmap string Z * bytes) :=
  '(major, n, r) <-- decodeHead inp ;;
  if negb (major =? 5) then Err ErrNotAMap
  else if len r <? 2 * n then Err ErrEOF
  else decodeEntries (N.to_nat n) r ∅.

End CBOR.

(** ** The block witness: [trie/proof_generator.go] *)

Module trie.

(** The nodes of a trie.  [NilNode] is the nil interface value; the seventeen
    children of a [FullNode] are a list. *)
Inductive node : Type :=
| NilNode
| ValueNode (v : bytes)
| ShortNode (Key : bytes) (Val : node)
| DuoNode (mask : N) (child1 child2 : node)
| FullNode (Children : list node)
| AccountNode (Nonce : N) (Balance : Z) (Root CodeHash : bytes) (storage : node)
| HashNode (h : bytes).

Definition isNilNode (n : node) : bool :=
  match n with
  | NilNode => true
  | _ => false
  end.

Record Trie : Type := mkTrie { root : node }.

Definition KeysTape : string := "keys".
Definition ValuesTape : string := "values".
Definition HashesTape : string := "hashes".
Definition CodesTape : string := "codes".
Definition StructureTape : string := "structure".

(** The five tapes; each field is the byte buffer of its [TapeBuilder]. *)
Record BlockWitnessBuilder : Type := mkBWB {
  Keys : bytes;
  Values : bytes;
  Hashes : bytes;
  Codes : bytes;
  Structure : bytes
}.

Inductive Instruction : Type :=
| OpLeaf
| OpLeafHash
| OpExtension
| OpExtensionHash
| OpBranch
| OpBranchHash
| OpHash
| OpCode
| OpAccountLeaf
| OpAccountLeafHash
| OpContractLeaf
| OpContractLeafHash
| OpEmptyRoot.

Definition Instruction_eqb (a b : Instruction) : bool :=
  match a, b with
  | OpLeaf, OpLeaf | OpLeafHash, OpLeafHash | OpExtension, OpExtension
  | OpExtensionHash, OpExtensionHash | OpBranch, OpBranch
  | OpBranchHash, OpBranchHash | OpHash, OpHash | OpCode, OpCode
  | OpAccountLeaf, OpAccountLeaf | OpAccountLeafHash, OpAccountLeafHash
  | OpContractLeaf, OpContractLeaf | OpContractLeafHash, OpContractLeafHash
  | OpEmptyRoot, OpEmptyRoot => true
  | _, _ => false
  end.

(** The [const] block, in the order of its declarations.  The first is
    [Instruction = iota]; each following line repeats the expression, so a
    constant's value is its position in the block. *)
Definition constBlock : list Instruction :=
  [ OpLeaf; OpLeafHash; OpExtension; OpExtensionHash; OpBranch; OpBranchHash;
    OpHash; OpCode; OpAccountLeaf; OpAccountLeafHash; OpContractLeaf;
    OpContractLeafHash; OpEmptyRoot ].

Fixpoint iota (i : Instruction) (block : list Instruction) (pos : N) : N :=
  match block with
  | [] => pos
  | c :: rest => if Instruction_eqb i c then pos else iota i rest (pos + 1)
  end.

(** The numeric value of an opcode, a [uint8]. *)
Definition opcode (i : Instruction) : N := iota i constBlock 0 mod 2 ^ 8.

Definition NewBlockWitnessBuilder : BlockWitnessBuilder := mkBWB [] [] [] [] [].

(** Appending to a tape.  The encoder writes into a memory buffer, which
    does not fail, so the [error] these functions return is always nil. *)
Definition toKeys (b : bytes) (w : BlockWitnessBuilder) : BlockWitnessBuilder :=
  mkBWB (Keys w ++ b) (Values w) (Hashes w) (Codes w) (Structure w).
Definition toValues (b : bytes) (w : BlockWitnessBuilder) : BlockWitnessBuilder :=
  mkBWB (Keys w) (Values w ++ b) (Hashes w) (Codes w) (Structure w).
Definition toHashes (b : bytes) (w : BlockWitnessBuilder) : BlockWitnessBuilder :=
  mkBWB (Keys w) (Values w) (Hashes w ++ b) (Codes w) (Structure w).
Definition toCodes (b : bytes) (w : BlockWitnessBuilder) : BlockWitnessBuilder :=
  mkBWB (Keys w) (Values w) (Hashes w) (Codes w ++ b) (Structure w).
Definition toStructure (b : bytes) (w : BlockWitnessBuilder) : BlockWitnessBuilder :=
  mkBWB (Keys w) (Values w) (Hashes w) (Codes w) (Structure w ++ b).

Definition supplyKey (key : bytes) := toKeys (CBOR.encodeBytes key).
Definition supplyValue (value : bytes) := toValues (CBOR.encodeBytes value).
Definition supplyNumber (value : N) := toValues (CBOR.encodeUint (value mod 2 ^ 64)).
Definition supplyBigInt (value : Z) :=
  toValues (CBOR.encodeBytes (putint (Z.to_N (Z.abs value)))).
Definition supplyCode (code : bytes) := toCodes (CBOR.encodeBytes code).
Definition supplyHash (hash : bytes) := toHashes (CBOR.encodeBytes hash).

Definition op (i : Instruction) := toStructure (CBOR.encodeUint (opcode i)).

Definition leaf (length : Z) (w : BlockWitnessBuilder) :=
  toStructure (CBOR.encodeInt length) (op OpLeaf w).
Definition leafHash (length : Z) (w : BlockWitnessBuilder) :=
  toStructure (CBOR.encodeInt length) (op OpLeafHash w).
Definition extension (key : bytes) (w : BlockWitnessBuilder) :=
  toStructure (CBOR.encodeBytes key) (op OpExtension w).
Definition extensionHash (key : bytes) (w : BlockWitnessBuilder) :=
  toStructure (CBOR.encodeBytes key) (op OpExtensionHash w).
Definition branch (set : N) (w : BlockWitnessBuilder) :=
  toStructure (CBOR.encodeUint set) (op OpBranch w).
Definition branchHash (set : N) (w : BlockWitnessBuilder) :=
  toStructure (CBOR.encodeUint set) (op OpBranchHash w).
Definition hash (number : Z) (w : BlockWitnessBuilder) :=
  toStructure (CBOR.encodeInt number) (op OpHash w).
Definition code (w : BlockWitnessBuilder) := op OpCode w.
Definition accountLeaf (length : Z) (w : BlockWitnessBuilder) :=
  toStructure (CBOR.encodeInt length) (op OpAccountLeaf w).
Definition accountLeafHash (length : Z) (w : BlockWitnessBuilder) :=
  toStructure (CBOR.encodeInt length) (op OpAccountLeafHash w).
Definition contractLeaf (length : Z) (w : BlockWitnessBuilder) :=
  toStructure (CBOR.encodeInt length) (op OpContractLeaf w).
Definition contractLeafHash (length : Z) (w : BlockWitnessBuilder) :=
  toStructure (CBOR.encodeInt length) (op OpContractLeafHash w).
Definition emptyRoot (w : BlockWitnessBuilder) := op OpEmptyRoot w.

(** Modelled from the spec: [duoNode.childrenIdx] is not among the sources.
    Section 3 gives the two child indices [i1 < i2] of a [Duo] with
    [mask = (1<<i1) | (1<<i2)]: they are the positions of the two set bits. *)
Fixpoint setBits (fuel : nat) (i : N) (mask : N) : list N :=
  match fuel with
  | O => []
  | S f => if N.testbit mask i then i :: setBits f (i + 1) mask
           else setBits f (i + 1) mask
  end.

Definition childrenIdx (mask : N) : N * N :=
  match setBits 17 0 mask with
  | i1 :: i2 :: _ => (i1, i2)
  | [i1] => (i1, 0)
  | [] => (0, 0)
  end.

(** Modelled from the spec: the methods [IsEmptyRoot] and [IsEmptyCodeHash]
    of the account in an [accountNode], whose root and code hash are both of
    type [common.Hash]; section 3 compares them with the two constants.  As
    in [account.go], the zero value counts as empty too. *)
Definition IsEmptyRoot (Root : bytes) : bool :=
  bytes_eqb Root accounts.emptyRoot || bytes_eqb Root accounts.zeroHash.
Definition IsEmptyCodeHash (CodeHash : bytes) : bool :=
  bytes_eqb CodeHash accounts.emptyCodeHash || bytes_eqb CodeHash accounts.zeroHash.

Inductive fault : Type :=
| PanicIndexOutOfRange
| PanicUnexpectedNode.

Definition u32 (n : N) : N := n mod 2 ^ 32.

Section Builder.

(** The resolve set, with its cursor, and its query [HashOnly], which moves
    the cursor; the hasher, as the 32 bytes it leaves in the buffer it is
    given; and the code store handed to [MakeBlockWitness]. *)
Variable ResolveSet : Type.
Variable HashOnly : ResolveSet -> bytes -> bool * ResolveSet.
Variable hasher_hash : node -> bool -> bytes.
Variable codeFromHash : bytes -> bytes.

Definition State : Type := (BlockWitnessBuilder * ResolveSet)%type.

Definition onBuilder (f : BlockWitnessBuilder -> BlockWitnessBuilder) (s : State) : State :=
  (f (fst s), snd s).

Definition queryHashOnly (hex : bytes) (s : State) : bool * State :=
  let '(b, rs') := HashOnly (snd s) hex in (b, (fst s, rs')).

Definition ilen (s : bytes) : Z := Z.of_nat (length s).

(** The loop [for i, child := range n.Children] of the full-node case,
    from index [i] on; [recur] is [makeBlockWitness] itself. *)
Fixpoint rangeChildren (recur : node -> bytes -> bool -> State -> result fault State)
    (hex : bytes) (cs : list node) (i : N) (st : State) (set : N)
    {struct cs} : result fault (State * N) :=
  match cs with
  | [] => Ok (st, set)
  | child :: cs' =>
      if isNilNode child then rangeChildren recur hex cs' (i + 1) st set
      else
        st' <-- recur child (hex ++ [n2b i]) false st ;;
        rangeChildren recur hex cs' (i + 1) st'
          (u32 (N.lor set (u32 (N.shiftl 1 i))))
  end.

Fixpoint makeBlockWitness (nd : node) (hex : bytes) (force : bool) (s : State)
  {struct nd} : result fault State :=
  match nd with
  | NilNode => Ok s
  | ValueNode n => Ok (onBuilder (supplyValue n) s)
  | ShortNode Key Val =>
      let '(hashOnly, s0) := queryHashOnly hex s in
      match last Key with
      | None => Err PanicIndexOutOfRange
      | Some l =>
          let h := if b2n l =? 16 then removelast Key else Key in
          let hexVal := hex ++ h in
          s1 <-- makeBlockWitness Val hexVal false s0 ;;
          match Val with
          | ValueNode _ =>
              let s2 := onBuilder (supplyKey Key) s1 in
              if hashOnly then Ok (onBuilder (leafHash (ilen Key)) s2)
              else Ok (onBuilder (leaf (ilen Key)) s2)
          | AccountNode _ _ vRoot vCodeHash _ =>
              let s2 := onBuilder (supplyKey Key) s1 in
              if hashOnly then
                if IsEmptyRoot vRoot && IsEmptyCodeHash vCodeHash
                then Ok (onBuilder (accountLeafHash (ilen Key)) s2)
                else Ok (onBuilder (contractLeafHash (ilen Key)) s2)
              else
                if IsEmptyRoot vRoot && IsEmptyCodeHash vCodeHash
                then Ok (onBuilder (accountLeaf (ilen Key)) s2)
                else Ok (onBuilder (contractLeaf (ilen Key)) s2)
          | _ =>
              if hashOnly then Ok (onBuilder (extensionHash Key) s1)
              else Ok (onBuilder (extension Key) s1)
          end
      end
  | DuoNode mask child1 child2 =>
      let '(hashOnly, s0) := queryHashOnly hex s in
      if hashOnly then
        let hn := hasher_hash nd force in
        Ok (onBuilder (hash 1) (onBuilder (supplyHash hn) s0))
      else
        let '(i1, i2) := childrenIdx mask in
        let hex1 := hex ++ [n2b i1] in
        let hex2 := hex ++ [n2b i2] in
        s1 <-- makeBlockWitness child1 hex1 false s0 ;;
        s2 <-- makeBlockWitness child2 hex2 false s1 ;;
        if hashOnly then Ok (onBuilder (branchHash mask) s2)
        else Ok (onBuilder (branch mask) s2)
  | FullNode Children =>
      let '(hashOnly, s0) := queryHashOnly hex s in
      if hashOnly then
        let hn := hasher_hash nd (Nat.eqb (length hex) 0) in
        Ok (onBuilder (hash 1) (onBuilder (supplyHash hn) s0))
      else
        '(s1, set) <-- rangeChildren makeBlockWitness hex Children 0 s0 0 ;;
        if hashOnly then Ok (onBuilder (branchHash set) s1)
        else Ok (onBuilder (branch set) s1)
  | AccountNode Nonce Balance Root CodeHash storage =>
      let '(hashOnly, s0) := queryHashOnly hex s in
      s3 <--
        (if negb (IsEmptyRoot Root) || negb (IsEmptyCodeHash CodeHash) then
           if hashOnly then
             Ok (onBuilder (hash 2)
                   (onBuilder (supplyHash CodeHash) (onBuilder (supplyHash Root) s0)))
           else
             s1 <-- makeBlockWitness storage hex true s0 ;;
             let code_ := codeFromHash CodeHash in
             Ok (onBuilder code (onBuilder (supplyCode code_) s1))
         else Ok s0) ;;
      Ok (onBuilder (supplyBigInt Balance) (onBuilder (supplyNumber Nonce) s3))
  | HashNode _ => Err PanicUnexpectedNode
  end.

Definition MakeBlockWitness (bwb : BlockWitnessBuilder) (t : Trie) (rs : ResolveSet)
  : result fault State :=
  makeBlockWitness (root t) [] true (bwb, rs).

End Builder.

(** [WriteTo]: what the writer holds afterwards, and the builder, whose
    buffers the writing drains. *)
Definition lens (bwb : BlockWitnessBuilder) : gmap string Z :=
  <[KeysTape := ilen (Keys bwb)]>
    (<[ValuesTape := ilen (Values bwb)]>
       (<[HashesTape := ilen (Hashes bwb)]>
          (<[CodesTape := ilen (Codes bwb)]>
             (<[StructureTape := ilen (Structure bwb)]> ∅)))).

Definition WriteTo (bwb : BlockWitnessBuilder) (w : bytes) : BlockWitnessBuilder * bytes :=
  let w0 := w ++ CBOR.encodeMapCanonical (lens bwb) in
  let w1 := w0 ++ Keys bwb in
  let w2 := w1 ++ Values bwb in
  let w3 := w2 ++ Hashes bwb in
  let w4 := w3 ++ Codes bwb in
  let w5 := w4 ++ Structure bwb in
  (NewBlockWitnessBuilder, w5).

(** [BlockWitnessToTrie]: the trie, the code map and the error it returns.
    After the header is decoded, the slicing of the tapes is commented out
    in the source and the function returns three nils. *)
Definition BlockWitnessToTrie (bw : bytes)
  : option Trie * option (gmap bytes bytes) * option CBOR.error :=
  match CBOR.decodeMap bw with
  | Err err => (None, None, Some err)
  | Ok _ => (None, None, None)
  end.

End trie.

(** ** The block witness: what the specification says of the builder *)

Module trie_spec.
Import trie.

Definition isBranch (nd : node) : bool :=
  match nd with
  | DuoNode _ _ _ | FullNode _ => true
  | _ => false
  end.

(** The occupancy bitmap of the slots [cs], the first of which has index [i]. *)
Fixpoint occupancy (cs : list node) (i : N) : N :=
  match cs with
  | [] => 0
  | c :: cs' =>
      N.lor (if isNilNode c then 0 else N.shiftl 1 i) (occupancy cs' (i + 1))
  end.

Definition bitmap (nd : node) : N :=
  match nd with
  | DuoNode mask _ _ => mask
  | FullNode Children => occupancy Children 0
  | _ => 0
  end.

(** A full node has seventeen slots. *)
Definition wellFormed (nd : node) : Prop :=
  match nd with
  | FullNode Children => length Children = 17%nat
  | _ => True
  end.

(** The flag with which the hasher is called on a branch at prefix [hex]. *)
Definition hashForce (nd : node) (hex : bytes) (force : bool) : bool :=
  match nd with
  | FullNode _ => Nat.eqb (length hex) 0
  | _ => force
  end.

(** The slots of a full node that hold a child, with their indices. *)
Fixpoint occupied (cs : list node) (i : N) : list (N * node) :=
  match cs with
  | [] => []
  | c :: cs' =>
      if isNilNode c then occupied cs' (i + 1) else (i, c) :: occupied cs' (i + 1)
  end.

Definition children (nd : node) : list (N * node) :=
  match nd with
  | DuoNode mask child1 child2 =>
      [(fst (childrenIdx mask), child1); (snd (childrenIdx mask), child2)]
  | FullNode Children => occupied Children 0
  | _ => []
  end.

Section Visit.
Variable ResolveSet : Type.
Variable HashOnly : ResolveSet -> bytes -> bool * ResolveSet.
Variable hasher_hash : node -> bool -> bytes.
Variable codeFromHash : bytes -> bytes.

(** The builder run on each child in turn, at the prefix extended by the
    child's index, stopping at the first that fails. *)
Definition visit (hex : bytes) (acc : result fault (State ResolveSet)) (p : N * node)
  : result fault (State ResolveSet) :=
  s <-- acc ;;
  makeBlockWitness ResolveSet HashOnly hasher_hash codeFromHash
    (snd p) (hex ++ [n2b (fst p)]) false s.

Definition visitChildren (nd : node) (hex : bytes) (s : State ResolveSet)
  : result fault (State ResolveSet) :=
  fold_left (visit hex) (children nd) (Ok s).

(** Modelled from the spec: [Trie.Hash] is not among the sources.  By
    section 4.E the root of an empty input is the empty-root constant, and
    by section 4.C the root is always hashed, with the force flag set. *)
Definition Trie_Hash (t : Trie) : bytes :=
  match root t with
  | NilNode => accounts.emptyRoot
  | n => hasher_hash n true
  end.
End Visit.

(** What the claim about hash-only branches asks of the structure tape: the
    opcode [OpBranchHash] and the bitmap are appended. *)
Definition emitsBranchHash (before after : BlockWitnessBuilder) (mask : N) : Prop :=
  Structure after
  = Structure before ++ CBOR.encodeUint (opcode OpBranchHash) ++ CBOR.encodeUint mask.

(** The header of a witness all of whose tapes have length 0. *)
Definition zeroHeader : bytes :=
  CBOR.encodeMapCanonical (lens NewBlockWitnessBuilder).

(** What scenario E2E-1 asks of the witness of the empty trie: the header
    of all-zero lengths, then the single byte of [OpEmptyRoot]. *)
Definition emptyTrieWitness (out : bytes) : Prop :=
  out = zeroHeader ++ [n2b (opcode OpEmptyRoot)].

(** Tape lengths are Go [int]s. *)
Definition fitsInt (bwb : BlockWitnessBuilder) : Prop :=
  (ilen (Keys bwb) < 2 ^ 63 /\ ilen (Values bwb) < 2 ^ 63 /\
   ilen (Hashes bwb) < 2 ^ 63 /\ ilen (Codes bwb) < 2 ^ 63 /\
   ilen (Structure bwb) < 2 ^ 63)%Z.

(** Instances used in examples: a resolve set without state that answers
    every query alike, a hasher that returns 32 equal bytes, no code. *)
Definition constHashOnly (answer : bool) (rs : unit) (hex : bytes) : bool * unit :=
  (answer, rs).
Definition constHasher (nd : node) (force : bool) : bytes := repeat xaa 32.
Definition noCode (codeHash : bytes) : bytes := [].

(** Each tape of [w'] begins with the same tape of [w]. *)
Definition extends (w w' : BlockWitnessBuilder) : Prop :=
  Keys w `prefix_of` Keys w' /\ Values w `prefix_of` Values w' /\
  Hashes w `prefix_of` Hashes w' /\ Codes w `prefix_of` Codes w' /\
  Structure w `prefix_of` Structure w'.

(** A resolve set that asks for everything: no prefix is hash-only. *)
Definition neverHashOnly {ResolveSet : Type}
    (HashOnly : ResolveSet -> bytes -> bool * ResolveSet) : Prop :=
  forall rs hex, fst (HashOnly rs hex) = false.

(** The tries the builder can walk to the end: no hash node and no short
    node with an empty key, the storage of an account counting only if the
    account has storage or code. *)
Fixpoint walkable (nd : node) : bool :=
  match nd with
  | NilNode | ValueNode _ => true
  | ShortNode Key Val =>
      match Key with
      | [] => false
      | _ :: _ => walkable Val
      end
  | DuoNode _ child1 child2 => walkable child1 && walkable child2
  | FullNode Children => forallb walkable Children
  | AccountNode _ _ Root CodeHash storage =>
      if negb (IsEmptyRoot Root) || negb (IsEmptyCodeHash CodeHash)
      then walkable storage else true
  | HashNode _ => false
  end.

(** The keys of the leaves of a trie, those of the storage of an account
    before the key of the account itself. *)
Fixpoint leafKeys (nd : node) : list bytes :=
  match nd with
  | NilNode | ValueNode _ | HashNode _ => []
  | ShortNode Key Val =>
      leafKeys Val ++
      match Val with
      | ValueNode _ | AccountNode _ _ _ _ _ => [Key]
      | _ => []
      end
  | DuoNode _ child1 child2 => leafKeys child1 ++ leafKeys child2
  | FullNode Children => flat_map leafKeys Children
  | AccountNode _ _ Root CodeHash storage =>
      if negb (IsEmptyRoot Root) || negb (IsEmptyCodeHash CodeHash)
      then leafKeys storage else []
  end.

(** What a full walk yields: success exactly on the walkable tries, the
    hashes tape untouched, the keys of the leaves on the keys tape. *)
Definition fullWalk (ResolveSet : Type)
    (HashOnly : ResolveSet -> bytes -> bool * ResolveSet)
    (hasher_hash : node -> bool -> bytes) (codeFromHash : bytes -> bytes)
    (nd : node) : Prop :=
  forall hex force (s : State ResolveSet),
    match makeBlockWitness ResolveSet HashOnly hasher_hash codeFromHash
            nd hex force s with
    | Ok s' =>
        walkable nd = true /\
        Hashes (fst s') = Hashes (fst s) /\
        Keys (fst s') = Keys (fst s) ++ concat (map CBOR.encodeBytes (leafKeys nd))
    | Err _ => walkable nd = false
    end.

(** The tapes that the lengths [m] of a header delimit in the bytes that
    follow it: keys, values, hashes, codes and structure, in this order. *)
Definition tapeLen (m : gmap string Z) (name : string) : nat :=
  Z.to_nat (default 0%Z (m !! name)).

Definition readTapes (m : gmap string Z) (body : bytes) : BlockWitnessBuilder :=
  let b1 := drop (tapeLen m KeysTape) body in
  let b2 := drop (tapeLen m ValuesTape) b1 in
  let b3 := drop (tapeLen m HashesTape) b2 in
  let b4 := drop (tapeLen m CodesTape) b3 in
  mkBWB (take (tapeLen m KeysTape) body) (take (tapeLen m ValuesTape) b1)
        (take (tapeLen m HashesTape) b2) (take (tapeLen m CodesTape) b3)
        (take (tapeLen m StructureTape) b4).

(** A leaf with key nibbles 0, 1 and the terminator, and value "VAL". *)
Definition exampleLeaf : node :=
  ShortNode [x00; x01; x10] (ValueNode [x56; x41; x4c]).

(** A two-child branch with children at nibbles 0 and 2. *)
Definition exampleDuo : node := DuoNode 5 exampleLeaf exampleLeaf.

(** A builder whose five tapes all differ in length. *)
Definition exampleTapes : BlockWitnessBuilder :=
  mkBWB [x01] [x02; x03] [] [x04; x05; x06] [x07; x08; x09; x0a].

End trie_spec.

(** ** The streaming resolver: [trie/resolver.go] *)

Module resolver.
Import trie.

Definition Levels : Z := 104.

(** The entries of the resolver's two vertical stacks.  A [Key] of [None]
    is the nil slice. *)
Record shortNode : Type := mkShortNode {
  Key : option bytes;
  Val : node;
  short_dirty : bool
}.

Record fullNode : Type := mkFullNode {
  Children : list node;
  full_dirty : bool
}.

(** A resolve request.  The request holds the root slot of its trie and the
    parent node into which the resolved root is spliced; both are written
    through the request. *)
Record ResolveRequest : Type := mkResolveRequest {
  t : Trie;
  contract : option bytes;
  resolveHex : bytes;
  resolvePos : Z;
  extResolvePos : Z;
  resolveHash : option bytes;
  resolved : node;
  resolveParent : node
}.

Record TrieResolver : Type := mkTrieResolver {
  accounts : bool;
  hashes : bool;
  requests : list ResolveRequest;
  resolveHexes : list bytes;
  rhIndexLte : Z;
  rhIndexGt : Z;
  reqIndices : list Z;
  key : bytes;
  value : bytes;
  key_set : bool;
  nodeStack : list shortNode;
  vertical : list fullNode;
  fillCount : list Z;
  startLevel : Z;
  keyIdx : Z;
  historical : bool;
  blockNr : N
}.

Definition emptyShort : shortNode := mkShortNode None NilNode false.
Definition emptyFull : fullNode := mkFullNode (replicate 17 NilNode) false.

Definition NewResolver (hashes accounts : bool) (blockNr : N) : TrieResolver :=
  {| accounts := accounts; hashes := hashes; requests := []; resolveHexes := [];
     rhIndexLte := -1; rhIndexGt := 0; reqIndices := [];
     key := []; value := []; key_set := false;
     nodeStack := replicate (Z.to_nat (Levels + 1)) emptyShort;
     vertical := replicate (Z.to_nat (Levels + 1)) emptyFull;
     fillCount := replicate (Z.to_nat (Levels + 1)) 0%Z;
     startLevel := 0; keyIdx := 0; historical := false; blockNr := blockNr |}.

(** Field updates. *)
Definition set_requests (x : list ResolveRequest) (tr : TrieResolver) : TrieResolver :=
  mkTrieResolver (accounts tr) (hashes tr) x (resolveHexes tr) (rhIndexLte tr)
    (rhIndexGt tr) (reqIndices tr) (key tr) (value tr) (key_set tr) (nodeStack tr)
    (vertical tr) (fillCount tr) (startLevel tr) (keyIdx tr) (historical tr) (blockNr tr).
Definition set_rhIndices (lte gt : Z) (tr : TrieResolver) : TrieResolver :=
  mkTrieResolver (accounts tr) (hashes tr) (requests tr) (resolveHexes tr) lte
    gt (reqIndices tr) (key tr) (value tr) (key_set tr) (nodeStack tr)
    (vertical tr) (fillCount tr) (startLevel tr) (keyIdx tr) (historical tr) (blockNr tr).
Definition set_key (k v : bytes) (tr : TrieResolver) : TrieResolver :=
  mkTrieResolver (accounts tr) (hashes tr) (requests tr) (resolveHexes tr) (rhIndexLte tr)
    (rhIndexGt tr) (reqIndices tr) k v (key_set tr) (nodeStack tr)
    (vertical tr) (fillCount tr) (startLevel tr) (keyIdx tr) (historical tr) (blockNr tr).
Definition set_key_set (b : bool) (tr : TrieResolver) : TrieResolver :=
  mkTrieResolver (accounts tr) (hashes tr) (requests tr) (resolveHexes tr) (rhIndexLte tr)
    (rhIndexGt tr) (reqIndices tr) (key tr) (value tr) b (nodeStack tr)
    (vertical tr) (fillCount tr) (startLevel tr) (keyIdx tr) (historical tr) (blockNr tr).
Definition set_stacks (ns : list shortNode) (vs : list fullNode) (fc : list Z)
    (tr : TrieResolver) : TrieResolver :=
  mkTrieResolver (accounts tr) (hashes tr) (requests tr) (resolveHexes tr) (rhIndexLte tr)
    (rhIndexGt tr) (reqIndices tr) (key tr) (value tr) (key_set tr) ns
    vs fc (startLevel tr) (keyIdx tr) (historical tr) (blockNr tr).
Definition set_startLevel (l : Z) (tr : TrieResolver) : TrieResolver :=
  mkTrieResolver (accounts tr) (hashes tr) (requests tr) (resolveHexes tr) (rhIndexLte tr)
    (rhIndexGt tr) (reqIndices tr) (key tr) (value tr) (key_set tr) (nodeStack tr)
    (vertical tr) (fillCount tr) l (keyIdx tr) (historical tr) (blockNr tr).
Definition set_keyIdx (i : Z) (tr : TrieResolver) : TrieResolver :=
  mkTrieResolver (accounts tr) (hashes tr) (requests tr) (resolveHexes tr) (rhIndexLte tr)
    (rhIndexGt tr) (reqIndices tr) (key tr) (value tr) (key_set tr) (nodeStack tr)
    (vertical tr) (fillCount tr) (startLevel tr) i (historical tr) (blockNr tr).

(** Go panics. *)
Inductive fault : Type :=
| PanicIndexOutOfRange
| PanicHashNodeExpected.

(** The errors that [finishPreviousKey] and [Walker] return. *)
Inductive error : Type :=
| ErrNilRoot
| ErrWrongHash (expected : option bytes) (got : bytes)
| ErrWrongHashEmbedded (expected : option bytes)
| ErrRlp (e : accounts.fault).

(** Indexing an array or slice: out of range is a panic. *)
Definition at_ {A} (l : list A) (i : Z) : result fault A :=
  if (i <? 0)%Z then Err PanicIndexOutOfRange
  else match l !! Z.to_nat i with
       | Some x => Ok x
       | None => Err PanicIndexOutOfRange
       end.

Definition put_ {A} (l : list A) (i : Z) (x : A) : result fault (list A) :=
  if (i <? 0)%Z then Err PanicIndexOutOfRange
  else if (Z.of_nat (length l) <=? i)%Z then Err PanicIndexOutOfRange
  else Ok (<[Z.to_nat i := x]> l).

(** [s[i:]] *)
Definition sliceFrom {A} (l : list A) (i : Z) : result fault (list A) :=
  if (i <? 0)%Z then Err PanicIndexOutOfRange
  else if (Z.of_nat (length l) <? i)%Z then Err PanicIndexOutOfRange
  else Ok (drop (Z.to_nat i) l).

Definition b2z (b : byte) : Z := Z.of_N (b2n b).

(** Modelled from the spec: [keybytesToHex] and [prefixLen] are not among the
    sources.  By sections 3 and 4.A a key of N bytes has 2N nibbles, the
    high nibble of each byte first, and a leaf key ends in the terminator
    nibble 16; [prefixLen] is the length of the common prefix (section 4.E). *)
Definition keybytesToHex (str : bytes) : bytes :=
  flat_map (fun b => [n2b (b2n b / 16); n2b (b2n b mod 16)]) str ++ [x10].

Fixpoint prefixLen (a b : bytes) : Z :=
  match a, b with
  | x :: a', y :: b' => if Byte.eqb x y then 1 + prefixLen a' b' else 0
  | _, _ => 0
  end.

(** [bytes.Compare]: -1, 0 or 1. *)
Fixpoint bytesCompare (a b : bytes) : Z :=
  match a, b with
  | [], [] => 0
  | [], _ :: _ => -1
  | _ :: _, [] => 1
  | x :: a', y :: b' =>
      if b2n x <? b2n y then -1
      else if b2n y <? b2n x then 1
      else bytesCompare a' b'
  end.

Definition isHashNode (n : node) : bool :=
  match n with
  | HashNode _ => true
  | _ => false
  end.

Definition keyBytes (k : option bytes) : bytes :=
  match k with
  | Some b => b
  | None => []
  end.

(** [short.copy()], [full.copy()] *)
Definition copyShort (n : shortNode) : node := ShortNode (keyBytes (Key n)) (Val n).
Definition copyFull (n : fullNode) : node := FullNode (Children n).

(** Modelled from the spec: [fullNode.duoCopy] is not among the sources.  By
    section 3 a [Full] with two occupied slots is interchangeable with the
    [Duo] of its two children, with mask [(1<<i1) | (1<<i2)]. *)
Fixpoint firstTwo (cs : list node) (i : N) : list (N * node) :=
  match cs with
  | [] => []
  | c :: cs' => if isNilNode c then firstTwo cs' (i + 1) else (i, c) :: firstTwo cs' (i + 1)
  end.

Definition duoCopy (n : fullNode) : node :=
  match firstTwo (Children n) 0 with
  | (i1, c1) :: (i2, c2) :: _ => DuoNode (N.lor (N.shiftl 1 i1) (N.shiftl 1 i2)) c1 c2
  | [(i1, c1)] => DuoNode (N.shiftl 1 i1) c1 NilNode
  | [] => DuoNode 0 NilNode NilNode
  end.

Section Resolver.

(** The hasher [tr.h]: the length it returns and the 32 bytes of the
    buffer afterwards.  [hexToCompact] and [compactToHex] convert between
    nibbles and the compact form of a key; they are used as given. *)
Variable hasher_hash : node -> bool -> Z * bytes.
Variable hexToCompact : bytes -> bytes.
Variable compactToHex : bytes -> bytes.

(** [tr.nodeStack[l]], [tr.vertical[l]] and [tr.fillCount[l]] are reset:
    the statements under [if level >= req.extResolvePos]. *)
Definition resetLevel (l : Z) (tr : TrieResolver) : result fault TrieResolver :=
  ns <-- put_ (nodeStack tr) l (mkShortNode None NilNode true) ;;
  fc <-- put_ (fillCount tr) l 0%Z ;;
  vs <-- put_ (vertical tr) l (mkFullNode (replicate 17 NilNode) true) ;;
  Ok (set_stacks ns vs fc tr).

(** One iteration of the loop [for level := startLevel; level >= stopLevel;
    level--] of [finishPreviousKey]. *)
Definition finishLevel (req : ResolveRequest) (hex : bytes) (rhPrefixLen : Z)
    (level : Z) (tr : TrieResolver) : result fault TrieResolver :=
  keynibble <-- at_ hex level ;;
  let onResolvingPath := (level <? rhPrefixLen)%Z in
  fc1 <-- at_ (fillCount tr) (level + 1) ;;
  if (fc1 =? 1)%Z then
    (* Short node, needs to be promoted to the level above *)
    short <-- at_ (nodeStack tr) (level + 1) ;;
    vl <-- at_ (vertical tr) level ;;
    ch <-- put_ (Children vl) (b2z keynibble) (copyShort short) ;;
    vs <-- put_ (vertical tr) level (mkFullNode ch true) ;;
    fc0 <-- at_ (fillCount tr) level ;;
    ns <-- (if (fc0 =? 0)%Z then
              put_ (nodeStack tr) level
                (mkShortNode
                   (Some (hexToCompact (keynibble :: compactToHex (keyBytes (Key short)))))
                   (Val short) true)
            else Ok (nodeStack tr)) ;;
    fc <-- put_ (fillCount tr) level (fc0 + 1)%Z ;;
    let tr1 := set_stacks ns vs fc tr in
    if (extResolvePos req <=? level)%Z then resetLevel (level + 1) tr1 else Ok tr1
  else
    full <-- at_ (vertical tr) (level + 1) ;;
    let '(hashLen, storeHashTo) := hasher_hash (copyFull full) false in
    if (hashLen <? 32)%Z then Err PanicHashNodeExpected
    else
      fc0 <-- at_ (fillCount tr) level ;;
      s0 <-- at_ (nodeStack tr) level ;;
      let s1 := if (fc0 =? 0)%Z
                then mkShortNode (Some (hexToCompact [keynibble])) (Val s0) true
                else s0 in
      vl <-- at_ (vertical tr) level ;;
      let c := if onResolvingPath || (hashes tr && (level =? 5)%Z) then
                 if (fc1 =? 2)%Z then duoCopy full else copyFull full
               else HashNode storeHashTo in
      ch <-- put_ (Children vl) (b2z keynibble) c ;;
      vs <-- put_ (vertical tr) level (mkFullNode ch true) ;;
      let s2 := if (fc0 =? 0)%Z
                then mkShortNode (Key s1) c (short_dirty s1)
                else s1 in
      ns <-- put_ (nodeStack tr) level s2 ;;
      fc <-- put_ (fillCount tr) level (fc0 + 1)%Z ;;
      let tr1 := set_stacks ns vs fc tr in
      if (extResolvePos req <=? level)%Z then resetLevel (level + 1) tr1 else Ok tr1.

(** The loop itself, over [count] levels from [level] downwards. *)
Fixpoint finishLoop (req : ResolveRequest) (hex : bytes) (rhPrefixLen : Z)
    (count : nat) (level : Z) (tr : TrieResolver) : result fault TrieResolver :=
  match count with
  | O => Ok tr
  | S c =>
      tr1 <-- finishLevel req hex rhPrefixLen level tr ;;
      finishLoop req hex rhPrefixLen c (level - 1)%Z tr1
  end.

(** The loop that moves [rhIndexGt] and [rhIndexLte] past the resolve
    keys that are not greater than [hex]. *)
Fixpoint adjustRhIndices (fuel : nat) (hex : bytes) (resolveHexes : list bytes)
    (lte gt : Z) (resComp : Z) : Z * Z :=
  match fuel with
  | O => (lte, gt)
  | S f =>
      if (gt <? Z.of_nat (length resolveHexes))%Z && negb (resComp =? -1)%Z then
        let gt' := (gt + 1)%Z in
        let lte' := (lte + 1)%Z in
        let resComp' :=
          if (gt' <? Z.of_nat (length resolveHexes))%Z
          then match at_ resolveHexes gt' with
               | Ok h => bytesCompare hex h
               | Err _ => resComp
               end
          else resComp in
        adjustRhIndices f hex resolveHexes lte' gt' resComp'
      else (lte, gt)
  end.

(** The request that the current key belongs to, and its index. *)
Definition currentRequest (tr : TrieResolver) : result fault (Z * ResolveRequest) :=
  i <-- at_ (reqIndices tr) (keyIdx tr) ;;
  req <-- at_ (requests tr) i ;;
  Ok (i, req).

(** [finishPreviousKey] up to and including [tr.startLevel = stopLevel]. *)
Definition finishLevels (tr : TrieResolver) (k : option bytes)
  : result fault TrieResolver :=
  let pLen := prefixLen (keyBytes k) (key tr) in
  stopLevel <--
    match k with
    | None => Ok (2 * pLen)%Z
    | Some kb =>
        x <-- at_ kb pLen ;;
        y <-- at_ (key tr) pLen ;;
        if N.land (N.lxor (b2n x) (b2n y)) 240 =? 0
        then Ok (2 * pLen + 1)%Z else Ok (2 * pLen)%Z
    end ;;
  '(_, req) <-- currentRequest tr ;;
  let startLevel0 := startLevel tr in
  let startLevel1 := if (startLevel0 <? extResolvePos req)%Z
                     then extResolvePos req else startLevel0 in
  let startLevel2 := if (startLevel1 <? stopLevel)%Z then stopLevel else startLevel1 in
  let hex := keybytesToHex (key tr) in
  suffix <-- sliceFrom hex (startLevel2 + 1) ;;
  ns <-- put_ (nodeStack tr) (startLevel2 + 1)
           (mkShortNode (Some (hexToCompact suffix)) (ValueNode (value tr)) true) ;;
  fc <-- put_ (fillCount tr) (startLevel2 + 1) 1%Z ;;
  let tr1 := set_stacks ns (vertical tr) fc tr in
  (* Adjust rhIndices if needed *)
  let n := Z.of_nat (length (resolveHexes tr1)) in
  '(lte, gt) <--
    (if (rhIndexGt tr1 <? n)%Z then
       h <-- at_ (resolveHexes tr1) (rhIndexGt tr1) ;;
       Ok (adjustRhIndices (length (resolveHexes tr1)) hex (resolveHexes tr1)
             (rhIndexLte tr1) (rhIndexGt tr1) (bytesCompare hex h))
     else Ok (rhIndexLte tr1, rhIndexGt tr1)) ;;
  let tr2 := set_rhIndices lte gt tr1 in
  rhPrefixLen0 <--
    (if (0 <=? rhIndexLte tr2)%Z then
       h <-- at_ (resolveHexes tr2) (rhIndexLte tr2) ;; Ok (prefixLen hex h)
     else Ok 0%Z) ;;
  rhPrefixLen <--
    (if (rhIndexGt tr2 <? n)%Z then
       h <-- at_ (resolveHexes tr2) (rhIndexGt tr2) ;;
       let rhPrefixLenGt := prefixLen hex h in
       Ok (if (rhPrefixLen0 <? rhPrefixLenGt)%Z then rhPrefixLenGt else rhPrefixLen0)
     else Ok rhPrefixLen0) ;;
  tr3 <-- finishLoop req hex rhPrefixLen
            (Z.to_nat (startLevel2 - stopLevel + 1)) startLevel2 tr2 ;;
  Ok (set_startLevel stopLevel tr3).

(** The statements of [finishPreviousKey] before the loop over the levels,
    on their own: the request, [rhPrefixLen], [startLevel], [stopLevel] and
    the resolver on entry to the loop. *)
Definition foldSetup (tr : TrieResolver) (k : option bytes)
  : result fault (ResolveRequest * Z * Z * Z * TrieResolver) :=
  let pLen := prefixLen (keyBytes k) (key tr) in
  stopLevel <--
    match k with
    | None => Ok (2 * pLen)%Z
    | Some kb =>
        x <-- at_ kb pLen ;;
        y <-- at_ (key tr) pLen ;;
        if N.land (N.lxor (b2n x) (b2n y)) 240 =? 0
        then Ok (2 * pLen + 1)%Z else Ok (2 * pLen)%Z
    end ;;
  '(_, req) <-- currentRequest tr ;;
  let startLevel0 := startLevel tr in
  let startLevel1 := if (startLevel0 <? extResolvePos req)%Z
                     then extResolvePos req else startLevel0 in
  let startLevel2 := if (startLevel1 <? stopLevel)%Z then stopLevel else startLevel1 in
  let hex := keybytesToHex (key tr) in
  suffix <-- sliceFrom hex (startLevel2 + 1) ;;
  ns <-- put_ (nodeStack tr) (startLevel2 + 1)
           (mkShortNode (Some (hexToCompact suffix)) (ValueNode (value tr)) true) ;;
  fc <-- put_ (fillCount tr) (startLevel2 + 1) 1%Z ;;
  let tr1 := set_stacks ns (vertical tr) fc tr in
  (* Adjust rhIndices if needed *)
  let n := Z.of_nat (length (resolveHexes tr1)) in
  '(lte, gt) <--
    (if (rhIndexGt tr1 <? n)%Z then
       h <-- at_ (resolveHexes tr1) (rhIndexGt tr1) ;;
       Ok (adjustRhIndices (length (resolveHexes tr1)) hex (resolveHexes tr1)
             (rhIndexLte tr1) (rhIndexGt tr1) (bytesCompare hex h))
     else Ok (rhIndexLte tr1, rhIndexGt tr1)) ;;
  let tr2 := set_rhIndices lte gt tr1 in
  rhPrefixLen0 <--
    (if (0 <=? rhIndexLte tr2)%Z then
       h <-- at_ (resolveHexes tr2) (rhIndexLte tr2) ;; Ok (prefixLen hex h)
     else Ok 0%Z) ;;
  rhPrefixLen <--
    (if (rhIndexGt tr2 <? n)%Z then
       h <-- at_ (resolveHexes tr2) (rhIndexGt tr2) ;;
       let rhPrefixLenGt := prefixLen hex h in
       Ok (if (rhPrefixLen0 <? rhPrefixLenGt)%Z then rhPrefixLenGt else rhPrefixLen0)
     else Ok rhPrefixLen0) ;;
  Ok (req, rhPrefixLen, startLevel2, stopLevel, tr2).

(** The root that the resolver has built for [req]: the statements that
    set [root] in the [k == nil] part of [finishPreviousKey]. *)
Definition builtRoot (tr : TrieResolver) (req : ResolveRequest) : result fault node :=
  fc <-- at_ (fillCount tr) (extResolvePos req) ;;
  if (fc =? 1)%Z then
    s <-- at_ (nodeStack tr) (extResolvePos req) ;; Ok (copyShort s)
  else if (fc =? 2)%Z then
    f <-- at_ (vertical tr) (extResolvePos req) ;; Ok (duoCopy f)
  else if (2 <? fc)%Z then
    f <-- at_ (vertical tr) (extResolvePos req) ;; Ok (copyFull f)
  else Ok NilNode.

(** The splice of [root] into the slot that held the hash reference. *)
Definition splice (req : ResolveRequest) (root_ : node) : result fault ResolveRequest :=
  let withRoot (r : ResolveRequest) : ResolveRequest :=
    mkResolveRequest (mkTrie root_) (contract r) (resolveHex r) (resolvePos r)
      (extResolvePos r) (resolveHash r) (resolved r) (resolveParent r) in
  let withParent (p : node) (r : ResolveRequest) : ResolveRequest :=
    mkResolveRequest (t r) (contract r) (resolveHex r) (resolvePos r)
      (extResolvePos r) (resolveHash r) (resolved r) p in
  match resolveParent req with
  | NilNode =>
      if isHashNode (root (t req)) then Ok (withRoot req) else Ok req
  | ShortNode pk pv =>
      if isHashNode pv then Ok (withParent (ShortNode pk root_) req) else Ok req
  | DuoNode mask child1 child2 =>
      let '(i1, i2) := childrenIdx mask in
      nib <-- at_ (resolveHex req) (resolvePos req - 1) ;;
      if b2n nib =? i1 then
        if isHashNode child1 then Ok (withParent (DuoNode mask root_ child2) req)
        else Ok req
      else if b2n nib =? i2 then
        if isHashNode child2 then Ok (withParent (DuoNode mask child1 root_) req)
        else Ok req
      else Ok req
  | FullNode cs =>
      idx <-- at_ (resolveHex req) (resolvePos req - 1) ;;
      child <-- at_ cs (b2z idx) ;;
      if isHashNode child then
        cs' <-- put_ cs (b2z idx) root_ ;;
        Ok (withParent (FullNode cs') req)
      else Ok req
  | _ => Ok req
  end.

(** The [k == nil] part of [finishPreviousKey]: the root is checked
    against the expected hash, stored in the request, the stacks are
    cleared and the root is spliced in.  ([timestampSubTree] writes the
    block number into the nodes of the new subtree; node time stamps are
    not part of this model.) *)
Definition finishRequest (tr : TrieResolver) : result fault (TrieResolver * option error) :=
  '(i, req) <-- currentRequest tr ;;
  root_ <-- builtRoot tr req ;;
  if isNilNode root_ then Ok (tr, Some ErrNilRoot)
  else
    let '(hashLen, gotHash) := hasher_hash root_ (resolvePos req =? 0)%Z in
    let mismatch :=
      if (hashLen =? 32)%Z then
        if bytes_eqb (keyBytes (resolveHash req)) gotHash then None
        else Some (ErrWrongHash (resolveHash req) gotHash)
      else
        match resolveHash req with
        | Some _ => Some (ErrWrongHashEmbedded (resolveHash req))
        | None => None
        end in
    match mismatch with
    | Some e => Ok (tr, Some e)
    | None =>
        let req1 := mkResolveRequest (t req) (contract req) (resolveHex req)
                      (resolvePos req) (extResolvePos req) (resolveHash req)
                      root_ (resolveParent req) in
        let tr1 := set_stacks
                     (replicate (Z.to_nat (Levels + 1)) (mkShortNode None NilNode true))
                     (replicate (Z.to_nat (Levels + 1))
                        (mkFullNode (replicate 17 NilNode) true))
                     (replicate (Z.to_nat (Levels + 1)) 0%Z) tr in
        req2 <-- splice req1 root_ ;;
        reqs <-- put_ (requests tr1) i req2 ;;
        Ok (set_requests reqs tr1, None)
    end.

Definition finishPreviousKey (tr : TrieResolver) (k : option bytes)
  : result fault (TrieResolver * option error) :=
  tr1 <-- finishLevels tr k ;;
  match k with
  | None => finishRequest tr1
  | Some _ => Ok (tr1, None)
  end.

(** [Walker]: the resolver afterwards, and the pair it returns. *)
Definition Walker (tr : TrieResolver) (keyIdx_ : Z) (k v : bytes)
  : result fault (TrieResolver * (bool * option error)) :=
  r1 <--
    (if negb (keyIdx_ =? keyIdx tr)%Z then
       r <-- (if key_set tr then
                '(tr', err) <-- finishPreviousKey tr None ;;
                match err with
                | Some e => Ok (tr', Some e)
                | None => Ok (set_key_set false tr', None)
                end
              else Ok (tr, None)) ;;
       match r with
       | (tr', Some e) => Ok (tr', Some e)
       | (tr', None) => Ok (set_keyIdx keyIdx_ tr', None)
       end
     else Ok (tr, None)) ;;
  match r1 with
  | (tr1, Some e) => Ok (tr1, (false, Some e))
  | (tr1, None) =>
      if (0 <? Z.of_nat (length v))%Z then
        (* First, finish off the previous key *)
        r2 <-- (if key_set tr1 then finishPreviousKey tr1 (Some k) else Ok (tr1, None)) ;;
        match r2 with
        | (tr2, Some e) => Ok (tr2, (false, Some e))
        | (tr2, None) =>
            (* Remember the current key and value *)
            let keyLen := if accounts tr2 then 32%Z else 52%Z in
            if (Z.of_nat (length k) <? keyLen)%Z then Err PanicIndexOutOfRange
            else
              let tr3 := set_key (take (Z.to_nat keyLen) k) (value tr2) tr2 in
              if accounts tr3 then
                if (Z.of_nat (length v) =? 1)%Z then
                  match accounts.encodeAccountWithoutStorage
                          (accounts.mkAccountWithoutStorage 0 (Some 0%Z)
                             accounts.emptyRoot (Some accounts.emptyCodeHash)) with
                  | Ok enc => Ok (set_key_set true (set_key (key tr3) enc tr3), (true, None))
                  | Err e => Ok (tr3, (false, Some (ErrRlp e)))
                  end
                else if (Z.of_nat (length v) <? 60)%Z then
                  match accounts.decodeExtAccount v with
                  | Err e => Ok (tr3, (false, Some (ErrRlp (accounts.RlpError e))))
                  | Ok extData =>
                      match accounts.encodeAccountWithoutStorage
                              (accounts.mkAccountWithoutStorage
                                 (accounts.ext_Nonce extData)
                                 (accounts.ext_Balance extData)
                                 accounts.emptyRoot (Some accounts.emptyCodeHash)) with
                      | Ok enc =>
                          Ok (set_key_set true (set_key (key tr3) enc tr3), (true, None))
                      | Err e => Ok (tr3, (false, Some (ErrRlp e)))
                      end
                  end
                else Ok (set_key_set true (set_key (key tr3) v tr3), (true, None))
              else Ok (set_key_set true (set_key (key tr3) v tr3), (true, None))
        end
      else Ok (tr1, (true, None))
  end.

End Resolver.

(** *** Requests: [AddRequest], the order [Less], [PrepareResolveParams] *)

Definition set_resolveHexes (x : list bytes) (tr : TrieResolver) : TrieResolver :=
  mkTrieResolver (accounts tr) (hashes tr) (requests tr) x (rhIndexLte tr)
    (rhIndexGt tr) (reqIndices tr) (key tr) (value tr) (key_set tr) (nodeStack tr)
    (vertical tr) (fillCount tr) (startLevel tr) (keyIdx tr) (historical tr) (blockNr tr).
Definition set_reqIndices (x : list Z) (tr : TrieResolver) : TrieResolver :=
  mkTrieResolver (accounts tr) (hashes tr) (requests tr) (resolveHexes tr) (rhIndexLte tr)
    (rhIndexGt tr) x (key tr) (value tr) (key_set tr) (nodeStack tr)
    (vertical tr) (fillCount tr) (startLevel tr) (keyIdx tr) (historical tr) (blockNr tr).
Definition set_extResolvePos (x : Z) (r : ResolveRequest) : ResolveRequest :=
  mkResolveRequest (t r) (contract r) (resolveHex r) (resolvePos r) x
    (resolveHash r) (resolved r) (resolveParent r).

Definition SetHistorical (h : bool) (tr : TrieResolver) : TrieResolver :=
  mkTrieResolver (accounts tr) (hashes tr) (requests tr) (resolveHexes tr) (rhIndexLte tr)
    (rhIndexGt tr) (reqIndices tr) (key tr) (value tr) (key_set tr) (nodeStack tr)
    (vertical tr) (fillCount tr) (startLevel tr) (keyIdx tr) h (blockNr tr).

(** [s[:i]].  The slices cut here are read up to their length: no spare
    capacity is assumed behind it. *)
Definition sliceTo {A} (l : list A) (i : Z) : result fault (list A) :=
  if (i <? 0)%Z then Err PanicIndexOutOfRange
  else if (Z.of_nat (length l) <? i)%Z then Err PanicIndexOutOfRange
  else Ok (take (Z.to_nat i) l).

(** [bytes.HasPrefix] *)
Fixpoint hasPrefix (s prefix : bytes) : bool :=
  match prefix, s with
  | [], _ => true
  | p :: prefix', x :: s' => Byte.eqb x p && hasPrefix s' prefix'
  | _ :: _, [] => false
  end.

Definition Len (tr : TrieResolver) : Z := Z.of_nat (length (requests tr)).

Definition min (a b : Z) : Z := if (a <? b)%Z then a else b.

(** The comparison that [Less] makes of two requests. *)
Definition lessRequests (ci cj : ResolveRequest) : result fault bool :=
  let m := min (resolvePos ci) (resolvePos cj) in
  let c := bytesCompare (keyBytes (contract ci)) (keyBytes (contract cj)) in
  if negb (c =? 0)%Z then Ok (c <? 0)%Z
  else
    hi <-- sliceTo (resolveHex ci) m ;;
    hj <-- sliceTo (resolveHex cj) m ;;
    let c := bytesCompare hi hj in
    if negb (c =? 0)%Z then Ok (c <? 0)%Z
    else Ok (resolvePos ci <? resolvePos cj)%Z.

Definition Less (tr : TrieResolver) (i j : Z) : result fault bool :=
  ci <-- at_ (requests tr) i ;;
  cj <-- at_ (requests tr) j ;;
  lessRequests ci cj.

Definition Swap (tr : TrieResolver) (i j : Z) : result fault TrieResolver :=
  ri <-- at_ (requests tr) i ;;
  rj <-- at_ (requests tr) j ;;
  l1 <-- put_ (requests tr) i rj ;;
  l2 <-- put_ l1 j ri ;;
  Ok (set_requests l2 tr).

(** [ResolveHexes] as a [sort.Interface] *)
Definition ResolveHexes_Len (rh : list bytes) : Z := Z.of_nat (length rh).

Definition ResolveHexes_Less (rh : list bytes) (i j : Z) : result fault bool :=
  hi <-- at_ rh i ;;
  hj <-- at_ rh j ;;
  Ok (bytesCompare hi hj <? 0)%Z.

Definition ResolveHexes_Swap (rh : list bytes) (i j : Z) : result fault (list bytes) :=
  hi <-- at_ rh i ;;
  hj <-- at_ rh j ;;
  l1 <-- put_ rh i hj ;;
  put_ l1 j hi.

Definition AddRequest (tr : TrieResolver) (req : ResolveRequest)
  : result fault TrieResolver :=
  let tr1 := set_requests (requests tr ++ [req]) tr in
  match contract req with
  | None => Ok (set_resolveHexes (resolveHexes tr1 ++ [resolveHex req]) tr1)
  | Some c =>
      p <-- sliceTo (keybytesToHex c) 40 ;;
      Ok (set_resolveHexes (resolveHexes tr1 ++ [p ++ resolveHex req]) tr1)
  end.

(** [sort.Sort(tr.resolveHexes)]: the slice in ascending order of
    [bytes.Compare].  The order is total and equal byte strings are alike,
    so the result does not depend on the sorting algorithm. *)
Fixpoint insertHex (h : bytes) (l : list bytes) : list bytes :=
  match l with
  | [] => [h]
  | x :: l' => if (bytesCompare h x <? 0)%Z then h :: l else x :: insertHex h l'
  end.

Definition sortHexes (l : list bytes) : list bytes := fold_right insertHex [] l.

(** [sort.Stable(tr)]: the requests in ascending order of [Less], requests
    that [Less] does not tell apart staying in the order they were in.  A
    request is placed behind those that are not greater than it. *)
Fixpoint insertRequest (r : ResolveRequest) (l : list ResolveRequest)
  : result fault (list ResolveRequest) :=
  match l with
  | [] => Ok [r]
  | x :: l' =>
      lt <-- lessRequests r x ;;
      if lt then Ok (r :: l)
      else
        rest <-- insertRequest r l' ;;
        Ok (x :: rest)
  end.

Definition sortStable (l : list ResolveRequest) : result fault (list ResolveRequest) :=
  fold_left (fun acc r => sorted <-- acc ;; insertRequest r sorted) l (Ok []).

(** The loop that keeps a resolve key unless the next one begins with it. *)
Fixpoint dropPrefixes (hs : list bytes) : list bytes :=
  match hs with
  | [] => []
  | h :: rest =>
      match rest with
      | [] => [h]
      | next :: _ => if hasPrefix next h then dropPrefixes rest else h :: dropPrefixes rest
      end
  end.

(** Whether [req] lies within the request [prevReq] chosen before it: the
    last three tests of the loop over the requests, negated. *)
Definition contained (req prevReq : ResolveRequest) : result fault bool :=
  if (resolvePos req <? resolvePos prevReq)%Z then Ok false
  else if negb (bytes_eqb (keyBytes (contract req)) (keyBytes (contract prevReq)))
  then Ok false
  else
    a <-- sliceTo (resolveHex req) (resolvePos req) ;;
    b <-- sliceTo (resolveHex prevReq) (resolvePos prevReq) ;;
    Ok (hasPrefix a b).

Section Prepare.

(** [decodeNibbles(nibbles, dst)] packs nibbles into the bytes of [dst]; it
    is used as given: the bytes of [dst] afterwards, or a panic. *)
Variable decodeNibbles : bytes -> bytes -> result fault bytes.

(** The loop over the sorted requests, from the request of index [i] on:
    the requests afterwards, the indices chosen, the start keys and the
    numbers of fixed bits. *)
Fixpoint selectRequests (reqs : list ResolveRequest) (i : Z)
    (prevReq : option ResolveRequest)
  : result fault (list ResolveRequest * list Z * list bytes * list N) :=
  match reqs with
  | [] => Ok ([], [], [], [])
  | req :: rest =>
      chosen <-- match prevReq with
                 | None => Ok true
                 | Some p => c <-- contained req p ;; Ok (negb c)
                 end ;;
      if chosen : bool then
        let pLen := Z.of_nat (length (keyBytes (contract req))) in
        nibbles <-- sliceTo (resolveHex req) (resolvePos req) ;;
        tail <-- decodeNibbles nibbles (replicate 32 x00) ;;
        let key := keyBytes (contract req) ++ tail in
        let req' := set_extResolvePos (resolvePos req + 2 * pLen)%Z req in
        '(rs, idx, sk, fb) <-- selectRequests rest (i + 1)%Z (Some req') ;;
        Ok (req' :: rs, i :: idx, key :: sk,
            Z.to_N ((4 * extResolvePos req') mod 2 ^ 64)%Z :: fb)
      else
        '(rs, idx, sk, fb) <-- selectRequests rest (i + 1)%Z prevReq ;;
        Ok (req :: rs, idx, sk, fb)
  end.

(** [PrepareResolveParams]: the resolver afterwards, the start keys and
    the numbers of fixed bits. *)
Definition PrepareResolveParams (tr : TrieResolver)
  : result fault (TrieResolver * list bytes * list N) :=
  match requests tr with
  | [] => Ok (tr, [], [])
  | _ :: _ =>
      sorted <-- sortStable (requests tr) ;;
      let newHexes := dropPrefixes (sortHexes (resolveHexes tr)) in
      '(reqs, idx, startkeys, fixedbits) <-- selectRequests sorted 0 None ;;
      first <-- at_ reqs 0 ;;
      Ok (set_startLevel (extResolvePos first)
            (set_reqIndices (reqIndices tr ++ idx)
               (set_resolveHexes newHexes (set_requests reqs tr))),
          startkeys, fixedbits)
  end.

End Prepare.

End resolver.

(** ** The resolver: what the specification says of it *)

Module resolver_spec.
Import trie resolver.

(** The two arrays of nodes and the array of counts have [Levels + 1]
    entries, and every full node has seventeen slots. *)
Definition wellSized (tr : TrieResolver) : Prop :=
  length (nodeStack tr) = 105%nat /\
  length (vertical tr) = 105%nat /\
  length (fillCount tr) = 105%nat /\
  Forall (fun f => length (Children f) = 17%nat) (vertical tr).


(** The prefix of [level + 1] nibbles of the key [hex] is on a resolving
    path: one of the resolve keys begins with it. *)
Definition onResolvingPath (resolveHexes : list bytes) (hex : bytes) (level : Z) : Prop :=
  exists h, In h resolveHexes /\ take (Z.to_nat (level + 1)) hex `prefix_of` h.


(** What the resolver keeps of its two indices into the sorted resolve
    keys from one key of an ascending sequence to the next: the indices are
    adjacent and no resolve key before [rhIndexGt] is greater than the
    current key.  A new resolver, with indices -1 and 0, is in this state. *)
Definition indicesTrail (tr : TrieResolver) (hex : bytes) : Prop :=
  rhIndexLte tr = (rhIndexGt tr - 1)%Z /\ (0 <= rhIndexGt tr)%Z /\
  (forall i h, (0 <= i < rhIndexGt tr)%Z -> at_ (resolveHexes tr) i = Ok h ->
               bytesCompare hex h <> (-1)%Z).

Definition isHashMismatch (e : error) : bool :=
  match e with
  | ErrWrongHash _ _ | ErrWrongHashEmbedded _ => true
  | _ => false
  end.

(** The RLP of the account with the given nonce and balance, the empty
    root and the empty code hash. *)
Definition fullAccountRLP (nonce : N) (balance : Z) : bytes :=
  RLP.encodeList
    (RLP.encodeUint nonce ++ RLP.encodeString (putint (Z.to_N balance))
       ++ RLP.encodeString accounts.emptyRoot
       ++ RLP.encodeString accounts.emptyCodeHash).

(** The value the resolver is to keep for a raw account value: a single
    byte stands for the empty account; a value shorter than 60 bytes is a
    pair of nonce and balance; a longer one is kept as it is. *)
Definition canonicalAccountValue (v : bytes) : option bytes :=
  if len v =? 1 then Some (fullAccountRLP 0 0)
  else if len v <? 60 then
    match accounts.decodeExtAccount v with
    | Ok e => Some (fullAccountRLP (accounts.ext_Nonce e)
                      (match accounts.ext_Balance e with
                       | Some z => z
                       | None => 0%Z
                       end))
    | Err _ => None
    end
  else Some v.

(** What the folding of levels leaves alone: everything but the stacks,
    the two indices into the resolve keys, and the start level. *)
Definition sameFrame (a b : TrieResolver) : Prop :=
  accounts a = accounts b /\ hashes a = hashes b /\ requests a = requests b /\
  resolveHexes a = resolveHexes b /\ reqIndices a = reqIndices b /\
  key a = key b /\ value a = value b /\ key_set a = key_set b /\
  keyIdx a = keyIdx b.

(** The part of its resolve key that a request fixes. *)
Definition requestPrefix (r : ResolveRequest) : bytes :=
  take (Z.to_nat (resolvePos r)) (resolveHex r).

(** The position of a request lies within its resolve key. *)
Definition validPos (r : ResolveRequest) : Prop :=
  (0 <= resolvePos r <= Z.of_nat (length (resolveHex r)))%Z.

(** The lexicographic order on contract and fixed part of the key. *)
Definition lexBefore (ci cj : ResolveRequest) : bool :=
  let c := bytesCompare (keyBytes (contract ci)) (keyBytes (contract cj)) in
  if negb (c =? 0)%Z then (c <? 0)%Z
  else (bytesCompare (requestPrefix ci) (requestPrefix cj) <? 0)%Z.

(** The nibbles of a byte string, the high nibble of each byte first. *)
Definition nibbles (s : bytes) : bytes :=
  flat_map (fun b => [n2b (b2n b / 16); n2b (b2n b mod 16)]) s.

(** Resolve keys in strictly ascending order, none of which begins with an
    earlier one. *)
Fixpoint separated (l : list bytes) : Prop :=
  match l with
  | [] => True
  | h :: rest =>
      (forall x, In x rest -> bytesCompare h x = (-1)%Z /\ hasPrefix x h = false) /\
      separated rest
  end.

(** Byte strings in ascending order. *)
Fixpoint nondecreasing (l : list bytes) : Prop :=
  match l with
  | [] => True
  | h :: rest =>
      (forall x, In x rest -> bytesCompare h x <> 1%Z) /\ nondecreasing rest
  end.

(** A request and a more specific one for the same trie. *)
Definition exampleGeneral : ResolveRequest :=
  mkResolveRequest (mkTrie NilNode) None [x01; x02; x03] 1 0 None NilNode NilNode.
Definition exampleSpecific : ResolveRequest :=
  mkResolveRequest (mkTrie NilNode) None [x01; x02; x03] 2 0 None NilNode NilNode.

(** The position of a request in the key that begins with its contract. *)
Definition extendedPos (r : ResolveRequest) : Z :=
  (resolvePos r + 2 * Z.of_nat (length (keyBytes (contract r))))%Z.

(** A resolver with two requests, the more specific one added first, and
    what [PrepareResolveParams] makes of it when [decodeNibbles] leaves its
    destination as it is. *)
Definition noNibbles (nibbles dst : bytes) : result fault bytes := Ok dst.

Definition exampleRequests : TrieResolver :=
  set_resolveHexes [[x01; x02; x03]; [x01; x02; x03]]
    (set_requests [exampleSpecific; exampleGeneral] (NewResolver false true 0)).

Definition examplePrepared : TrieResolver * list bytes * list N :=
  match PrepareResolveParams noNibbles exampleRequests with
  | Ok r => r
  | Err _ => (exampleRequests, [], [])
  end.

(** Instances used in examples. *)
Definition constHash (h : bytes) (nd : node) (force : bool) : Z * bytes := (32%Z, h).
Definition asIs (key : bytes) : bytes := key.

Definition exampleRequest : ResolveRequest :=
  mkResolveRequest (mkTrie (HashNode (repeat xbb 32))) None [] 0 0
    (Some (repeat xbb 32)) NilNode NilNode.

(** A resolver in hashes mode for accounts that has seen one key. *)
Definition exampleResolver : TrieResolver :=
  set_key_set true
    (set_key (repeat x12 32) [xc0]
       (mkTrieResolver true true [exampleRequest] [[]] (-1) 0 [0%Z] [] [] false
          (nodeStack (NewResolver true true 0)) (vertical (NewResolver true true 0))
          (fillCount (NewResolver true true 0)) 0 0 false 0)).

(** The example resolver at the end of its key sequence, with a hasher
    that returns the hash the request expects. *)
Definition exampleResolved : TrieResolver :=
  match finishPreviousKey (constHash (repeat xbb 32)) asIs asIs exampleResolver None with
  | Ok (tr', _) => tr'
  | Err _ => exampleResolver
  end.

(** The example resolver when a second key follows, which shares the first
    nibble with the first one. *)
Definition exampleBetween : TrieResolver * option error :=
  match finishPreviousKey (constHash (repeat xaa 32)) asIs asIs exampleResolver
          (Some (repeat x13 32)) with
  | Ok r => r
  | Err _ => (exampleResolver, None)
  end.

(** A fresh resolver for accounts after the first pair of a walk. *)
Definition exampleWalked : TrieResolver :=
  match Walker (constHash (repeat xaa 32)) asIs asIs (NewResolver true true 0) 0
          (repeat x12 32) [xc0] with
  | Ok (tr', _) => tr'
  | Err _ => NewResolver true true 0
  end.

(** A resolver that has folded a single key below level 1: the short
    node of level 1 holds the rest of the key and the value. *)
Definition examplePromoting : TrieResolver :=
  set_stacks
    (<[1%nat := mkShortNode (Some [x02; x10]) (ValueNode [xc0]) true]>
       (nodeStack exampleResolver))
    (vertical exampleResolver)
    (<[1%nat := 1%Z]> (fillCount exampleResolver)) exampleResolver.







End resolver_spec.
(** ** Block proofs: the [ProofGenerator] of [trie/proof_generator.go] *)

Module proofgen.

(** The generator.  A Go map keyed by [string(k)] is a map keyed by the
    bytes of [k]; a map of maps is indexed first by the contract prefix; a
    [map[string]struct{}] is a set.  A hash is a string of 32 bytes, and an
    array of sixteen hashes a list. *)
Record ProofGenerator : Type := mkProofGenerator {
  touches : list bytes;
  proofMasks : gmap bytes N;
  sMasks : gmap bytes (gmap bytes N);
  proofHashes : gmap bytes (list bytes);
  sHashes : gmap bytes (gmap bytes (list bytes));
  soleHashes : gmap bytes bytes;
  sSoleHashes : gmap bytes (gmap bytes bytes);
  createdProofs : gset bytes;
  sCreatedProofs : gmap bytes (gset bytes);
  proofShorts : gmap bytes bytes;
  sShorts : gmap bytes (gmap bytes bytes);
  createdShorts : gset bytes;
  sCreatedShorts : gmap bytes (gset bytes);
  proofValues : gmap bytes bytes;
  sValues : gmap bytes (gmap bytes bytes);
  proofCodes : gmap bytes bytes;
  createdCodes : gmap bytes bytes
}.

Definition NewProofGenerator : ProofGenerator :=
  mkProofGenerator [] ∅ ∅ ∅ ∅ ∅ ∅ ∅ ∅ ∅ ∅ ∅ ∅ ∅ ∅ ∅ ∅.

(** Field updates. *)
Definition set_touches (x : list bytes) (pg : ProofGenerator)
  : ProofGenerator :=
  mkProofGenerator x (proofMasks pg) (sMasks pg) (proofHashes pg) (sHashes pg)
    (soleHashes pg) (sSoleHashes pg) (createdProofs pg) (sCreatedProofs pg) (proofShorts
    pg) (sShorts pg) (createdShorts pg) (sCreatedShorts pg) (proofValues pg) (sValues
    pg) (proofCodes pg) (createdCodes pg).
Definition set_proofMasks (x : gmap bytes N) (pg : ProofGenerator)
  : ProofGenerator :=
  mkProofGenerator (touches pg) x (sMasks pg) (proofHashes pg) (sHashes pg) (soleHashes
    pg) (sSoleHashes pg) (createdProofs pg) (sCreatedProofs pg) (proofShorts pg)
    (sShorts pg) (createdShorts pg) (sCreatedShorts pg) (proofValues pg) (sValues pg)
    (proofCodes pg) (createdCodes pg).
Definition set_sMasks (x : gmap bytes (gmap bytes N)) (pg : ProofGenerator)
  : ProofGenerator :=
  mkProofGenerator (touches pg) (proofMasks pg) x (proofHashes pg) (sHashes pg)
    (soleHashes pg) (sSoleHashes pg) (createdProofs pg) (sCreatedProofs pg) (proofShorts
    pg) (sShorts pg) (createdShorts pg) (sCreatedShorts pg) (proofValues pg) (sValues
    pg) (proofCodes pg) (createdCodes pg).
Definition set_proofHashes (x : gmap bytes (list bytes)) (pg : ProofGenerator)
  : ProofGenerator :=
  mkProofGenerator (touches pg) (proofMasks pg) (sMasks pg) x (sHashes pg) (soleHashes
    pg) (sSoleHashes pg) (createdProofs pg) (sCreatedProofs pg) (proofShorts pg)
    (sShorts pg) (createdShorts pg) (sCreatedShorts pg) (proofValues pg) (sValues pg)
    (proofCodes pg) (createdCodes pg).
Definition set_sHashes (x : gmap bytes (gmap bytes (list bytes))) (pg : ProofGenerator)
  : ProofGenerator :=
  mkProofGenerator (touches pg) (proofMasks pg) (sMasks pg) (proofHashes pg) x
    (soleHashes pg) (sSoleHashes pg) (createdProofs pg) (sCreatedProofs pg) (proofShorts
    pg) (sShorts pg) (createdShorts pg) (sCreatedShorts pg) (proofValues pg) (sValues
    pg) (proofCodes pg) (createdCodes pg).
Definition set_soleHashes (x : gmap bytes bytes) (pg : ProofGenerator)
  : ProofGenerator :=
  mkProofGenerator (touches pg) (proofMasks pg) (sMasks pg) (proofHashes pg) (sHashes
    pg) x (sSoleHashes pg) (createdProofs pg) (sCreatedProofs pg) (proofShorts pg)
    (sShorts pg) (createdShorts pg) (sCreatedShorts pg) (proofValues pg) (sValues pg)
    (proofCodes pg) (createdCodes pg).
Definition set_sSoleHashes (x : gmap bytes (gmap bytes bytes)) (pg : ProofGenerator)
  : ProofGenerator :=
  mkProofGenerator (touches pg) (proofMasks pg) (sMasks pg) (proofHashes pg) (sHashes
    pg) (soleHashes pg) x (createdProofs pg) (sCreatedProofs pg) (proofShorts pg)
    (sShorts pg) (createdShorts pg) (sCreatedShorts pg) (proofValues pg) (sValues pg)
    (proofCodes pg) (createdCodes pg).
Definition set_proofShorts (x : gmap bytes bytes) (pg : ProofGenerator)
  : ProofGenerator :=
  mkProofGenerator (touches pg) (proofMasks pg) (sMasks pg) (proofHashes pg) (sHashes
    pg) (soleHashes pg) (sSoleHashes pg) (createdProofs pg) (sCreatedProofs pg) x
    (sShorts pg) (createdShorts pg) (sCreatedShorts pg) (proofValues pg) (sValues pg)
    (proofCodes pg) (createdCodes pg).
Definition set_sShorts (x : gmap bytes (gmap bytes bytes)) (pg : ProofGenerator)
  : ProofGenerator :=
  mkProofGenerator (touches pg) (proofMasks pg) (sMasks pg) (proofHashes pg) (sHashes
    pg) (soleHashes pg) (sSoleHashes pg) (createdProofs pg) (sCreatedProofs pg)
    (proofShorts pg) x (createdShorts pg) (sCreatedShorts pg) (proofValues pg) (sValues
    pg) (proofCodes pg) (createdCodes pg).
Definition set_proofValues (x : gmap bytes bytes) (pg : ProofGenerator)
  : ProofGenerator :=
  mkProofGenerator (touches pg) (proofMasks pg) (sMasks pg) (proofHashes pg) (sHashes
    pg) (soleHashes pg) (sSoleHashes pg) (createdProofs pg) (sCreatedProofs pg)
    (proofShorts pg) (sShorts pg) (createdShorts pg) (sCreatedShorts pg) x (sValues pg)
    (proofCodes pg) (createdCodes pg).
Definition set_sValues (x : gmap bytes (gmap bytes bytes)) (pg : ProofGenerator)
  : ProofGenerator :=
  mkProofGenerator (touches pg) (proofMasks pg) (sMasks pg) (proofHashes pg) (sHashes
    pg) (soleHashes pg) (sSoleHashes pg) (createdProofs pg) (sCreatedProofs pg)
    (proofShorts pg) (sShorts pg) (createdShorts pg) (sCreatedShorts pg) (proofValues
    pg) x (proofCodes pg) (createdCodes pg).
Definition set_proofCodes (x : gmap bytes bytes) (pg : ProofGenerator)
  : ProofGenerator :=
  mkProofGenerator (touches pg) (proofMasks pg) (sMasks pg) (proofHashes pg) (sHashes
    pg) (soleHashes pg) (sSoleHashes pg) (createdProofs pg) (sCreatedProofs pg)
    (proofShorts pg) (sShorts pg) (createdShorts pg) (sCreatedShorts pg) (proofValues
    pg) (sValues pg) x (createdCodes pg).
Definition set_createdCodes (x : gmap bytes bytes) (pg : ProofGenerator)
  : ProofGenerator :=
  mkProofGenerator (touches pg) (proofMasks pg) (sMasks pg) (proofHashes pg) (sHashes
    pg) (soleHashes pg) (sSoleHashes pg) (createdProofs pg) (sCreatedProofs pg)
    (proofShorts pg) (sShorts pg) (createdShorts pg) (sCreatedShorts pg) (proofValues
    pg) (sValues pg) (proofCodes pg) x.

Inductive fault : Type :=
| PanicMakeSlice
| PanicSliceBounds
| PanicIndexOutOfRange.

(** [common.Hash{}] *)
Definition zeroHash : bytes := repeat x00 32.

(** [var h [16]common.Hash] *)
Definition zeroHashes : list bytes := replicate 16 zeroHash.

(** [k := make([]byte, pos); copy(k, key[:pos])].  The slices cut here are
    read up to their length: no spare capacity is assumed behind it. *)
Definition keyPrefix (key : bytes) (pos : Z) : result fault bytes :=
  if (pos <? 0)%Z then Err PanicMakeSlice
  else if (Z.of_nat (length key) <? pos)%Z then Err PanicSliceBounds
  else Ok (take (Z.to_nat pos) key).

(** [key[i:pos]] *)
Definition slice (key : bytes) (i pos : Z) : result fault bytes :=
  if (i <? 0)%Z || (pos <? i)%Z || (Z.of_nat (length key) <? pos)%Z
  then Err PanicSliceBounds
  else Ok (drop (Z.to_nat i) (take (Z.to_nat pos) key)).

(** [hashes[idx]] *)
Definition index (hashes : list bytes) (idx : nat) : result fault bytes :=
  match hashes !! idx with
  | Some h => Ok h
  | None => Err PanicIndexOutOfRange
  end.

(** The map that a function works on: the generator's own for a nil
    prefix, else the one filed under the prefix, an empty one if there is
    none. *)
Definition mapFor {V} (top : gmap bytes V) (nested : gmap bytes (gmap bytes V))
    (prefix : option bytes) : gmap bytes V :=
  match prefix with
  | None => top
  | Some ps => default ∅ (nested !! ps)
  end.

Definition AddTouch (touch : bytes) (pg : ProofGenerator) : ProofGenerator :=
  set_touches (touches pg ++ [touch]) pg.

Definition ExtractTouches (pg : ProofGenerator) : list bytes * ProofGenerator :=
  (touches pg, set_touches [] pg).

Definition ReadCode (codeHash code : bytes) (pg : ProofGenerator) : ProofGenerator :=
  match createdCodes pg !! codeHash with
  | Some _ => pg
  | None => set_proofCodes (<[codeHash := code]> (proofCodes pg)) pg
  end.

Definition CreateCode (codeHash code : bytes) (pg : ProofGenerator) : ProofGenerator :=
  match createdCodes pg !! codeHash with
  | Some _ => pg
  | None => set_createdCodes (<[codeHash := code]> (createdCodes pg)) pg
  end.

(** An entry is written only where there is none. *)
Definition insertNew {V} (k : bytes) (v : V) (m : gmap bytes V) : gmap bytes V :=
  match m !! k with
  | Some _ => m
  | None => <[k := v]> m
  end.

Definition addSoleHash (prefix : option bytes) (key : bytes) (pos : Z) (hash : bytes)
    (pg : ProofGenerator) : result fault ProofGenerator :=
  let soleHashes_ := mapFor (soleHashes pg) (sSoleHashes pg) prefix in
  k <-- keyPrefix key pos ;;
  let soleHashes' := insertNew k hash soleHashes_ in
  Ok (match prefix with
      | None => set_soleHashes soleHashes' pg
      | Some ps => set_sSoleHashes (<[ps := soleHashes']> (sSoleHashes pg)) pg
      end).

Definition addShort (prefix : option bytes) (key : bytes) (pos : Z) (short : bytes)
    (pg : ProofGenerator) : result fault ProofGenerator :=
  let proofShorts_ := mapFor (proofShorts pg) (sShorts pg) prefix in
  k <-- keyPrefix key pos ;;
  let proofShorts' := insertNew k short proofShorts_ in
  Ok (match prefix with
      | None => set_proofShorts proofShorts' pg
      | Some ps => set_sShorts (<[ps := proofShorts']> (sShorts pg)) pg
      end).

(** The loop of [addValue] that looks for the short key that ends at
    [pos]: [n] rounds from index [i] on. *)
Fixpoint findShort (proofShorts_ : gmap bytes bytes) (key : bytes) (pos : Z)
    (n : nat) (i : Z) : result fault bool :=
  match n with
  | O => Ok false
  | S n' =>
      ki <-- slice key 0 i ;;
      match proofShorts_ !! ki with
      | Some short =>
          rest <-- slice key i pos ;;
          if bytes_eqb short rest then Ok true
          else findShort proofShorts_ key pos n' (i + 1)%Z
      | None => findShort proofShorts_ key pos n' (i + 1)%Z
      end
  end.

Definition addValue (prefix : option bytes) (key : bytes) (pos : Z) (value : bytes)
    (pg : ProofGenerator) : result fault ProofGenerator :=
  let proofShorts_ := mapFor (proofShorts pg) (sShorts pg) prefix in
  found <-- findShort proofShorts_ key pos (Z.to_nat pos) 0 ;;
  if negb found then Ok pg
  else
    let proofValues_ := mapFor (proofValues pg) (sValues pg) prefix in
    k <-- keyPrefix key pos ;;
    let proofValues' := insertNew k value proofValues_ in
    Ok (match prefix with
        | None => set_proofValues proofValues' pg
        | Some ps => set_sValues (<[ps := proofValues']> (sValues pg)) pg
        end).

(** The two loops of [addProof] over the sixteen nibbles, [n] rounds from
    nibble [i] on: the one for a key that has a mask already, and the one
    for a new key. *)
Fixpoint ammendHashes (n : nat) (i : nat) (intersection mask : N)
    (hashes h : list bytes) (idx : nat) : result fault (list bytes) :=
  match n with
  | O => Ok h
  | S n' =>
      h1 <-- (if N.testbit intersection (N.of_nat i)
              then x <-- index hashes idx ;; Ok (<[i := x]> h)
              else Ok (<[i := zeroHash]> h)) ;;
      ammendHashes n' (S i) intersection mask hashes h1
        (if N.testbit mask (N.of_nat i) then S idx else idx)
  end.

Fixpoint freshHashes (n : nat) (i : nat) (mask : N)
    (hashes h : list bytes) (idx : nat) : result fault (list bytes) :=
  match n with
  | O => Ok h
  | S n' =>
      if N.testbit mask (N.of_nat i) then
        x <-- index hashes idx ;;
        freshHashes n' (S i) mask hashes (<[i := x]> h) (S idx)
      else freshHashes n' (S i) mask hashes h idx
  end.

(** [addProof].  Its first loop, over the prefixes of the key, only reads
    the short keys and has no effect. *)
Definition addProof (prefix : option bytes) (key : bytes) (pos : Z) (mask : N)
    (hashes : list bytes) (pg : ProofGenerator) : result fault ProofGenerator :=
  k <-- keyPrefix key pos ;;
  let proofMasks_ := mapFor (proofMasks pg) (sMasks pg) prefix in
  let proofHashes_ := mapFor (proofHashes pg) (sHashes pg) prefix in
  '(m', h') <--
    match proofMasks_ !! k with
    | Some m =>
        let intersection := N.land m mask in
        h <-- ammendHashes 16 0 intersection mask hashes
                (default zeroHashes (proofHashes_ !! k)) 0 ;;
        Ok (intersection, h)
    | None =>
        h <-- freshHashes 16 0 mask hashes zeroHashes 0 ;;
        Ok (mask, h)
    end ;;
  let proofMasks' := <[k := m']> proofMasks_ in
  let proofHashes' := <[k := h']> proofHashes_ in
  Ok (match prefix with
      | None => set_proofHashes proofHashes' (set_proofMasks proofMasks' pg)
      | Some ps =>
          set_sHashes (<[ps := proofHashes']> (sHashes pg))
            (set_sMasks (<[ps := proofMasks']> (sMasks pg)) pg)
      end).

End proofgen.

(** ** Block proofs: what the generator keeps *)

Module proofgen_spec.
Import proofgen.

(** The maps of the generator that a prefix selects. *)
Definition masksOf (pg : ProofGenerator) (prefix : option bytes) : gmap bytes N :=
  mapFor (proofMasks pg) (sMasks pg) prefix.
Definition hashesOf (pg : ProofGenerator) (prefix : option bytes)
  : gmap bytes (list bytes) :=
  mapFor (proofHashes pg) (sHashes pg) prefix.
Definition soleHashesOf (pg : ProofGenerator) (prefix : option bytes)
  : gmap bytes bytes :=
  mapFor (soleHashes pg) (sSoleHashes pg) prefix.
Definition shortsOf (pg : ProofGenerator) (prefix : option bytes) : gmap bytes bytes :=
  mapFor (proofShorts pg) (sShorts pg) prefix.
Definition valuesOf (pg : ProofGenerator) (prefix : option bytes) : gmap bytes bytes :=
  mapFor (proofValues pg) (sValues pg) prefix.

(** The number of bits of [mask] that are set below bit [i]. *)
Fixpoint rank (mask : N) (i : nat) : nat :=
  match i with
  | O => 0
  | S j => rank mask j + (if N.testbit mask (N.of_nat j) then 1 else 0)
  end.

(** The hash that [addProof] leaves in slot [i] of a key whose mask is
    [stored], when called with [mask] and [hashes]. *)
Definition slotHash (stored mask : N) (hashes : list bytes) (i : nat) : bytes :=
  if N.testbit stored (N.of_nat i)
  then default zeroHash (hashes !! rank mask i)
  else zeroHash.

(** Reads and creations of contract code, in the order they happen. *)
Inductive codeEvent : Type :=
| Read (codeHash code : bytes)
| Create (codeHash code : bytes).

Definition runCode (pg : ProofGenerator) (ev : codeEvent) : ProofGenerator :=
  match ev with
  | Read h c => ReadCode h c pg
  | Create h c => CreateCode h c pg
  end.

Definition runCodes (evs : list codeEvent) (pg : ProofGenerator) : ProofGenerator :=
  fold_left runCode evs pg.

Definition addTouches (ts : list bytes) (pg : ProofGenerator) : ProofGenerator :=
  fold_left (fun g t => AddTouch t g) ts pg.

(** A generator that has one proof, for the key prefix 01 with the hashes
    of the children at nibbles 0 and 2. *)
Definition exampleProof : ProofGenerator :=
  match addProof None [x01; x02] 1 5 [repeat xaa 32; repeat xbb 32]
          NewProofGenerator with
  | Ok g => g
  | Err _ => NewProofGenerator
  end.

End proofgen_spec.

(** * Properties *)

(** ** Bytes and big-endian integers *)

Lemma b2n_bound (b : byte) : b2n b < 256.
Proof. unfold b2n. pose proof (Byte.to_N_bounded b). lia. Qed.

Lemma b2n_n2b (n : N) : n < 256 -> b2n (n2b n) = n.
Proof.
  intros Hn. unfold n2b, b2n. rewrite N.mod_small by exact Hn.
  destruct (Byte.of_N n) as [b|] eqn:E.
  - now apply Byte.to_of_N.
  - apply Byte.of_N_None_iff in E. lia.
Qed.

Lemma n2b_b2n (b : byte) : n2b (b2n b) = b.
Proof.
  unfold n2b, b2n. rewrite N.mod_small by apply b2n_bound.
  now rewrite Byte.of_to_N.
Qed.

Lemma b2n_inj (a b : byte) : b2n a = b2n b -> a = b.
Proof. intros H. rewrite <- (n2b_b2n a), <- (n2b_b2n b). now rewrite H. Qed.

Lemma bytes_eqb_eq (x y : bytes) : bytes_eqb x y = true <-> x = y.
Proof.
  revert y. induction x as [|a x IH]; intros [|b y]; simpl; try easy.
  rewrite andb_true_iff, IH. split.
  - intros [Hab ->]. f_equal. now apply Byte.byte_dec_bl.
  - intros [= -> ->]. split; [now apply Byte.byte_dec_lb | reflexivity].
Qed.

Lemma bytes_eqb_refl (x : bytes) : bytes_eqb x x = true.
Proof. now apply bytes_eqb_eq. Qed.

Lemma bytes_eqb_neq (x y : bytes) : bytes_eqb x y = false <-> x <> y.
Proof.
  rewrite <- bytes_eqb_eq. destruct (bytes_eqb x y); split; congruence.
Qed.

Lemma len_app (s t : bytes) : len (s ++ t) = len s + len t.
Proof. unfold len. rewrite length_app. lia. Qed.

Lemma len_cons (b : byte) (s : bytes) : len (b :: s) = 1 + len s.
Proof. unfold len. simpl length. lia. Qed.

Lemma be_val_snoc (s : bytes) (b : byte) : be_val (s ++ [b]) = be_val s * 256 + b2n b.
Proof. unfold be_val. now rewrite fold_left_app. Qed.

Lemma be_val_app (s t : bytes) : be_val (s ++ t) = be_val s * 256 ^ len t + be_val t.
Proof.
  induction t as [|b t IH] using rev_ind.
  - rewrite app_nil_r. unfold len. simpl. change (be_val []) with 0. lia.
  - rewrite app_assoc, !be_val_snoc, IH, len_app.
    change (len [b]) with 1. rewrite N.pow_add_r. lia.
Qed.

Lemma be_val_cons (b : byte) (t : bytes) : be_val (b :: t) = b2n b * 256 ^ len t + be_val t.
Proof.
  change (b :: t) with ([b] ++ t). now rewrite be_val_app.
Qed.

Lemma putint_aux_val (fuel : nat) : forall n acc,
  n < 256 ^ N.of_nat fuel ->
  be_val (putint_aux fuel n acc) = n * 256 ^ len acc + be_val acc.
Proof.
  induction fuel as [|f IH]; intros n acc Hn.
  - simpl in *. assert (n = 0) by lia. subst. simpl. lia.
  - cbn [putint_aux]. destruct (N.eqb_spec n 0) as [->|Hnz]; [lia|].
    rewrite IH.
    + rewrite be_val_cons, len_cons, b2n_n2b by (apply N.mod_lt; lia).
      rewrite N.pow_add_r. change (256 ^ 1) with 256.
      pose proof (N.div_mod n 256). lia.
    + rewrite Nat2N.inj_succ, N.pow_succ_r' in Hn.
      apply N.Div0.div_lt_upper_bound. lia.
Qed.

Lemma size_bound (n : N) : n < 256 ^ N.size n.
Proof.
  pose proof (N.size_gt n) as H.
  eapply N.lt_le_trans; [exact H|].
  apply N.pow_le_mono_l. lia.
Qed.

Lemma be_val_putint (n : N) : be_val (putint n) = n.
Proof.
  unfold putint. rewrite putint_aux_val.
  - unfold len. simpl. change (be_val []) with 0. lia.
  - rewrite N2Nat.id. apply size_bound.
Qed.

Lemma putint_aux_head (fuel : nat) : forall n acc,
  n <> 0 -> fuel <> O -> n < 256 ^ N.of_nat fuel ->
  leading_zero (putint_aux fuel n acc) = false.
Proof.
  induction fuel as [|f IH]; intros n acc Hn Hf Hlt; [easy|].
  cbn [putint_aux]. destruct (N.eqb_spec n 0) as [|_]; [easy|].
  destruct (N.eq_dec (n / 256) 0) as [Hq|Hq].
  - rewrite Hq. destruct f; simpl.
    + rewrite b2n_n2b by (apply N.mod_lt; lia).
      apply N.eqb_neq. pose proof (N.div_mod n 256). lia.
    + rewrite b2n_n2b by (apply N.mod_lt; lia).
      apply N.eqb_neq. pose proof (N.div_mod n 256). lia.
  - apply IH; [exact Hq| |].
    + intros ->. simpl in Hlt. apply Hq. apply N.div_small. lia.
    + rewrite Nat2N.inj_succ, N.pow_succ_r' in Hlt.
      apply N.Div0.div_lt_upper_bound. lia.
Qed.

Lemma putint_no_leading_zero (n : N) : leading_zero (putint n) = false.
Proof.
  unfold putint. destruct (N.eq_dec n 0) as [->|Hn]; [reflexivity|].
  apply putint_aux_head; [exact Hn| |].
  - destruct n; [easy|]. simpl. lia.
  - rewrite N2Nat.id. apply size_bound.
Qed.

Lemma putint_aux_len (fuel : nat) : forall n acc k,
  n < 256 ^ k -> len (putint_aux fuel n acc) <= k + len acc.
Proof.
  induction fuel as [|f IH]; intros n acc k Hn; simpl; [lia|].
  destruct (N.eqb_spec n 0) as [|Hnz]; [lia|].
  destruct (N.eq_dec k 0) as [->|Hk]; [simpl in Hn; lia|].
  specialize (IH (n / 256) (n2b (n mod 256) :: acc) (N.pred k)).
  rewrite len_cons in IH.
  assert (n / 256 < 256 ^ N.pred k).
  { apply N.Div0.div_lt_upper_bound. rewrite <- N.pow_succ_r'.
    now rewrite N.succ_pred by exact Hk. }
  specialize (IH H). lia.
Qed.

Lemma putint_len (n k : N) : n < 256 ^ k -> len (putint n) <= k.
Proof.
  intros H. unfold putint.
  pose proof (putint_aux_len (N.to_nat (N.size n)) n [] k H) as L.
  change (len []) with 0 in L. lia.
Qed.

Lemma putint_0 : putint 0 = [].
Proof. reflexivity. Qed.

Lemma putint_nonzero (n : N) : n <> 0 -> putint n <> [].
Proof.
  intros Hn E. pose proof (be_val_putint n) as V. rewrite E in V.
  change (be_val []) with 0 in V. lia.
Qed.

(** ** RLP: decoding inverts encoding *)

Module RLPFacts.
Import RLP.

Lemma splitN_app (s rest : bytes) : splitN (len s) (s ++ rest) = Ok (s, rest).
Proof.
  unfold splitN. rewrite len_app.
  destruct (N.ltb_spec (len s + len rest) (len s)) as [H|_]; [lia|].
  unfold len. rewrite Nat2N.id.
  now rewrite take_app_length, drop_app_length.
Qed.

Lemma putint_len_pos (n : N) : n <> 0 -> 1 <= len (putint n).
Proof.
  intros Hn. pose proof (putint_nonzero n Hn) as H.
  destruct (putint n); [congruence|]. rewrite len_cons. lia.
Qed.

Lemma readSize_putint (n : N) (rest : bytes) :
  56 <= n -> readSize (len (putint n)) (putint n ++ rest) = Ok (n, rest).
Proof.
  intros Hn. unfold readSize. rewrite splitN_app. cbn [rbind].
  rewrite putint_no_leading_zero, be_val_putint.
  destruct (N.ltb_spec n 56); [lia|reflexivity].
Qed.

(** The header of a payload of fewer than 2^64 bytes: one tag byte, then
    possibly the length. *)
Lemma header_short (base : N) (p : bytes) :
  len p <= 55 -> encodeHeader base p = [n2b (base + len p)].
Proof.
  intros H. unfold encodeHeader.
  destruct (N.leb_spec (len p) 55); [reflexivity|lia].
Qed.

Lemma header_long (base : N) (p : bytes) :
  55 < len p ->
  encodeHeader base p = n2b (base + 55 + len (putint (len p))) :: putint (len p).
Proof.
  intros H. unfold encodeHeader.
  destruct (N.leb_spec (len p) 55); [lia|reflexivity].
Qed.

Lemma long_len_bounds (p : bytes) :
  55 < len p -> len p < 2 ^ 64 ->
  1 <= len (putint (len p)) <= 8.
Proof.
  intros H1 H2. split.
  - apply putint_len_pos. lia.
  - apply putint_len. exact H2.
Qed.

Lemma readItem_header_string (s rest : bytes) :
  len s < 2 ^ 64 ->
  (forall c, s = [c] -> 128 <= b2n c) ->
  readItem (encodeHeader 128 s ++ s ++ rest) = Ok (KString, s, rest).
Proof.
  intros Hlen Hcanon.
  destruct (N.le_gt_cases (len s) 55) as [Hs|Hl].
  - rewrite header_short by exact Hs. cbn [app readItem].
    rewrite b2n_n2b by lia.
    destruct (N.ltb_spec (128 + len s) 128); [lia|].
    destruct (N.ltb_spec (128 + len s) 184); [|lia].
    replace (128 + len s - 128) with (len s) by lia.
    rewrite splitN_app. cbn [rbind].
    destruct s as [|c [|d s']]; try reflexivity.
    specialize (Hcanon c eq_refl).
    destruct (N.ltb_spec (b2n c) 128); [lia|reflexivity].
  - rewrite header_long by exact Hl.
    pose proof (long_len_bounds s Hl Hlen) as [B1 B2].
    cbn [app readItem]. rewrite b2n_n2b by lia.
    set (ll := len (putint (len s))) in *.
    destruct (N.ltb_spec (128 + 55 + ll) 128); [lia|].
    destruct (N.ltb_spec (128 + 55 + ll) 184); [lia|].
    destruct (N.ltb_spec (128 + 55 + ll) 192); [|lia].
    replace (128 + 55 + ll - 183) with ll by lia.
    subst ll.
    rewrite readSize_putint by lia. cbn [rbind].
    rewrite splitN_app. reflexivity.
Qed.

Lemma readItem_encodeString (s rest : bytes) :
  len s < 2 ^ 64 ->
  readItem (encodeString s ++ rest) = Ok (KString, s, rest).
Proof.
  intros Hlen. unfold encodeString.
  destruct s as [|b [|c s']].
  - rewrite <- app_assoc. apply readItem_header_string; [exact Hlen|].
    intros c H; discriminate H.
  - destruct (N.ltb_spec (b2n b) 128) as [Hb|Hb].
    + cbn [app readItem]. destruct (N.ltb_spec (b2n b) 128); [reflexivity|lia].
    + rewrite <- app_assoc. apply readItem_header_string; [exact Hlen|].
      intros c [= <-]. exact Hb.
  - rewrite <- app_assoc. apply readItem_header_string; [exact Hlen|].
    intros c0 H; discriminate H.
Qed.

Lemma readItem_encodeList (p rest : bytes) :
  len p < 2 ^ 64 ->
  readItem (encodeList p ++ rest) = Ok (KList, p, rest).
Proof.
  intros Hlen. unfold encodeList. rewrite <- app_assoc.
  destruct (N.le_gt_cases (len p) 55) as [Hs|Hl].
  - rewrite header_short by exact Hs. cbn [app readItem].
    rewrite b2n_n2b by lia.
    destruct (N.ltb_spec (192 + len p) 128); [lia|].
    destruct (N.ltb_spec (192 + len p) 184); [lia|].
    destruct (N.ltb_spec (192 + len p) 192); [lia|].
    destruct (N.ltb_spec (192 + len p) 248); [|lia].
    replace (192 + len p - 192) with (len p) by lia.
    now rewrite splitN_app.
  - rewrite header_long by exact Hl.
    pose proof (long_len_bounds p Hl Hlen) as [B1 B2].
    cbn [app readItem]. rewrite b2n_n2b by lia.
    set (ll := len (putint (len p))) in *.
    destruct (N.ltb_spec (192 + 55 + ll) 128); [lia|].
    destruct (N.ltb_spec (192 + 55 + ll) 184); [lia|].
    destruct (N.ltb_spec (192 + 55 + ll) 192); [lia|].
    destruct (N.ltb_spec (192 + 55 + ll) 248); [lia|].
    replace (192 + 55 + ll - 247) with ll by lia.
    subst ll.
    rewrite readSize_putint by lia. cbn [rbind].
    now rewrite splitN_app.
Qed.

Lemma encodeString_nonempty (s : bytes) : encodeString s <> [].
Proof.
  unfold encodeString, encodeHeader.
  destruct s as [|b [|c s']]; repeat destruct (_ <? _); repeat destruct (_ <=? _);
    intros H; discriminate H.
Qed.

Lemma readString_encodeString (s rest : bytes) :
  len s < 2 ^ 64 ->
  readString (encodeString s ++ rest) = Ok (s, rest).
Proof.
  intros Hlen. unfold readString.
  destruct (encodeString s ++ rest) eqn:E.
  - apply app_eq_nil in E as [E _]. now apply encodeString_nonempty in E.
  - rewrite <- E, readItem_encodeString by exact Hlen. reflexivity.
Qed.

Lemma decodeUint64_encodeUint (n : N) (rest : bytes) :
  n < 2 ^ 64 ->
  decodeUint64 (encodeUint n ++ rest) = Ok (n, rest).
Proof.
  intros Hn. unfold decodeUint64, encodeUint.
  assert (L : len (putint n) <= 8) by (apply putint_len; exact Hn).
  rewrite readString_encodeString by lia. cbn [rbind].
  destruct (N.ltb_spec 8 (len (putint n))); [lia|].
  now rewrite putint_no_leading_zero, be_val_putint.
Qed.

Lemma decodeBigInt_encodeBigInt (z : Z) (enc rest : bytes) :
  encodeBigInt z = Ok enc ->
  len (putint (Z.to_N z)) < 2 ^ 64 ->
  decodeBigInt (enc ++ rest) = Ok (z, rest).
Proof.
  unfold encodeBigInt, decodeBigInt. intros E Hlen.
  destruct (Z.ltb_spec z 0) as [|Hz]; [discriminate|].
  injection E as <-.
  rewrite readString_encodeString by exact Hlen. cbn [rbind].
  rewrite putint_no_leading_zero, be_val_putint.
  now rewrite Z2N.id by exact Hz.
Qed.

Lemma decodeArray_encodeString (size : N) (s rest : bytes) :
  len s = size -> size < 2 ^ 64 ->
  decodeArray size (encodeString s ++ rest) = Ok (s, rest).
Proof.
  intros Hs Hlt. unfold decodeArray.
  rewrite readString_encodeString by lia. cbn [rbind].
  now rewrite Hs, N.eqb_refl.
Qed.

Lemma decodeStruct_encodeList {A} (fields : bytes -> result error (A * bytes))
    (p : bytes) (a : A) :
  len p < 2 ^ 64 ->
  fields p = Ok (a, []) ->
  decodeStruct fields (encodeList p) = Ok a.
Proof.
  intros Hlen Hf. unfold decodeStruct.
  rewrite <- (app_nil_r (encodeList p)), readItem_encodeList by exact Hlen.
  cbn [rbind]. now rewrite Hf.
Qed.

End RLPFacts.

(** ** Accounts *)

Module accountsFacts.
Import RLP RLPFacts accounts accounts_spec.

Lemma len_header_bounds (base : N) (p : bytes) :
  len p < 2 ^ 64 -> 1 <= len (encodeHeader base p) <= 9.
Proof.
  intros Hp. unfold encodeHeader.
  destruct (N.leb_spec (len p) 55) as [_|Hl].
  - change (len [n2b (base + len p)]) with 1. lia.
  - rewrite len_cons. pose proof (long_len_bounds p Hl Hp). lia.
Qed.

Lemma len_encodeString_bounds (s : bytes) :
  len s < 2 ^ 64 ->
  1 <= len (encodeString s) /\ len s <= len (encodeString s) <= len s + 9.
Proof.
  intros Hs. pose proof (len_header_bounds 128 s Hs) as Hh.
  unfold encodeString. destruct s as [|b [|c s']].
  - rewrite len_app. change (len []) with 0 in *. lia.
  - destruct (b2n b <? 128).
    + change (len [b]) with 1. lia.
    + rewrite len_app. change (len [b]) with 1 in *. lia.
  - rewrite len_app. lia.
Qed.

Lemma len_encodeList_bounds (p : bytes) :
  len p < 2 ^ 64 ->
  1 + len p <= len (encodeList p) <= len p + 9.
Proof.
  intros Hp. pose proof (len_header_bounds 192 p Hp).
  unfold encodeList. rewrite len_app. lia.
Qed.

Lemma len_encodeUint_bounds (n : N) :
  n < 2 ^ 64 -> 1 <= len (encodeUint n) <= 17.
Proof.
  intros Hn. unfold encodeUint.
  pose proof (putint_len n 8 Hn) as L.
  pose proof (len_encodeString_bounds (putint n)). lia.
Qed.

Lemma encodeUint_nonempty (n : N) : encodeUint n <> [].
Proof. apply encodeString_nonempty. Qed.

Lemma len_pos_cons (s : bytes) : 1 <= len s -> exists b t, s = b :: t.
Proof.
  destruct s as [|b t]; [change (len []) with 0; lia|]. eauto.
Qed.

Lemma IsEmptyRoot_nonzero (a : Account) :
  IsEmptyRoot a = true -> Root a <> zeroHash -> Root a = emptyRoot.
Proof.
  unfold IsEmptyRoot. rewrite orb_true_iff, !bytes_eqb_eq. intros [H|H] Hz; congruence.
Qed.

Lemma IsEmptyCodeHash_some (a : Account) (c : bytes) :
  CodeHash a = Some c -> IsEmptyCodeHash a = true -> c = emptyCodeHash.
Proof.
  unfold IsEmptyCodeHash. intros ->. apply bytes_eqb_eq.
Qed.

Lemma setDefaultBalance_some (a : Account) (z : Z) :
  Balance a = Some z -> setDefaultBalance a = a.
Proof. unfold setDefaultBalance. now intros ->. Qed.

Lemma setDefaultCodeHash_some (a : Account) (c : bytes) :
  CodeHash a = Some c -> setDefaultCodeHash a = a.
Proof.
  intros HC. unfold setDefaultCodeHash.
  destruct (IsEmptyCodeHash a) eqn:E; [|reflexivity].
  apply (IsEmptyCodeHash_some a c HC) in E. subst c.
  destruct a; cbn in *. now subst.
Qed.

Lemma setDefaultRoot_nonzero (a : Account) :
  Root a <> zeroHash -> setDefaultRoot a = a.
Proof.
  intros HR. unfold setDefaultRoot.
  destruct (IsEmptyRoot a) eqn:E; [|reflexivity].
  apply IsEmptyRoot_nonzero in E; [|exact HR].
  destruct a; cbn in *. now subst.
Qed.

(** The copy that [Encode] takes of an account in normal form is the
    account itself. *)
Lemma newAccountCopy_normal (a : Account) (z : Z) (c : bytes) :
  Balance a = Some z -> CodeHash a = Some c -> Root a <> zeroHash ->
  newAccountCopy a = Ok a.
Proof.
  intros HB HC HR. unfold newAccountCopy, fill. rewrite HB, HC. cbn [bigSet rbind copyBytes].
  assert (E : mkAccount (Nonce a) (Some z)
                (Root (setDefaultBalance (mkAccount (Nonce newAccount) (Balance newAccount)
                                            (Root a) (Some c) (StorageSize newAccount))))
                (CodeHash (setDefaultBalance (mkAccount (Nonce newAccount) (Balance newAccount)
                                            (Root a) (Some c) (StorageSize newAccount))))
                match StorageSize a with
                | Some s => Some s
                | None => StorageSize (setDefaultBalance (mkAccount (Nonce newAccount)
                             (Balance newAccount) (Root a) (Some c) (StorageSize newAccount)))
                end = a).
  { destruct a as [n b r ch [s|]]; cbn in *; now subst. }
  rewrite E.
  rewrite (setDefaultBalance_some a z HB), (setDefaultCodeHash_some a c HC).
  now rewrite setDefaultRoot_nonzero.
Qed.

Lemma encodeBalance_some (z : Z) :
  (0 <= z)%Z ->
  encodeBalance (Some z) = Ok (encodeString (putint (Z.to_N z))).
Proof.
  intros Hz. unfold encodeBalance, encodeBigInt, liftRlp.
  destruct (Z.ltb_spec z 0); [lia|reflexivity].
Qed.

Lemma decodeBigInt_putint (z : Z) (rest : bytes) :
  (0 <= z)%Z -> len (putint (Z.to_N z)) < 2 ^ 64 ->
  decodeBigInt (encodeString (putint (Z.to_N z)) ++ rest) = Ok (z, rest).
Proof.
  intros Hz Hl. apply decodeBigInt_encodeBigInt; [|exact Hl].
  unfold encodeBigInt. destruct (Z.ltb_spec z 0); [lia|reflexivity].
Qed.

Lemma len_bal_bounds (z : Z) :
  len (putint (Z.to_N z)) < 2 ^ 62 ->
  1 <= len (encodeString (putint (Z.to_N z))) <= len (putint (Z.to_N z)) + 9.
Proof.
  intros H. pose proof (len_encodeString_bounds (putint (Z.to_N z))). lia.
Qed.

Lemma decodeExtAccount_encoded (n : N) (z : Z) :
  n < 2 ^ 64 -> (0 <= z)%Z -> len (putint (Z.to_N z)) < 2 ^ 62 ->
  decodeExtAccount (encodeList (encodeUint n ++ encodeString (putint (Z.to_N z))))
  = Ok (mkExtAccount n (Some z)).
Proof.
  intros Hn Hz Hsize. unfold decodeExtAccount. apply decodeStruct_encodeList.
  - rewrite len_app. pose proof (len_encodeUint_bounds n Hn).
    pose proof (len_bal_bounds z Hsize). lia.
  - rewrite decodeUint64_encodeUint by exact Hn. cbn [rbind].
    rewrite <- (app_nil_r (encodeString _)).
    rewrite decodeBigInt_putint by (try exact Hz; lia). reflexivity.
Qed.

Section Fields.
Variables (n : N) (z : Z) (r c : bytes).
Hypothesis Hn : n < 2 ^ 64.
Hypothesis Hz : (0 <= z)%Z.
Hypothesis Hr : len r = 32.
Hypothesis Hsize : len (putint (Z.to_N z)) + len c < 2 ^ 62.

Let bal := encodeString (putint (Z.to_N z)).

Let four := encodeUint n ++ bal ++ encodeString r ++ encodeString c.

Lemma len_four_bounds : 35 <= len four /\ len four < 2 ^ 63.
Proof.
  subst four. rewrite !len_app.
  pose proof (len_encodeUint_bounds n Hn).
  assert (Hb : len (putint (Z.to_N z)) < 2 ^ 62) by lia.
  pose proof (len_bal_bounds z Hb). fold bal in H0.
  pose proof (len_encodeString_bounds r).
  pose proof (len_encodeString_bounds c). lia.
Qed.

Lemma four_fields (rest : bytes) :
  ('(n', p1) <-- decodeUint64 (four ++ rest) ;;
   '(b, p2) <-- decodeBigInt p1 ;;
   '(r', p3) <-- decodeArray 32 p2 ;;
   '(c', p4) <-- decodeBytes p3 ;;
   Ok (n', b, r', c', p4)) = Ok (n, z, r, c, rest).
Proof.
  subst four. rewrite <- !app_assoc.
  rewrite decodeUint64_encodeUint by exact Hn. cbn [rbind].
  subst bal. rewrite decodeBigInt_putint by (try exact Hz; lia). cbn [rbind].
  rewrite decodeArray_encodeString by (try exact Hr; lia). cbn [rbind].
  unfold decodeBytes. rewrite readString_encodeString by lia. reflexivity.
Qed.

Lemma decodeAccountWithoutStorage_encoded :
  decodeAccountWithoutStorage (encodeList four)
  = Ok (mkAccountWithoutStorage n (Some z) r (Some c)).
Proof.
  unfold decodeAccountWithoutStorage. apply decodeStruct_encodeList.
  - pose proof len_four_bounds. lia.
  - pose proof (four_fields []) as F. rewrite app_nil_r in F.
    destruct (decodeUint64 four) as [[n' p1]|]; [|discriminate F]. cbn [rbind] in *.
    destruct (decodeBigInt p1) as [[b p2]|]; [|discriminate F]. cbn [rbind] in *.
    destruct (decodeArray 32 p2) as [[r' p3]|]; [|discriminate F]. cbn [rbind] in *.
    destruct (decodeBytes p3) as [[c' p4]|]; [|discriminate F]. cbn [rbind] in *.
    now injection F as -> -> -> -> ->.
Qed.

Variable s : N.
Hypothesis Hs : s < 2 ^ 64.

Lemma decodeAccountWithStorage_encoded :
  decodeAccountWithStorage (encodeList (four ++ encodeUint s))
  = Ok (mkAccount n (Some z) r (Some c) (Some s)).
Proof.
  unfold decodeAccountWithStorage. apply decodeStruct_encodeList.
  - rewrite len_app. pose proof len_four_bounds.
    pose proof (len_encodeUint_bounds s Hs). lia.
  - pose proof (four_fields (encodeUint s)) as F.
    destruct (decodeUint64 (four ++ encodeUint s)) as [[n' p1]|]; [|discriminate F].
    cbn [rbind] in *.
    destruct (decodeBigInt p1) as [[b p2]|]; [|discriminate F]. cbn [rbind] in *.
    destruct (decodeArray 32 p2) as [[r' p3]|]; [|discriminate F]. cbn [rbind] in *.
    destruct (decodeBytes p3) as [[c' p4]|]; [|discriminate F]. cbn [rbind] in *.
    injection F as -> -> -> -> ->.
    rewrite <- (app_nil_r (encodeUint s)).
    rewrite decodeUint64_encodeUint by exact Hs. reflexivity.
Qed.

(** Five fields are one too many for the struct without storage size. *)
Lemma decodeAccountWithoutStorage_five :
  decodeAccountWithoutStorage (encodeList (four ++ encodeUint s))
  = Err ErrTooManyElements.
Proof.
  unfold decodeAccountWithoutStorage, decodeStruct.
  rewrite <- (app_nil_r (encodeList _)), readItem_encodeList.
  - cbn [rbind].
    pose proof (four_fields (encodeUint s)) as F.
    destruct (decodeUint64 (four ++ encodeUint s)) as [[n' p1]|]; [|discriminate F].
    cbn [rbind] in *.
    destruct (decodeBigInt p1) as [[b p2]|]; [|discriminate F]. cbn [rbind] in *.
    destruct (decodeArray 32 p2) as [[r' p3]|]; [|discriminate F]. cbn [rbind] in *.
    destruct (decodeBytes p3) as [[c' p4]|]; [|discriminate F]. cbn [rbind] in *.
    injection F as -> -> -> -> ->.
    pose proof (encodeUint_nonempty s).
    destruct (encodeUint s); [contradiction|reflexivity].
  - rewrite len_app. pose proof len_four_bounds.
    pose proof (len_encodeUint_bounds s Hs). lia.
Qed.
End Fields.

Lemma Decode_one_byte (a : Account) (b : byte) :
  Account_Decode a [b]
  = Ok (mkAccount (Nonce a) (Some 0%Z) emptyRoot (Some emptyCodeHash) (StorageSize a)).
Proof. reflexivity. Qed.

Lemma Encode_short_form (a : Account) (ss : bool) (z : Z) :
  IsEmptyCodeHash a && IsEmptyRoot a = true ->
  balanceIsZero a && (Nonce a =? 0) = false ->
  Balance a = Some z -> (0 <= z)%Z ->
  Encode a ss
  = Ok (encodeList (encodeUint (Nonce a) ++ encodeString (putint (Z.to_N z)))).
Proof.
  intros HE HZ HB Hz. unfold Encode. rewrite HE, HZ.
  unfold ext_fill. rewrite HB. cbn [bigSet rbind].
  unfold encodeExtAccount, ext_setDefaultBalance. cbn [ext_Balance ext_Nonce].
  now rewrite encodeBalance_some by exact Hz.
Qed.

Lemma Encode_long_form (a : Account) (ss : bool) (z : Z) (c : bytes) :
  IsEmptyCodeHash a && IsEmptyRoot a = false ->
  Balance a = Some z -> (0 <= z)%Z ->
  CodeHash a = Some c -> Root a <> zeroHash ->
  Encode a ss
  = Ok (encodeList
          ((encodeUint (Nonce a) ++ encodeString (putint (Z.to_N z))
              ++ encodeString (Root a) ++ encodeString c)
           ++ match StorageSize a with
              | Some s => if ss then encodeUint s else []
              | None => []
              end)).
Proof.
  intros HE HB Hz HC HR. unfold Encode. rewrite HE.
  rewrite (newAccountCopy_normal a z c HB HC HR). cbn [rbind].
  destruct ss, (StorageSize a) as [s|] eqn:HS; cbn [negb orb isNil].
  - unfold encodeAccount. rewrite HB, HC, HS, encodeBalance_some by exact Hz.
    cbn [rbind encodeSlice]. now rewrite <- !app_assoc.
  - unfold encodeAccountWithoutStorage. cbn [aws_Nonce aws_Balance aws_Root aws_CodeHash].
    rewrite HB, HC, encodeBalance_some by exact Hz.
    cbn [rbind encodeSlice]. now rewrite app_nil_r.
  - unfold encodeAccountWithoutStorage. cbn [aws_Nonce aws_Balance aws_Root aws_CodeHash].
    rewrite HB, HC, encodeBalance_some by exact Hz.
    cbn [rbind encodeSlice]. now rewrite app_nil_r.
  - unfold encodeAccountWithoutStorage. cbn [aws_Nonce aws_Balance aws_Root aws_CodeHash].
    rewrite HB, HC, encodeBalance_some by exact Hz.
    cbn [rbind encodeSlice]. now rewrite app_nil_r.
Qed.

(** Which branch of [Decode] an input takes. *)
Lemma Decode_short_branch (a : Account) (enc : bytes) :
  2 <= len enc -> len enc < 60 ->
  Account_Decode a enc
  = (extData <-- liftRlp (decodeExtAccount enc) ;; fillFromExtAccount a extData).
Proof.
  intros H2 H60. unfold Account_Decode, accountSizeWithoutData,
    minAccountSizeWithRootAndCodeHash.
  destruct (N.eqb_spec (len enc) 0); [lia|].
  destruct (N.eqb_spec (len enc) 1); [lia|].
  destruct (N.ltb_spec (len enc) 60); [reflexivity|lia].
Qed.

Lemma Decode_long_branch (a : Account) (enc : bytes) :
  60 <= len enc ->
  Account_Decode a enc
  = match decodeAccountWithoutStorage enc with
    | Ok dataWithoutStorage => fillAccountWithoutStorage a dataWithoutStorage
    | Err ErrTooManyElements =>
        dataWithStorage <-- liftRlp (decodeAccountWithStorage enc) ;;
        fill a dataWithStorage
    | Err e => Err (RlpError e)
    end.
Proof.
  intros H60. unfold Account_Decode, accountSizeWithoutData,
    minAccountSizeWithRootAndCodeHash.
  destruct (N.eqb_spec (len enc) 0); [lia|].
  destruct (N.eqb_spec (len enc) 1); [lia|].
  destruct (N.ltb_spec (len enc) 60); [lia|reflexivity].
Qed.

(** C9 (as amended).  For every account whose balance is not nil (or is nil
    with nonce zero, empty root and empty code hash: the one-byte case) and
    not negative, whose root is not the all-zero hash and whose code hash is
    not nil, and whose encoding is shorter than 60 bytes exactly when root
    and code hash are the empty ones: [Encode] succeeds, and [Decode] of its
    bytes into a fresh account succeeds and gives back the nonce, the
    balance (zero for nil), the root and the code hash.  When the nonce and
    the balance are zero and root and code hash are empty, the encoding is
    the single byte 0xC0. *)
Theorem Encode_Decode_roundtrip (a : Account) (enableStorageSize : bool) :
  wellTyped a ->
  (Balance a = None -> Nonce a = 0 /\ IsEmptyCodeHash a && IsEmptyRoot a = true) ->
  (0 <= balanceOrZero a)%Z ->
  Root a <> zeroHash ->
  CodeHash a <> None ->
  lengthTellsForm a enableStorageSize = true ->
  roundTripsUpToNilBalance a enableStorageSize /\
  (IsEmptyCodeHash a && IsEmptyRoot a = true ->
   balanceOrZero a = 0%Z -> Nonce a = 0 ->
   Encode a enableStorageSize = Ok [xc0]).
Proof.
  intros (Hn & Hr & Hs & Hsize) Hnil Hz HR HC HL.
  destruct (CodeHash a) as [c|] eqn:EC; [clear HC|congruence].
  assert (Hc : codeHashBytes a = c) by (unfold codeHashBytes; now rewrite EC).
  rewrite Hc in Hsize.
  unfold lengthTellsForm, encodedLength, minAccountSizeWithRootAndCodeHash in HL.
  unfold roundTripsUpToNilBalance.
  destruct (IsEmptyCodeHash a && IsEmptyRoot a) eqn:HE.
  - (* the short form *)
    apply andb_true_iff in HE as HE'. destruct HE' as [HEc HEr].
    apply (IsEmptyCodeHash_some a c EC) in HEc.
    apply IsEmptyRoot_nonzero in HEr; [|exact HR].
    destruct (balanceIsZero a && (Nonce a =? 0)) eqn:HZ.
    + (* the single byte 0xC0 *)
      assert (HEnc : Encode a enableStorageSize = Ok [xc0])
        by (unfold Encode; now rewrite HE, HZ).
      apply andb_true_iff in HZ as [HZb HZn]. apply N.eqb_eq in HZn.
      assert (HB0 : balanceOrZero a = 0%Z).
      { unfold balanceIsZero in HZb. unfold balanceOrZero.
        destruct (Balance a); [now apply Z.eqb_eq|reflexivity]. }
      split; [|intros; exact HEnc].
      exists [xc0]. eexists. split; [exact HEnc|].
      split; [apply Decode_one_byte|]. cbn. rewrite HZn, HB0, HEr, EC, HEc.
      repeat split.
    + destruct (Balance a) as [z|] eqn:EB.
      2:{ destruct (Hnil eq_refl) as [Hn0 _]. unfold balanceIsZero in HZ.
          rewrite EB, Hn0 in HZ. discriminate HZ. }
      assert (Hz' : (0 <= z)%Z) by (unfold balanceOrZero in Hz; now rewrite EB in Hz).
      assert (Hbz : balanceOrZero a = z) by (unfold balanceOrZero; now rewrite EB).
      rewrite Hbz in *.
      pose proof (Encode_short_form a enableStorageSize z HE HZ EB Hz') as HEnc.
      rewrite HEnc in HL. apply N.ltb_lt in HL.
      split.
      * eexists. eexists. split; [exact HEnc|].
        split.
        { rewrite Decode_short_branch.
          - rewrite (decodeExtAccount_encoded (Nonce a) z Hn Hz') by lia. reflexivity.
          - pose proof (len_encodeUint_bounds (Nonce a) Hn).
            assert (Hb : len (putint (Z.to_N z)) < 2 ^ 62) by lia.
            pose proof (len_bal_bounds z Hb).
            pose proof (len_encodeList_bounds
                          (encodeUint (Nonce a) ++ encodeString (putint (Z.to_N z)))) as B.
            rewrite len_app in B. lia.
          - exact HL. }
        cbn. rewrite HEr, EC, HEc. repeat split.
      * intros _ Hb0 Hn0. unfold balanceIsZero in HZ.
        rewrite EB, Hn0, Hb0 in HZ. discriminate HZ.
  - (* the long form *)
    destruct (Balance a) as [z|] eqn:EB.
    2:{ destruct (Hnil eq_refl) as [_ Hx]. discriminate Hx. }
    assert (Hz' : (0 <= z)%Z) by (unfold balanceOrZero in Hz; now rewrite EB in Hz).
    assert (Hbz : balanceOrZero a = z) by (unfold balanceOrZero; now rewrite EB).
    rewrite Hbz in *.
    pose proof (Encode_long_form a enableStorageSize z c HE EB Hz' EC HR) as HEnc.
    rewrite HEnc in HL. apply N.leb_le in HL.
    split; [|intros Hx; discriminate Hx].
    destruct (StorageSize a) as [s|] eqn:ES; [destruct enableStorageSize|];
      rewrite ?app_nil_r in *;
      eexists; eexists; (split; [exact HEnc|]);
      rewrite Decode_long_branch by exact HL.
    + rewrite (decodeAccountWithoutStorage_five (Nonce a) z (Root a) c Hn Hz' Hr Hsize s
                 (Hs s eq_refl)).
      rewrite (decodeAccountWithStorage_encoded (Nonce a) z (Root a) c Hn Hz' Hr Hsize s
                 (Hs s eq_refl)).
      split; [reflexivity|]. cbn. rewrite EC. repeat split.
    + rewrite (decodeAccountWithoutStorage_encoded (Nonce a) z (Root a) c Hn Hz' Hr Hsize).
      split; [reflexivity|]. cbn. rewrite EC. repeat split.
    + rewrite (decodeAccountWithoutStorage_encoded (Nonce a) z (Root a) c Hn Hz' Hr Hsize).
      split; [reflexivity|]. cbn. rewrite EC. repeat split.
Qed.

(** The account of scenario E2E-5: nonce 1, balance 10, no storage, no code. *)
Lemma Encode_Decode_roundtrip_witness :
  roundTripsUpToNilBalance (mkAccount 1 (Some 10%Z) emptyRoot (Some emptyCodeHash) None) false /\
  (IsEmptyCodeHash (mkAccount 1 (Some 10%Z) emptyRoot (Some emptyCodeHash) None)
   && IsEmptyRoot (mkAccount 1 (Some 10%Z) emptyRoot (Some emptyCodeHash) None) = true ->
   balanceOrZero (mkAccount 1 (Some 10%Z) emptyRoot (Some emptyCodeHash) None) = 0%Z ->
   Nonce (mkAccount 1 (Some 10%Z) emptyRoot (Some emptyCodeHash) None) = 0 ->
   Encode (mkAccount 1 (Some 10%Z) emptyRoot (Some emptyCodeHash) None) false = Ok [xc0]).
Proof.
  apply Encode_Decode_roundtrip.
  - unfold wellTyped. cbn [Nonce Root StorageSize]. repeat split.
    + intros s H. discriminate H.
  - intros H. discriminate H.
  - cbn. lia.
  - apply bytes_eqb_neq. reflexivity.
  - intros H. discriminate H.
  - reflexivity.
Defined.

(** C9 (as stated) fails: an account whose root is the all-zero hash and
    whose code hash is nil is encoded in the short form, and decoding fills
    in the empty root and the empty code hash. *)
Lemma Encode_Decode_not_identity :
  ~ roundTrips (mkAccount 1 (Some 5%Z) zeroHash None None) false.
Proof.
  intros (enc & a' & HE & HD & _ & _ & HRoot & _).
  vm_compute in HE. injection HE as <-.
  vm_compute in HD. injection HD as <-.
  apply bytes_eqb_eq in HRoot. vm_compute in HRoot. discriminate HRoot.
Qed.

(** C10 (as stated) fails: on an account that already has a nonce, the
    method accepts the single byte and leaves the nonce as it was. *)
Lemma Decode_single_byte_keeps_nonce :
  ~ decodesToEmpty (mkAccount 7 None zeroHash None None) xc0.
Proof.
  intros (a' & HD & HN & _).
  rewrite Decode_one_byte in HD. injection HD as <-.
  cbn [Nonce] in HN. discriminate HN.
Qed.

(** C10 (as amended).  The package-level [Decode] returns no account and no
    error for the empty input, and the empty account without error for
    every input of one byte, whatever the byte; the method [Decode] on a
    fresh account accepts every input of one byte and produces the empty
    account: nonce 0, zero balance, empty root and empty code hash.  On any
    other receiver it accepts the byte as well, sets a zero balance, the
    empty root and the empty code hash, and leaves nonce and storage size
    as they were. *)
Theorem Decode_empty_and_single_byte :
  Decode [] = (None, None) /\
  (forall b : byte,
     Decode [b] = (Some (mkAccount 0 (Some 0%Z) emptyRoot (Some emptyCodeHash) None), None)) /\
  (forall b : byte, decodesToEmpty newAccount b) /\
  (forall (a : Account) (b : byte), exists a',
     Account_Decode a [b] = Ok a' /\
     Nonce a' = Nonce a /\ StorageSize a' = StorageSize a /\
     Balance a' = Some 0%Z /\ Root a' = emptyRoot /\
     CodeHash a' = Some emptyCodeHash).
Proof.
  split; [reflexivity|]. split; [intros b; reflexivity|].
  split.
  - intros b. eexists. split; [apply Decode_one_byte|]. repeat split.
  - intros a b. eexists. split; [apply Decode_one_byte|]. repeat split.
Qed.

End accountsFacts.

(** ** CBOR: a head, a text, an integer and the header map are read back *)

Module CBORFacts.
Import CBOR.

Lemma be_fixed_length (w : nat) : forall n, length (be_fixed w n) = w.
Proof.
  induction w as [|w IH]; intros n; [reflexivity|].
  cbn [be_fixed]. rewrite length_app, IH. simpl. lia.
Qed.

Lemma be_val_be_fixed (w : nat) : forall n,
  n < 256 ^ N.of_nat w -> be_val (be_fixed w n) = n.
Proof.
  induction w as [|w IH]; intros n Hn.
  - simpl in Hn. change (be_val (be_fixed 0 n)) with 0. lia.
  - cbn [be_fixed]. rewrite be_val_snoc, b2n_n2b by (apply N.mod_lt; lia).
    rewrite IH.
    + pose proof (N.div_mod n 256). lia.
    + rewrite Nat2N.inj_succ, N.pow_succ_r' in Hn.
      apply N.Div0.div_lt_upper_bound. lia.
Qed.

Lemma readFixed_be_fixed (w : nat) (n : N) (rest : bytes) :
  n < 256 ^ N.of_nat w ->
  readFixed (N.of_nat w) (be_fixed w n ++ rest) = Ok (n, rest).
Proof.
  intros Hn. unfold readFixed. rewrite len_app.
  assert (L : len (be_fixed w n) = N.of_nat w) by (unfold len; now rewrite be_fixed_length).
  rewrite L. destruct (N.ltb_spec (N.of_nat w + len rest) (N.of_nat w)); [lia|].
  rewrite Nat2N.id.
  rewrite <- (be_fixed_length w n) at 1 3.
  rewrite take_app_length, drop_app_length.
  now rewrite be_val_be_fixed.
Qed.

Lemma head_byte (major info : N) :
  major < 8 -> info < 32 ->
  b2n (n2b (major * 32 + info)) / 32 = major /\
  b2n (n2b (major * 32 + info)) mod 32 = info.
Proof.
  intros Hm Hi. rewrite b2n_n2b by lia. split.
  - rewrite N.div_add_l by lia. rewrite N.div_small by lia. lia.
  - rewrite N.add_comm, N.Div0.mod_add. now apply N.mod_small.
Qed.

Lemma decodeHead_encodeHead (major n : N) (rest : bytes) :
  major < 8 -> n < 2 ^ 64 ->
  decodeHead (encodeHead major n ++ rest) = Ok (major, n, rest).
Proof.
  intros Hm Hn. unfold encodeHead.
  destruct (N.ltb_spec n 24) as [H24|H24].
  { cbn [app decodeHead]. destruct (head_byte major n Hm) as [-> ->]; [lia|].
    destruct (N.ltb_spec n 24); [reflexivity|lia]. }
  destruct (N.ltb_spec n (2 ^ 8)) as [H8|H8].
  { cbn [app decodeHead]. destruct (head_byte major 24 Hm) as [-> ->]; [lia|].
    cbn [N.ltb N.eqb N.compare Pos.compare Pos.compare_cont Pos.eqb].
    change 1 with (N.of_nat 1) at 1. now rewrite readFixed_be_fixed. }
  destruct (N.ltb_spec n (2 ^ 16)) as [H16|H16].
  { cbn [app decodeHead]. destruct (head_byte major 25 Hm) as [-> ->]; [lia|].
    cbn [N.ltb N.eqb N.compare Pos.compare Pos.compare_cont Pos.eqb].
    change 2 with (N.of_nat 2) at 1. now rewrite readFixed_be_fixed. }
  destruct (N.ltb_spec n (2 ^ 32)) as [H32|H32].
  { cbn [app decodeHead]. destruct (head_byte major 26 Hm) as [-> ->]; [lia|].
    cbn [N.ltb N.eqb N.compare Pos.compare Pos.compare_cont Pos.eqb].
    change 4 with (N.of_nat 4) at 1. now rewrite readFixed_be_fixed. }
  cbn [app decodeHead]. destruct (head_byte major 27 Hm) as [-> ->]; [lia|].
  cbn [N.ltb N.eqb N.compare Pos.compare Pos.compare_cont Pos.eqb].
  change 8 with (N.of_nat 8) at 1. now rewrite readFixed_be_fixed.
Qed.

Lemma decodeText_encodeText (s : string) (rest : bytes) :
  len (list_byte_of_string s) < 2 ^ 64 ->
  decodeText (encodeText s ++ rest) = Ok (s, rest).
Proof.
  intros Hl. unfold decodeText, encodeText. rewrite <- app_assoc.
  rewrite decodeHead_encodeHead by (try exact Hl; lia). cbn [rbind N.eqb Pos.eqb negb].
  rewrite len_app.
  destruct (N.ltb_spec (len (list_byte_of_string s) + len rest)
              (len (list_byte_of_string s))); [lia|].
  unfold len. rewrite Nat2N.id, take_app_length, drop_app_length.
  now rewrite string_of_list_byte_of_string.
Qed.

Lemma decodeInt_encodeInt (z : Z) (rest : bytes) :
  (- 2 ^ 64 <= z < 2 ^ 64)%Z ->
  decodeInt (encodeInt z ++ rest) = Ok (z, rest).
Proof.
  intros Hz. unfold decodeInt, encodeInt.
  destruct (Z.ltb_spec z 0).
  - rewrite decodeHead_encodeHead by lia. cbn [rbind N.eqb Pos.eqb].
    f_equal. f_equal. lia.
  - rewrite decodeHead_encodeHead by lia. cbn [rbind N.eqb].
    f_equal. f_equal. lia.
Qed.

End CBORFacts.

(** ** The block witness *)

Module trieFacts.
Import trie trie_spec CBORFacts.

(** C6.  The opcodes of the structure tape have the values 0 to 12, in the
    order Leaf, LeafHash, Extension, ExtensionHash, Branch, BranchHash, Hash,
    Code, AccountLeaf, AccountLeafHash, ContractLeaf, ContractLeafHash,
    EmptyRoot. *)
Theorem opcode_values :
  opcode OpLeaf = 0 /\ opcode OpLeafHash = 1 /\
  opcode OpExtension = 2 /\ opcode OpExtensionHash = 3 /\
  opcode OpBranch = 4 /\ opcode OpBranchHash = 5 /\
  opcode OpHash = 6 /\ opcode OpCode = 7 /\
  opcode OpAccountLeaf = 8 /\ opcode OpAccountLeafHash = 9 /\
  opcode OpContractLeaf = 10 /\ opcode OpContractLeafHash = 11 /\
  opcode OpEmptyRoot = 12.
Proof. repeat split. Qed.

(** *** The header *)

Lemma sortedEntries_lens (bwb : BlockWitnessBuilder) :
  CBOR.sortedEntries (lens bwb)
  = [ (CodesTape, ilen (Codes bwb)); (HashesTape, ilen (Hashes bwb));
      (KeysTape, ilen (Keys bwb)); (StructureTape, ilen (Structure bwb));
      (ValuesTape, ilen (Values bwb)) ].
Proof.
  unfold lens. generalize (ilen (Keys bwb)), (ilen (Values bwb)),
    (ilen (Hashes bwb)), (ilen (Codes bwb)), (ilen (Structure bwb)).
  intros k v h c s. vm_compute. reflexivity.
Qed.

Lemma lens_lookup (bwb : BlockWitnessBuilder) :
  lens bwb !! KeysTape = Some (ilen (Keys bwb)) /\
  lens bwb !! ValuesTape = Some (ilen (Values bwb)) /\
  lens bwb !! HashesTape = Some (ilen (Hashes bwb)) /\
  lens bwb !! CodesTape = Some (ilen (Codes bwb)) /\
  lens bwb !! StructureTape = Some (ilen (Structure bwb)) /\
  size (lens bwb) = 5%nat.
Proof.
  unfold lens. generalize (ilen (Keys bwb)), (ilen (Values bwb)),
    (ilen (Hashes bwb)), (ilen (Codes bwb)), (ilen (Structure bwb)).
  intros k v h c s. repeat split; vm_compute; reflexivity.
Qed.

Lemma header_entries (bwb : BlockWitnessBuilder) :
  CBOR.encodeMapCanonical (lens bwb)
  = [xa5]
      ++ CBOR.encodeText CodesTape ++ CBOR.encodeInt (ilen (Codes bwb))
      ++ CBOR.encodeText HashesTape ++ CBOR.encodeInt (ilen (Hashes bwb))
      ++ CBOR.encodeText KeysTape ++ CBOR.encodeInt (ilen (Keys bwb))
      ++ CBOR.encodeText StructureTape ++ CBOR.encodeInt (ilen (Structure bwb))
      ++ CBOR.encodeText ValuesTape ++ CBOR.encodeInt (ilen (Values bwb)).
Proof.
  unfold CBOR.encodeMapCanonical. rewrite sortedEntries_lens.
  cbn [length map concat CBOR.encodeEntry fst snd].
  change (CBOR.encodeHead 5 (N.of_nat 5)) with [xa5].
  unfold CBOR.encodeEntry. cbn [fst snd].
  now rewrite <- !app_assoc, app_nil_r.
Qed.

Lemma ilen_range (s : bytes) : (ilen s < 2 ^ 63 -> - 2 ^ 64 <= ilen s < 2 ^ 64)%Z.
Proof. unfold ilen. lia. Qed.

(** The header is one CBOR item: read from the front of a witness it gives
    the map of the five lengths and leaves the tape bodies. *)
Lemma decodeMap_header (bwb : BlockWitnessBuilder) (rest : bytes) :
  fitsInt bwb ->
  CBOR.decodeMap (CBOR.encodeMapCanonical (lens bwb) ++ rest) = Ok (lens bwb, rest).
Proof.
  intros (Hk & Hv & Hh & Hc & Hs).
  rewrite header_entries. unfold CBOR.decodeMap.
  change ([xa5] ++ ?x) with (xa5 :: x). cbn [app].
  change (CBOR.decodeHead (xa5 :: ?x)) with (@Ok CBOR.error _ (5, 5, x)).
  cbn [rbind N.eqb Pos.eqb negb].
  match goal with |- context [len ?x <? 2 * 5] => assert (L : 10 <= len x) end.
  { rewrite !len_app. change (len (CBOR.encodeText CodesTape)) with 6.
    change (len (CBOR.encodeText HashesTape)) with 7. lia. }
  match goal with |- context [len ?x <? 2 * 5] =>
    destruct (N.ltb_spec (len x) (2 * 5)); [lia|] end.
  change (N.to_nat 5) with 5%nat. cbn [CBOR.decodeEntries].
  rewrite <- !app_assoc.
  repeat (rewrite decodeText_encodeText by (vm_compute; reflexivity); cbn [rbind];
          rewrite decodeInt_encodeInt by (apply ilen_range; assumption); cbn [rbind]).
  match goal with
  | |- Ok (?m, _) = _ => assert (E : m = lens bwb); [|now rewrite E]
  end.
  unfold lens.
  generalize (ilen (Keys bwb)), (ilen (Values bwb)),
    (ilen (Hashes bwb)), (ilen (Codes bwb)), (ilen (Structure bwb)).
  intros k v h c s. vm_compute. reflexivity.
Qed.

(** C5.  [WriteTo] appends to the writer the canonical CBOR map that sends
    each of the five tape names to the number of bytes of its tape, and then
    the five tapes in the order keys, values, hashes, codes, structure.  The
    map is the byte 0xa5 and the five entries with their keys sorted. *)
Theorem WriteTo_layout (bwb : BlockWitnessBuilder) (w : bytes) :
  snd (WriteTo bwb w)
  = w ++ CBOR.encodeMapCanonical (lens bwb)
      ++ Keys bwb ++ Values bwb ++ Hashes bwb ++ Codes bwb ++ Structure bwb /\
  (lens bwb !! "keys" = Some (Z.of_nat (length (Keys bwb))) /\
   lens bwb !! "values" = Some (Z.of_nat (length (Values bwb))) /\
   lens bwb !! "hashes" = Some (Z.of_nat (length (Hashes bwb))) /\
   lens bwb !! "codes" = Some (Z.of_nat (length (Codes bwb))) /\
   lens bwb !! "structure" = Some (Z.of_nat (length (Structure bwb))) /\
   size (lens bwb) = 5%nat) /\
  CBOR.encodeMapCanonical (lens bwb)
  = [xa5]
      ++ CBOR.encodeText "codes" ++ CBOR.encodeInt (Z.of_nat (length (Codes bwb)))
      ++ CBOR.encodeText "hashes" ++ CBOR.encodeInt (Z.of_nat (length (Hashes bwb)))
      ++ CBOR.encodeText "keys" ++ CBOR.encodeInt (Z.of_nat (length (Keys bwb)))
      ++ CBOR.encodeText "structure"
      ++ CBOR.encodeInt (Z.of_nat (length (Structure bwb)))
      ++ CBOR.encodeText "values" ++ CBOR.encodeInt (Z.of_nat (length (Values bwb))).
Proof.
  split; [|split].
  - unfold WriteTo. cbn [snd]. now rewrite <- !app_assoc.
  - apply lens_lookup.
  - apply header_entries.
Qed.

(** A witness with tapes of 1, 2, 0, 3 and 4 bytes, byte by byte: the
    header, whose lengths are in the order of the sorted names (codes 3,
    hashes 0, keys 1, structure 4, values 2), then the tapes. *)
Lemma WriteTo_layout_witness :
  snd (WriteTo exampleTapes [])
  = [xa5;
     x65; x63; x6f; x64; x65; x73; x03;
     x66; x68; x61; x73; x68; x65; x73; x00;
     x64; x6b; x65; x79; x73; x01;
     x69; x73; x74; x72; x75; x63; x74; x75; x72; x65; x04;
     x66; x76; x61; x6c; x75; x65; x73; x02;
     x01; x02; x03; x04; x05; x06; x07; x08; x09; x0a].
Proof.
  destruct (WriteTo_layout exampleTapes []) as (H1 & _ & H3).
  rewrite H1, H3. reflexivity.
Defined.

(** *** The empty trie *)

(** C7 (as amended).  For the empty trie the builder emits nothing: the
    five tapes stay empty, so the serialized witness is the header alone, in
    which all five lengths are 0, and no structure byte follows it.  The
    byte of [OpEmptyRoot], 12, is what [emptyRoot] appends to the structure
    tape.  The root hash of the empty trie is the empty-root constant. *)
Theorem empty_trie_witness (ResolveSet : Type)
    (HashOnly : ResolveSet -> bytes -> bool * ResolveSet)
    (hasher_hash : node -> bool -> bytes) (codeFromHash : bytes -> bytes)
    (rs : ResolveSet) :
  MakeBlockWitness ResolveSet HashOnly hasher_hash codeFromHash
    NewBlockWitnessBuilder (mkTrie NilNode) rs = Ok (NewBlockWitnessBuilder, rs) /\
  snd (WriteTo NewBlockWitnessBuilder []) = zeroHeader /\
  zeroHeader
  = [xa5] ++ CBOR.encodeText "codes" ++ [x00] ++ CBOR.encodeText "hashes" ++ [x00]
      ++ CBOR.encodeText "keys" ++ [x00] ++ CBOR.encodeText "structure" ++ [x00]
      ++ CBOR.encodeText "values" ++ [x00] /\
  Structure (emptyRoot NewBlockWitnessBuilder) = [x0c] /\
  Trie_Hash hasher_hash (mkTrie NilNode) = accounts.emptyRoot.
Proof.
  repeat split.
Qed.

(** C7 (as stated) fails: the witness of the empty trie is not the header
    followed by the byte of [OpEmptyRoot]. *)
Lemma empty_trie_witness_without_EmptyRoot :
  exists st,
    MakeBlockWitness unit (constHashOnly false) constHasher noCode
      NewBlockWitnessBuilder (mkTrie NilNode) tt = Ok st /\
    ~ emptyTrieWitness (snd (WriteTo (fst st) [])).
Proof.
  eexists. split; [reflexivity|].
  unfold emptyTrieWitness. intros H.
  apply (f_equal (@length byte)) in H. vm_compute in H. discriminate H.
Qed.

(** *** Reading a witness back *)

Lemma BlockWitnessToTrie_written (bwb : BlockWitnessBuilder) :
  fitsInt bwb ->
  BlockWitnessToTrie (snd (WriteTo bwb [])) = (None, None, None).
Proof.
  intros Hfit. unfold BlockWitnessToTrie, WriteTo. cbn [snd app].
  rewrite <- !app_assoc. now rewrite decodeMap_header.
Qed.

(** C1 fails on the code: [BlockWitnessToTrie] never returns a trie or a
    code map; on the witness written for the trie of one leaf it returns
    three nils. *)
Theorem BlockWitnessToTrie_returns_nil :
  (forall bw, fst (BlockWitnessToTrie bw) = (None, None)) /\
  exists st,
    MakeBlockWitness unit (constHashOnly false) constHasher noCode
      NewBlockWitnessBuilder (mkTrie exampleLeaf) tt = Ok st /\
    fst st = mkBWB [x43; x00; x01; x10] [x43; x56; x41; x4c] [] [] [x00; x03] /\
    BlockWitnessToTrie (snd (WriteTo (fst st) [])) = (None, None, None).
Proof.
  split.
  - intros bw. unfold BlockWitnessToTrie. now destruct (CBOR.decodeMap bw).
  - eexists. split; [reflexivity|]. split; [reflexivity|].
    apply BlockWitnessToTrie_written. vm_compute. repeat split.
Qed.

(** *** Branch nodes *)

Lemma lor_lt_pow2 (a b n : N) : a < 2 ^ n -> b < 2 ^ n -> N.lor a b < 2 ^ n.
Proof.
  intros Ha Hb.
  destruct (N.eq_dec a 0) as [->|Hna]; [now rewrite N.lor_0_l|].
  destruct (N.eq_dec b 0) as [->|Hnb]; [now rewrite N.lor_0_r|].
  assert (N.lor a b <> 0) by (intros E; apply N.lor_eq_0_iff in E; tauto).
  apply N.log2_lt_pow2; [lia|]. rewrite N.log2_lor.
  apply N.log2_lt_pow2 in Ha, Hb; lia.
Qed.

Lemma u32_small (a : N) : a < 2 ^ 32 -> u32 a = a.
Proof. intros H. unfold u32. now apply N.mod_small. Qed.

Lemma bit_lt_pow2 (i : N) : i < 32 -> N.shiftl 1 i < 2 ^ 32.
Proof.
  intros H. rewrite N.shiftl_1_l. apply N.pow_lt_mono_r; lia.
Qed.

Section BranchFacts.
Variable ResolveSet : Type.
Variable HashOnly : ResolveSet -> bytes -> bool * ResolveSet.
Variable hasher_hash : node -> bool -> bytes.
Variable codeFromHash : bytes -> bytes.

Local Abbreviation mbw := (makeBlockWitness ResolveSet HashOnly hasher_hash codeFromHash).
Local Abbreviation visit' := (visit ResolveSet HashOnly hasher_hash codeFromHash).

Lemma fold_visit_err (hex : bytes) (l : list (N * node)) (e : fault) :
  fold_left (visit' hex) l (Err e) = Err e.
Proof. induction l as [|p l IH]; [reflexivity|exact IH]. Qed.

Lemma rangeChildren_visit (hex : bytes) (cs : list node) :
  forall i st set,
    N.of_nat (length cs) + i <= 32 -> set < 2 ^ 32 ->
    rangeChildren ResolveSet mbw hex cs i st set
    = (s1 <-- fold_left (visit' hex) (occupied cs i) (Ok st) ;;
       Ok (s1, N.lor set (occupancy cs i))).
Proof.
  induction cs as [|c cs IH]; intros i st set Hi Hset.
  - cbn. now rewrite N.lor_0_r.
  - cbn [rangeChildren occupied occupancy]. cbn [length] in Hi.
    destruct (isNilNode c).
    + rewrite IH by lia. now rewrite N.lor_0_l.
    + cbn [fold_left]. unfold visit at 2. cbn [rbind fst snd].
      destruct (mbw c (hex ++ [n2b i]) false st) as [st'|e]; cbn [rbind].
      * assert (Hb : N.shiftl 1 i < 2 ^ 32) by (apply bit_lt_pow2; lia).
        rewrite (u32_small (N.shiftl 1 i)) by exact Hb.
        rewrite u32_small by (apply lor_lt_pow2; assumption).
        rewrite IH by (try (apply lor_lt_pow2; assumption); lia).
        now rewrite N.lor_assoc.
      * now rewrite fold_visit_err.
Qed.

(** C4 (as amended).  At a branch node ([duoNode] or [fullNode]) at prefix
    [hex]: when [rs.HashOnly(hex)] is true the builder puts the hash of the
    node on the Hashes tape and emits the opcode [OpHash] with operand 1,
    touching no other tape and none of the children; when it is false the
    builder runs on each child in index order and then emits [OpBranch]
    with the occupancy bitmap.  [OpBranchHash] is emitted in neither case. *)
Theorem makeBlockWitness_branch (nd : node) (hex : bytes) (force : bool)
    (s : State ResolveSet) (b : bool) (rs' : ResolveSet) :
  isBranch nd = true ->
  wellFormed nd ->
  HashOnly (snd s) hex = (b, rs') ->
  mbw nd hex force s
  = (if b then
       Ok (onBuilder ResolveSet (hash 1)
             (onBuilder ResolveSet
                (supplyHash (hasher_hash nd (hashForce nd hex force))) (fst s, rs')))
     else
       s1 <-- visitChildren ResolveSet HashOnly hasher_hash codeFromHash nd hex (fst s, rs') ;;
       Ok (onBuilder ResolveSet (branch (bitmap nd)) s1)) /\
  (b = true ->
   exists w',
     mbw nd hex force s = Ok (w', rs') /\
     Structure w' = Structure (fst s) ++ [x06; x01] /\
     Hashes w'
     = Hashes (fst s) ++ CBOR.encodeBytes (hasher_hash nd (hashForce nd hex force)) /\
     Keys w' = Keys (fst s) /\ Values w' = Values (fst s) /\ Codes w' = Codes (fst s)) /\
  (b = false ->
   forall s', mbw nd hex force s = Ok s' ->
     exists s1,
       visitChildren ResolveSet HashOnly hasher_hash codeFromHash nd hex (fst s, rs') = Ok s1 /\
       Structure (fst s') = Structure (fst s1) ++ [x04] ++ CBOR.encodeUint (bitmap nd)).
Proof.
  intros Hbr Hwf HHO.
  assert (E : mbw nd hex force s
              = (if b then
                   Ok (onBuilder ResolveSet (hash 1)
                         (onBuilder ResolveSet
                            (supplyHash (hasher_hash nd (hashForce nd hex force)))
                            (fst s, rs')))
                 else
                   s1 <-- visitChildren ResolveSet HashOnly hasher_hash codeFromHash
                            nd hex (fst s, rs') ;;
                   Ok (onBuilder ResolveSet (branch (bitmap nd)) s1))).
  { destruct nd as [| | | mask c1 c2 | cs | |]; try discriminate Hbr.
    - cbn [makeBlockWitness]. unfold queryHashOnly. rewrite HHO.
      destruct b; [reflexivity|].
      unfold visitChildren, children.
      destruct (childrenIdx mask) as [i1 i2]. cbn [fst snd fold_left bitmap].
      unfold visit. cbn [rbind fst snd].
      destruct (mbw c1 (hex ++ [n2b i1]) false (fst s, rs')) as [s1|e]; cbn [rbind];
        [|reflexivity].
      destruct (mbw c2 (hex ++ [n2b i2]) false s1) as [s2|e]; reflexivity.
    - cbn [makeBlockWitness]. unfold queryHashOnly. rewrite HHO.
      destruct b; [reflexivity|].
      cbn in Hwf.
      rewrite rangeChildren_visit by (try rewrite Hwf; cbn; lia).
      unfold visitChildren, children. cbn [bitmap]. rewrite N.lor_0_l.
      destruct (fold_left _ (occupied cs 0) _) as [s1|e]; reflexivity. }
  split; [exact E|]. split.
  - intros ->. eexists. split; [rewrite E; reflexivity|].
    cbn. rewrite <- app_assoc. repeat split.
  - intros -> s' Hs'. rewrite E in Hs'.
    destruct (visitChildren ResolveSet HashOnly hasher_hash codeFromHash nd hex
                (fst s, rs')) as [s1|e]; cbn [rbind] in Hs'; [|discriminate Hs'].
    injection Hs' as <-. exists s1. split; [reflexivity|].
    cbn. now rewrite <- app_assoc.
Qed.
End BranchFacts.

(** At the two-child branch of the examples, under a resolve set that
    answers every query with [true]. *)
Lemma makeBlockWitness_branch_witness :
  makeBlockWitness unit (constHashOnly true) constHasher noCode exampleDuo [] true
    (NewBlockWitnessBuilder, tt)
  = Ok (mkBWB [] [] (CBOR.encodeBytes (repeat xaa 32)) [] [x06; x01], tt).
Proof.
  destruct (makeBlockWitness_branch unit (constHashOnly true) constHasher noCode
              exampleDuo [] true (NewBlockWitnessBuilder, tt) true tt
              eq_refl I eq_refl) as [E _].
  rewrite E. reflexivity.
Defined.

(** C4 (as stated) fails: at a hash-only branch the structure tape does not
    receive [OpBranchHash] and the bitmap. *)
Lemma hash_only_branch_without_BranchHash :
  exists st,
    makeBlockWitness unit (constHashOnly true) constHasher noCode exampleDuo [] true
      (NewBlockWitnessBuilder, tt) = Ok st /\
    ~ emitsBranchHash NewBlockWitnessBuilder (fst st) (bitmap exampleDuo).
Proof.
  eexists. split; [reflexivity|].
  unfold emitsBranchHash. cbn. intros H. discriminate H.
Qed.

End trieFacts.

(** ** The resolver *)

Module resolverFacts.
Import trie resolver resolver_spec.

(** Inversion of a computation that returned. *)
Ltac inv_ok H :=
  repeat match type of H with
    | rbind ?x _ = Ok _ =>
        let E := fresh "E" in
        destruct x eqn:E; cbn [rbind] in H; [|discriminate H]
    | (let '(_, _) := ?x in _) = Ok _ =>
        let E := fresh "E" in destruct x eqn:E
    | (if ?c then _ else _) = Ok _ =>
        let E := fresh "E" in destruct c eqn:E
    | Err _ = Ok _ => discriminate H
    end.

Lemma at_put {A} (l l' : list A) (i : Z) (x : A) :
  put_ l i x = Ok l' -> at_ l' i = Ok x /\ length l' = length l.
Proof.
  unfold put_, at_. intros H.
  destruct (Z.ltb_spec i 0); [discriminate H|].
  destruct (Z.leb_spec (Z.of_nat (length l)) i); [discriminate H|].
  injection H as <-. rewrite length_insert. split; [|reflexivity].
  rewrite list_lookup_insert_eq by lia. reflexivity.
Qed.

Lemma at_put_ne {A} (l l' : list A) (i j : Z) (x : A) :
  put_ l i x = Ok l' -> i <> j -> at_ l' j = at_ l j.
Proof.
  unfold put_, at_. intros H Hij.
  destruct (Z.ltb_spec i 0); [discriminate H|].
  destruct (Z.leb_spec (Z.of_nat (length l)) i); [discriminate H|].
  injection H as <-. destruct (Z.ltb_spec j 0); [reflexivity|].
  rewrite list_lookup_insert_ne by lia. reflexivity.
Qed.

Lemma put_in_range {A} (l : list A) (i : Z) (x : A) :
  (0 <= i < Z.of_nat (length l))%Z -> exists l', put_ l i x = Ok l'.
Proof.
  intros H. unfold put_.
  destruct (Z.ltb_spec i 0); [lia|].
  destruct (Z.leb_spec (Z.of_nat (length l)) i); [lia|]. eauto.
Qed.

Lemma at_in_range {A} (l : list A) (i : Z) :
  (0 <= i < Z.of_nat (length l))%Z -> exists x, at_ l i = Ok x.
Proof.
  intros H. unfold at_. destruct (Z.ltb_spec i 0); [lia|].
  destruct (l !! Z.to_nat i) eqn:E; [eauto|].
  apply lookup_ge_None in E. lia.
Qed.

Lemma at_Forall {A} (P : A -> Prop) (l : list A) (i : Z) (x : A) :
  Forall P l -> at_ l i = Ok x -> P x.
Proof.
  unfold at_. intros HF H. destruct (i <? 0)%Z; [discriminate H|].
  destruct (l !! Z.to_nat i) eqn:E; [|discriminate H]. injection H as <-.
  eapply Forall_lookup_1; eassumption.
Qed.

Section ResolverFacts.
Variable hasher_hash : node -> bool -> Z * bytes.
Variable hexToCompact : bytes -> bytes.
Variable compactToHex : bytes -> bytes.

Local Abbreviation finishLevel' := (finishLevel hasher_hash hexToCompact compactToHex).
Local Abbreviation finishLoop' := (finishLoop hasher_hash hexToCompact compactToHex).
Local Abbreviation finishLevels' := (finishLevels hasher_hash hexToCompact compactToHex).
Local Abbreviation finishRequest' := (finishRequest hasher_hash).
Local Abbreviation finishPreviousKey' :=
  (finishPreviousKey hasher_hash hexToCompact compactToHex).
Local Abbreviation Walker' := (Walker hasher_hash hexToCompact compactToHex).

Lemma sameFrame_refl (a : TrieResolver) : sameFrame a a.
Proof. repeat split. Qed.

Lemma sameFrame_trans (a b c : TrieResolver) :
  sameFrame a b -> sameFrame b c -> sameFrame a c.
Proof.
  unfold sameFrame. intros (?&?&?&?&?&?&?&?&?) (?&?&?&?&?&?&?&?&?).
  repeat split; congruence.
Qed.

Lemma resetLevel_frame (l : Z) (tr tr' : TrieResolver) :
  resetLevel l tr = Ok tr' -> sameFrame tr' tr.
Proof.
  unfold resetLevel. intros H. inv_ok H. injection H as <-. repeat split.
Qed.

Lemma finishLevel_frame req hex rh level (tr tr' : TrieResolver) :
  finishLevel' req hex rh level tr = Ok tr' -> sameFrame tr' tr.
Proof.
  unfold finishLevel. intros H. inv_ok H;
    try (apply resetLevel_frame in H; eapply sameFrame_trans; [exact H|]);
    try (injection H as <-); repeat split.
Qed.

Lemma finishLoop_frame req hex rh (count : nat) :
  forall level tr tr', finishLoop' req hex rh count level tr = Ok tr' -> sameFrame tr' tr.
Proof.
  induction count as [|c IH]; intros level tr tr' H; cbn [finishLoop] in H.
  - injection H as <-. apply sameFrame_refl.
  - inv_ok H. apply IH in H. apply finishLevel_frame in E.
    eapply sameFrame_trans; eassumption.
Qed.

Lemma finishLevels_frame (tr tr' : TrieResolver) (k : option bytes) :
  finishLevels' tr k = Ok tr' -> sameFrame tr' tr.
Proof.
  unfold finishLevels. intros H. inv_ok H.
  all: injection H as <-.
  all: match goal with
       | Hl : finishLoop _ _ _ _ _ _ _ _ _ = Ok _ |- _ => apply finishLoop_frame in Hl
       end.
  all: eapply sameFrame_trans; [|eassumption].
  all: repeat split.
Qed.








(** C2.  At the end of the stream of a request ([curr == nil]), when the
    root the resolver has built does not hash to the hash the request
    expects, [finishPreviousKey] returns a hash-mismatch error, and every
    request is as it was: [resolved] is not set, and nothing is written to
    the root of the trie or to the parent node. *)
Theorem finishPreviousKey_hash_mismatch (tr tr1 : TrieResolver) (i : Z)
    (req : ResolveRequest) (root_ : node) (hashLen : Z) (got h : bytes) :
  finishLevels' tr None = Ok tr1 ->
  currentRequest tr1 = Ok (i, req) ->
  builtRoot tr1 req = Ok root_ ->
  isNilNode root_ = false ->
  hasher_hash root_ (resolvePos req =? 0)%Z = (hashLen, got) ->
  resolveHash req = Some h ->
  (hashLen = 32%Z -> h <> got) ->
  exists e,
    finishPreviousKey' tr None = Ok (tr1, Some e) /\
    isHashMismatch e = true /\
    requests tr1 = requests tr.
Proof.
  intros Hlevels Hreq Hroot Hnil Hhash Hexp Hne.
  pose proof (finishLevels_frame _ _ _ Hlevels) as (_ & _ & Hreqs & _).
  unfold finishPreviousKey. rewrite Hlevels. cbn [rbind].
  unfold finishRequest. rewrite Hreq. cbn [rbind]. rewrite Hroot. cbn [rbind].
  rewrite Hnil, Hhash, Hexp. cbn [keyBytes].
  destruct (Z.eqb_spec hashLen 32) as [H32|_].
  - apply Hne, bytes_eqb_neq in H32. rewrite H32.
    eexists. split; [reflexivity|]. split; [reflexivity|exact Hreqs].
  - eexists. split; [reflexivity|]. split; [reflexivity|exact Hreqs].
Qed.

(** *** [Walker] *)

Lemma finishRequest_accounts (tr tr' : TrieResolver) (e : option error) :
  finishRequest' tr = Ok (tr', e) -> accounts tr' = accounts tr.
Proof.
  unfold finishRequest. intros H.
  destruct (currentRequest tr) as [[i req]|]; cbn [rbind] in H; [|discriminate H].
  destruct (builtRoot tr req) as [root_|]; cbn [rbind] in H; [|discriminate H].
  destruct (isNilNode root_); [injection H; intros; subst; reflexivity|].
  destruct (hasher_hash root_ (resolvePos req =? 0)%Z) as [hashLen got].
  destruct (hashLen =? 32)%Z;
    [destruct (bytes_eqb (keyBytes (resolveHash req)) got)|destruct (resolveHash req)];
    try (injection H; intros; subst; reflexivity);
    inv_ok H; injection H; intros; subst; reflexivity.
Qed.

Lemma finishPreviousKey_accounts (tr tr' : TrieResolver) (k : option bytes)
    (e : option error) :
  finishPreviousKey' tr k = Ok (tr', e) -> accounts tr' = accounts tr.
Proof.
  unfold finishPreviousKey. intros H.
  destruct (finishLevels' tr k) as [tr1|] eqn:E; cbn [rbind] in H; [|discriminate H].
  apply finishLevels_frame in E as (Ha & _).
  destruct k as [kb|].
  - injection H; intros; subst. exact Ha.
  - apply finishRequest_accounts in H. congruence.
Qed.


Lemma decodeExtAccount_shape (v : bytes) (e : accounts.ExtAccount) :
  accounts.decodeExtAccount v = Ok e ->
  exists n z, e = accounts.mkExtAccount n (Some z) /\ (0 <= z)%Z.
Proof.
  unfold accounts.decodeExtAccount, RLP.decodeStruct. intros H.
  destruct (RLP.readItem v) as [[[kd payload] rest]|]; cbn [rbind] in H;
    [|discriminate H].
  destruct kd; [discriminate H|].
  destruct (RLP.decodeUint64 payload) as [[n p1]|]; cbn [rbind] in H; [|discriminate H].
  unfold RLP.decodeBigInt in H.
  destruct (RLP.readString p1) as [[s p2]|]; cbn [rbind] in H; [|discriminate H].
  destruct (leading_zero s); [discriminate H|]. cbn [rbind] in H.
  destruct p2; [|discriminate H]. destruct rest; [|discriminate H].
  injection H as <-. exists n, (Z.of_N (be_val s)). split; [reflexivity|lia].
Qed.

Lemma encode_full_account (n : N) (z : Z) :
  (0 <= z)%Z ->
  accounts.encodeAccountWithoutStorage
    (accounts.mkAccountWithoutStorage n (Some z) accounts.emptyRoot
       (Some accounts.emptyCodeHash))
  = Ok (fullAccountRLP n z).
Proof.
  intros Hz. unfold accounts.encodeAccountWithoutStorage.
  cbn [accounts.aws_Nonce accounts.aws_Balance accounts.aws_Root accounts.aws_CodeHash].
  rewrite accountsFacts.encodeBalance_some by exact Hz. reflexivity.
Qed.

Lemma canonical_cases (v : bytes) :
  v <> [] ->
  (0 <? Z.of_nat (length v))%Z = true /\
  (Z.of_nat (length v) =? 1)%Z = (len v =? 1) /\
  (Z.of_nat (length v) <? 60)%Z = (len v <? 60).
Proof.
  intros Hv. unfold len. destruct v as [|b v']; [congruence|]. cbn [length].
  split; [apply Z.ltb_lt; lia|]. split.
  - destruct (Z.eqb_spec (Z.of_nat (S (length v'))) 1), (N.eqb_spec (N.of_nat (S (length v'))) 1);
      try reflexivity; lia.
  - destruct (Z.ltb_spec (Z.of_nat (S (length v'))) 60),
      (N.ltb_spec (N.of_nat (S (length v'))) 60); try reflexivity; lia.
Qed.

(** The statements of [Walker] after the previous key is finished, for a
    resolver for accounts: the value kept is the canonical one. *)
Lemma remember_account (tr2 : TrieResolver) (k v : bytes) :
  accounts tr2 = true -> v <> [] -> (32 <= length k)%nat ->
  (let tr3 := set_key (take (Z.to_nat 32) k) (value tr2) tr2 in
   if accounts tr3 then
     if (Z.of_nat (length v) =? 1)%Z then
       match accounts.encodeAccountWithoutStorage
               (accounts.mkAccountWithoutStorage 0 (Some 0%Z)
                  accounts.emptyRoot (Some accounts.emptyCodeHash)) with
       | Ok enc => Ok (set_key_set true (set_key (key tr3) enc tr3), (true, None))
       | Err e => Ok (tr3, (false, Some (ErrRlp e)))
       end
     else if (Z.of_nat (length v) <? 60)%Z then
       match accounts.decodeExtAccount v with
       | Err e => Ok (tr3, (false, Some (ErrRlp (accounts.RlpError e))))
       | Ok extData =>
           match accounts.encodeAccountWithoutStorage
                   (accounts.mkAccountWithoutStorage
                      (accounts.ext_Nonce extData)
                      (accounts.ext_Balance extData)
                      accounts.emptyRoot (Some accounts.emptyCodeHash)) with
           | Ok enc =>
               Ok (set_key_set true (set_key (key tr3) enc tr3), (true, None))
           | Err e => Ok (tr3, (false, Some (ErrRlp e)))
           end
       end
     else Ok (set_key_set true (set_key (key tr3) v tr3), (true, None))
   else Ok (set_key_set true (set_key (key tr3) v tr3), (true, None)))
  = match canonicalAccountValue v with
    | Some c =>
        @Ok fault _ (set_key_set true (set_key (take 32 k) c tr2), (true, None))
    | None =>
        Ok (set_key (take 32 k) (value tr2) tr2,
            (false,
             match accounts.decodeExtAccount v with
             | Err e => Some (ErrRlp (accounts.RlpError e))
             | Ok _ => Some ErrNilRoot
             end))
    end.
Proof.
  intros Hacc Hv Hk. cbn zeta. cbn [accounts set_key]. rewrite Hacc.
  destruct (canonical_cases v Hv) as (_ & -> & ->).
  unfold canonicalAccountValue.
  destruct (len v =? 1).
  - rewrite (encode_full_account 0 0) by lia. reflexivity.
  - destruct (len v <? 60); [|reflexivity].
    destruct (accounts.decodeExtAccount v) as [e|err] eqn:E; [|reflexivity].
    destruct (decodeExtAccount_shape v e E) as (n & z & -> & Hz).
    cbn [accounts.ext_Nonce accounts.ext_Balance].
    rewrite (encode_full_account n z) by exact Hz. reflexivity.
Qed.


Lemma Walker_first_phase (tr tr1 : TrieResolver) (keyIdx_ : Z) (e : option error) :
  (if negb (keyIdx_ =? keyIdx tr)%Z then
     r <-- (if key_set tr then
              '(tr', err) <-- finishPreviousKey' tr None ;;
              match err with
              | Some e => Ok (tr', Some e)
              | None => Ok (set_key_set false tr', None)
              end
            else Ok (tr, None)) ;;
     match r with
     | (tr', Some e) => Ok (tr', Some e)
     | (tr', None) => Ok (set_keyIdx keyIdx_ tr', None)
     end
   else Ok (tr, None)) = Ok (tr1, e) ->
  accounts tr1 = accounts tr /\
  (key_set tr = false -> e = None /\ key_set tr1 = false).
Proof.
  intros H. destruct (negb (keyIdx_ =? keyIdx tr)%Z).
  - destruct (key_set tr) eqn:Hks.
    + destruct (finishPreviousKey' tr None) as [[tr' [err|]]|] eqn:E;
        cbn [rbind] in H; try discriminate H.
      * injection H; intros; subst. split; [|intros; discriminate].
        eapply finishPreviousKey_accounts; eassumption.
      * injection H; intros; subst. split; [|intros; discriminate].
        cbn. eapply finishPreviousKey_accounts; eassumption.
    + cbn [rbind] in H. injection H; intros; subst. split; [reflexivity|].
      intros _. split; [reflexivity|exact Hks].
  - injection H; intros; subst. split; [reflexivity|]. intros Hks. split; [reflexivity|exact Hks].
Qed.

(** C3.  In account mode [Walker] keeps, for a raw value that is not
    empty, the canonical full account RLP: for a value of one byte the RLP
    of the account with nonce 0, zero balance, the empty root and the empty
    code hash; for a value shorter than 60 bytes the RLP of the nonce and
    balance decoded from it, with the empty root and the empty code hash;
    a longer value as it is.  Whenever [Walker] accepts the pair, the value
    it has stored is that one; and on the first key of a walk it accepts
    every pair whose value has a canonical form. *)
Theorem Walker_normalizes_account_value (tr : TrieResolver) (keyIdx_ : Z) (k v : bytes) :
  accounts tr = true ->
  v <> [] ->
  (forall tr',
     Walker' tr keyIdx_ k v = Ok (tr', (true, None)) ->
     canonicalAccountValue v = Some (value tr') /\
     key tr' = take 32 k /\ key_set tr' = true) /\
  (key_set tr = false -> (32 <= length k)%nat ->
   forall c, canonicalAccountValue v = Some c ->
     exists tr', Walker' tr keyIdx_ k v = Ok (tr', (true, None)) /\ value tr' = c).
Proof.
  intros Hacc Hv. destruct (canonical_cases v Hv) as (Hpos & _ & _). split.
  - intros tr' H. unfold Walker in H.
    match type of H with
    | rbind ?x _ = _ => destruct x as [[tr1 [e1|]]|] eqn:E1
    end; cbn [rbind] in H; try discriminate H.
    apply Walker_first_phase in E1 as [Hacc1 _].
    rewrite Hpos in H.
    match type of H with
    | rbind ?x _ = _ => destruct x as [[tr2 [e2|]]|] eqn:E2
    end; cbn [rbind] in H; try discriminate H.
    assert (Hacc2 : accounts tr2 = true).
    { destruct (key_set tr1).
      - apply finishPreviousKey_accounts in E2. congruence.
      - injection E2; intros; subst. congruence. }
    lazy zeta in H. rewrite Hacc2 in H. lazy beta iota in H.
    destruct (Z.ltb_spec (Z.of_nat (length k)) 32) as [|Hk]; [discriminate H|].
    pose proof (remember_account tr2 k v Hacc2 Hv ltac:(lia)) as R.
    lazy beta iota zeta in R. rewrite R in H. clear R.
    destruct (canonicalAccountValue v) as [c|].
    + injection H as <-. repeat split.
    + discriminate H.
  - intros Hks Hk c Hc. unfold Walker.
    match goal with
    | |- context [rbind ?x _] =>
        match x with
        | (if negb _ then _ else _) => destruct x as [[tr1 [e1|]]|] eqn:E1
        end
    end.
    + apply Walker_first_phase in E1 as [_ E]. destruct (E Hks) as [E' _]. discriminate E'.
    + apply Walker_first_phase in E1 as [Hacc1 E]. destruct (E Hks) as [_ Hks1].
      cbn [rbind]. rewrite Hpos, Hks1. cbn [rbind]. lazy zeta.
      assert (Hacc2 : accounts tr1 = true) by congruence. rewrite Hacc2.
      lazy beta iota.
      destruct (Z.ltb_spec (Z.of_nat (length k)) 32) as [|_]; [lia|].
      pose proof (remember_account tr1 k v Hacc2 Hv Hk) as R.
      lazy beta iota zeta in R. rewrite R, Hc. eexists. split; reflexivity.
    + exfalso. rewrite Hks in E1.
      destruct (negb (keyIdx_ =? keyIdx tr)%Z); cbn [rbind] in E1; discriminate E1.
Qed.

End ResolverFacts.

(** The request of the example expects the hash bb..bb and the hasher
    returns aa..aa. *)
Lemma finishPreviousKey_hash_mismatch_witness :
  exists tr1 e,
    finishPreviousKey (constHash (repeat xaa 32)) asIs asIs exampleResolver None
    = Ok (tr1, Some e) /\
    isHashMismatch e = true /\
    requests tr1 = requests exampleResolver.
Proof.
  edestruct (finishPreviousKey_hash_mismatch (constHash (repeat xaa 32)) asIs asIs
               exampleResolver) as (e & H1 & H2 & H3).
  - vm_compute. reflexivity.
  - vm_compute. reflexivity.
  - vm_compute. reflexivity.
  - reflexivity.
  - reflexivity.
  - reflexivity.
  - intros _. apply bytes_eqb_neq. vm_compute. reflexivity.
  - eexists. exists e. split; [exact H1|]. split; [exact H2|exact H3].
Defined.

(** The first pair of a walk over accounts, with a value of one byte. *)
Lemma Walker_normalizes_account_value_witness :
  exists tr',
    Walker (constHash (repeat xaa 32)) asIs asIs (NewResolver true true 0) 0
      (repeat x12 32) [xc0] = Ok (tr', (true, None)) /\
    value tr' = fullAccountRLP 0 0.
Proof.
  destruct (Walker_normalizes_account_value (constHash (repeat xaa 32)) asIs asIs
              (NewResolver true true 0) 0 (repeat x12 32) [xc0]) as [_ H].
  - reflexivity.
  - intros E. discriminate E.
  - apply H.
    + reflexivity.
    + vm_compute. lia.
    + reflexivity.
Defined.

End resolverFacts.

(** ** Accounts: further properties of the codec *)

Module accountsProps.
Import RLP RLPFacts accounts accounts_spec accountsFacts.

Lemma newAccountCopy_eq (a : Account) :
  newAccountCopy a
  = match Balance a with
    | None => Err PanicNilDereference
    | Some z => Ok (normalCopy a z)
    end.
Proof.
  destruct a as [n [z|] r ch s]; [|reflexivity].
  unfold newAccountCopy, fill, normalCopy, codeHashBytes.
  cbn [Balance bigSet rbind Nonce Root CodeHash StorageSize newAccount].
  unfold setDefaultBalance at 1 2 3.
  cbn [Balance bigSet rbind Nonce Root CodeHash StorageSize newAccount].
  unfold setDefaultBalance.
  cbn [Balance bigSet rbind Nonce Root CodeHash StorageSize newAccount].
  assert (ES : match s with Some s0 => Some s0 | None => None end = s)
    by (destruct s; reflexivity).
  rewrite ES.
  unfold setDefaultCodeHash, IsEmptyCodeHash.
  cbn [Balance Nonce Root CodeHash StorageSize].
  assert (EC : (if match copyBytes ch with
                   | Some c => bytes_eqb c emptyCodeHash
                   | None => true
                   end
                then mkAccount n (Some z) r (Some emptyCodeHash) s
                else mkAccount n (Some z) r (copyBytes ch) s)
               = mkAccount n (Some z) r
                   (Some match ch with Some c => c | None => [] end) s).
  { destruct ch as [c|]; unfold copyBytes.
    - destruct (bytes_eqb c emptyCodeHash) eqn:E; [|reflexivity].
      apply bytes_eqb_eq in E. now rewrite E.
    - reflexivity. }
  rewrite EC. unfold setDefaultRoot, IsEmptyRoot.
  cbn [Balance Nonce Root CodeHash StorageSize].
  destruct (bytes_eqb r emptyRoot || bytes_eqb r zeroHash); reflexivity.
Qed.


Lemma normalCopy_root_nonzero (a : Account) (z : Z) :
  Root (normalCopy a z) <> zeroHash.
Proof.
  unfold normalCopy. cbn [Root].
  destruct (IsEmptyRoot a) eqn:E.
  - apply bytes_eqb_neq. reflexivity.
  - unfold IsEmptyRoot in E. apply orb_false_iff in E as [_ E].
    now apply bytes_eqb_neq.
Qed.

Lemma normalCopy_root_len (a : Account) (z : Z) :
  len (Root a) = 32 -> len (Root (normalCopy a z)) = 32.
Proof.
  intros H. unfold normalCopy. cbn [Root].
  destruct (IsEmptyRoot a); [reflexivity|exact H].
Qed.

Lemma normalCopy_not_empty (a : Account) (z : Z) :
  IsEmptyCodeHash a && IsEmptyRoot a = false ->
  IsEmptyCodeHash (normalCopy a z) && IsEmptyRoot (normalCopy a z) = false.
Proof.
  intros H.
  assert (EC : IsEmptyCodeHash (normalCopy a z) = bytes_eqb (codeHashBytes a) emptyCodeHash)
    by reflexivity.
  assert (ER : IsEmptyRoot a = false -> IsEmptyRoot (normalCopy a z) = false).
  { intros E. unfold normalCopy, IsEmptyRoot at 1. cbn [Root]. rewrite E. exact E. }
  destruct (IsEmptyRoot a) eqn:E.
  - rewrite andb_true_r in H. rewrite EC. unfold IsEmptyCodeHash in H.
    unfold codeHashBytes. destruct (CodeHash a) as [c|]; [|discriminate H].
    now rewrite H.
  - rewrite ER by reflexivity. apply andb_false_r.
Qed.

(** X1.  [newAccountCopy] fails, with a nil dereference, exactly on a nil
    balance.  On every other account it returns a copy that keeps nonce,
    balance and storage size, has a code hash that is not nil (a nil one
    becomes the empty slice, not the hash of the empty code), has a root
    that is not the zero hash (an empty root becomes [emptyRoot]), and is a
    fixed point of [newAccountCopy]. *)
Theorem newAccountCopy_normal_form (a : Account) :
  (newAccountCopy a = Err PanicNilDereference <-> Balance a = None) /\
  (forall z, Balance a = Some z ->
   exists acc,
     newAccountCopy a = Ok acc /\
     Nonce acc = Nonce a /\ Balance acc = Some z /\
     StorageSize acc = StorageSize a /\
     CodeHash acc = Some (codeHashBytes a) /\
     Root acc = (if IsEmptyRoot a then emptyRoot else Root a) /\
     Root acc <> zeroHash /\
     newAccountCopy acc = Ok acc).
Proof.
  rewrite newAccountCopy_eq. split.
  - destruct (Balance a); split; intros H; try reflexivity; discriminate H.
  - intros z EB. rewrite EB. exists (normalCopy a z).
    repeat (split; [reflexivity|]).
    split; [apply normalCopy_root_nonzero|].
    apply (newAccountCopy_normal _ z (codeHashBytes a)); try reflexivity.
    apply normalCopy_root_nonzero.
Qed.

(** An account with the zero root and a nil code hash, and the same account
    with a nil balance. *)
Lemma newAccountCopy_normal_form_witness :
  newAccountCopy (mkAccount 1 None zeroHash None None) = Err PanicNilDereference /\
  newAccountCopy (mkAccount 1 (Some 5%Z) zeroHash None None)
  = Ok (mkAccount 1 (Some 5%Z) emptyRoot (Some []) None) /\
  newAccountCopy (mkAccount 1 (Some 5%Z) emptyRoot (Some []) None)
  = Ok (mkAccount 1 (Some 5%Z) emptyRoot (Some []) None).
Proof.
  split.
  - apply (newAccountCopy_normal_form (mkAccount 1 None zeroHash None None)).
    reflexivity.
  - destruct (newAccountCopy_normal_form (mkAccount 1 (Some 5%Z) zeroHash None None))
      as [_ H].
    destruct (H 5%Z eq_refl) as (acc & H1 & H2 & H3 & H4 & H5 & H6 & _ & H8).
    destruct acc as [n b r c ss].
    cbn [Nonce Balance StorageSize CodeHash Root] in H2, H3, H4, H5, H6.
    subst n b ss c r. split; [exact H1|exact H8].
Defined.

Lemma len_encodeList_ge2 (p : bytes) : p <> [] -> 2 <= len (encodeList p).
Proof.
  intros Hp. unfold encodeList, encodeHeader.
  destruct p as [|b p']; [congruence|].
  destruct (len (b :: p') <=? 55); rewrite len_app, !len_cons; lia.
Qed.

Lemma app_nonempty_l (s t : bytes) : s <> [] -> s ++ t <> [].
Proof. destruct s; [congruence|]. intros _ H. discriminate H. Qed.

Lemma encodeExtAccount_len (e : ExtAccount) (enc : bytes) :
  encodeExtAccount e = Ok enc -> 2 <= len enc.
Proof.
  unfold encodeExtAccount. destruct (encodeBalance (ext_Balance e)); cbn [rbind];
    intros H; [|discriminate H].
  injection H as <-. apply len_encodeList_ge2, app_nonempty_l, encodeUint_nonempty.
Qed.

Lemma encodeAccountWithoutStorage_len (s : accountWithoutStorage) (enc : bytes) :
  encodeAccountWithoutStorage s = Ok enc -> 2 <= len enc.
Proof.
  unfold encodeAccountWithoutStorage. destruct (encodeBalance (aws_Balance s));
    cbn [rbind]; intros H; [|discriminate H].
  injection H as <-. apply len_encodeList_ge2, app_nonempty_l, encodeUint_nonempty.
Qed.

Lemma encodeAccount_len (a : Account) (enc : bytes) :
  encodeAccount a = Ok enc -> 2 <= len enc.
Proof.
  unfold encodeAccount. destruct (encodeBalance (Balance a));
    cbn [rbind]; intros H; [|discriminate H].
  injection H as <-. apply len_encodeList_ge2, app_nonempty_l, encodeUint_nonempty.
Qed.

(** X2.  [Encode] writes a single byte only for the account with empty code
    hash, empty root, zero (or nil) balance and zero nonce, and that byte is
    0xC0; every other encoding has at least two bytes. *)
Theorem Encode_one_byte_iff_empty (a : Account) (enableStorageSize : bool)
    (enc : bytes) :
  Encode a enableStorageSize = Ok enc ->
  (len enc = 1 <-> oneByteCase a = true) /\
  (oneByteCase a = true -> enc = [xc0]) /\
  (oneByteCase a = false -> 2 <= len enc).
Proof.
  unfold Encode, oneByteCase.
  destruct (IsEmptyCodeHash a && IsEmptyRoot a) eqn:HE; cbn [andb].
  - destruct (balanceIsZero a && (Nonce a =? 0)) eqn:HZ.
    + intros H. injection H as <-. split; [split; reflexivity|].
      split; [reflexivity|]. intros H; discriminate H.
    + destruct (ext_fill (mkExtAccount 0 None) a) as [e|]; cbn [rbind];
        intros H; [|discriminate H].
      apply encodeExtAccount_len in H.
      split; [split; [lia|intros X; discriminate X]|].
      split; [intros X; discriminate X|]. intros _. exact H.
  - destruct (newAccountCopy a) as [acc|]; cbn [rbind]; intros H; [|discriminate H].
    assert (L : 2 <= len enc).
    { destruct (negb enableStorageSize || isNil (StorageSize acc)).
      - now apply encodeAccountWithoutStorage_len in H.
      - now apply encodeAccount_len in H. }
    split; [split; [lia|intros X; discriminate X]|].
    split; [intros X; discriminate X|]. intros _. exact L.
Qed.

Lemma Encode_one_byte_iff_empty_witness :
  (len [xc0] = 1 <-> oneByteCase (mkAccount 0 None zeroHash None None) = true) /\
  (oneByteCase (mkAccount 0 None zeroHash None None) = true -> [xc0] = [xc0]) /\
  (oneByteCase (mkAccount 0 None zeroHash None None) = false -> 2 <= len [xc0]).
Proof.
  apply (Encode_one_byte_iff_empty (mkAccount 0 None zeroHash None None) false).
  reflexivity.
Defined.

Lemma encodeBalance_ok_iff (b : option Z) :
  (exists enc, encodeBalance b = Ok enc)
  <-> (forall z, b = Some z -> (0 <= z)%Z).
Proof.
  destruct b as [z|]; unfold encodeBalance, encodeBigInt, liftRlp.
  - destruct (Z.ltb_spec z 0) as [Hl|Hl]; split.
    + intros [enc H]. discriminate H.
    + intros H. specialize (H z eq_refl). lia.
    + intros _ z' [= <-]. exact Hl.
    + intros _. eexists. reflexivity.
  - split; [intros _ z H; discriminate H|]. intros _. eexists. reflexivity.
Qed.

Lemma Encode_ok_iff (a : Account) (enableStorageSize : bool) :
  (exists enc, Encode a enableStorageSize = Ok enc)
  <-> (oneByteCase a = true \/ exists z, Balance a = Some z /\ (0 <= z)%Z).
Proof.
  unfold Encode, oneByteCase.
  destruct (IsEmptyCodeHash a && IsEmptyRoot a) eqn:HE; cbn [andb].
  - destruct (balanceIsZero a && (Nonce a =? 0)) eqn:HZ.
    + split; [intros _; left; reflexivity|]. intros _. eexists. reflexivity.
    + unfold ext_fill. destruct (Balance a) as [z|] eqn:EB; cbn [bigSet rbind].
      * unfold encodeExtAccount, ext_setDefaultBalance. cbn [ext_Balance ext_Nonce].
        pose proof (encodeBalance_ok_iff (Some z)) as I.
        destruct (encodeBalance (Some z)) as [b|e]; cbn [rbind]; split.
        -- intros _. right. exists z. split; [reflexivity|].
           apply I; [eexists; reflexivity|reflexivity].
        -- intros _. eexists. reflexivity.
        -- intros [enc H]. discriminate H.
        -- intros [H|(z' & [= <-] & Hz)]; [discriminate H|].
           destruct I as [_ I]. destruct I as [enc H]; [|discriminate H].
           intros z' [= <-]. exact Hz.
      * split; [intros [enc H]; discriminate H|].
        intros [H|(z & H & _)]; discriminate H.
  - rewrite newAccountCopy_eq. destruct (Balance a) as [z|] eqn:EB; cbn [rbind].
    + pose proof (encodeBalance_ok_iff (Some z)) as I.
      unfold encodeAccountWithoutStorage, encodeAccount, normalCopy.
      cbn [aws_Balance aws_Nonce aws_Root aws_CodeHash Balance Nonce Root CodeHash
           StorageSize].
      destruct (encodeBalance (Some z)) as [b|e]; cbn [rbind]; split.
      * intros _. right. exists z. split; [reflexivity|].
        apply I; [eexists; reflexivity|reflexivity].
      * intros _. destruct (negb enableStorageSize || isNil (StorageSize a));
          eexists; reflexivity.
      * intros [enc H].
        destruct (negb enableStorageSize || isNil (StorageSize a)); discriminate H.
      * intros [H|(z' & [= <-] & Hz)]; [discriminate H|].
        destruct I as [_ I]. destruct I as [enc H]; [|discriminate H].
        intros z' [= <-]. exact Hz.
    + split; [intros [enc H]; discriminate H|].
      intros [H|(z & H & _)]; discriminate H.
Qed.


(** X3.  [Encode] returns bytes exactly when the account is the one-byte
    case, or its balance is neither nil nor negative: a nil balance
    otherwise is dereferenced, and a negative one is refused by the RLP
    encoder. *)
Theorem Encode_succeeds_iff (a : Account) (enableStorageSize : bool) :
  (exists enc, Encode a enableStorageSize = Ok enc)
  <-> (oneByteCase a = true \/ exists z, Balance a = Some z /\ (0 <= z)%Z).
Proof. apply Encode_ok_iff. Qed.

(** X4.  For an account that has code or storage, [EncodeRLP] and [Encode]
    write the same bytes, unless the storage size is asked for and is nil:
    then [EncodeRLP] alone writes a fifth, empty field. *)
Theorem EncodeRLP_agrees_with_Encode (a : Account) (enableStorageSize : bool) :
  IsEmptyCodeHash a && IsEmptyRoot a = false ->
  (enableStorageSize = true -> StorageSize a <> None) ->
  EncodeRLP a enableStorageSize = Encode a enableStorageSize.
Proof.
  intros HE HS. unfold EncodeRLP, Encode. rewrite HE, newAccountCopy_eq.
  destruct (Balance a) as [z|]; [|reflexivity]. cbn [rbind].
  unfold normalCopy at 1 6. cbn [StorageSize].
  destruct enableStorageSize; cbn [negb orb]; [|reflexivity].
  destruct (StorageSize a) as [s|]; [reflexivity|].
  now destruct HS.
Qed.

Lemma EncodeRLP_agrees_with_Encode_witness :
  EncodeRLP (mkAccount 2 (Some 7%Z) emptyRoot (Some [x01]) (Some 9)) true
  = Encode (mkAccount 2 (Some 7%Z) emptyRoot (Some [x01]) (Some 9)) true.
Proof.
  apply EncodeRLP_agrees_with_Encode.
  - reflexivity.
  - intros _ H. discriminate H.
Defined.

Lemma len_encodeString_short (s : bytes) :
  len s <= 55 -> len (encodeString s) <= len s + 1.
Proof.
  intros Hs. unfold encodeString, encodeHeader.
  apply N.leb_le in Hs as Hs'. rewrite Hs'.
  destruct s as [|b [|c s']].
  - change (len []) with 0. cbn. unfold len. cbn. lia.
  - destruct (b2n b <? 128); rewrite ?len_app; change (len [b]) with 1; cbn; unfold len; cbn; lia.
  - rewrite len_app. unfold len at 1. cbn [length]. lia.
Qed.

Lemma be_val_lt (s : bytes) : be_val s < 256 ^ len s.
Proof.
  induction s as [|b t IH].
  - cbn. lia.
  - rewrite be_val_cons, len_cons, N.pow_add_r.
    pose proof (b2n_bound b). change (256 ^ 1) with 256. nia.
Qed.

Lemma decodeUint64_bound (p rest : bytes) (n : N) :
  decodeUint64 p = Ok (n, rest) -> n < 2 ^ 64.
Proof.
  unfold decodeUint64.
  destruct (readString p) as [[s r]|]; cbn [rbind]; intros H; [|discriminate H].
  destruct (N.ltb_spec 8 (len s)) as [|L]; [discriminate H|].
  destruct (leading_zero s); [discriminate H|].
  injection H as <- _. pose proof (be_val_lt s).
  assert (256 ^ len s <= 256 ^ 8) by (apply N.pow_le_mono_r; lia).
  change (256 ^ 8) with (2 ^ 64) in *. lia.
Qed.

Lemma decodeBigInt_nonneg (p rest : bytes) (z : Z) :
  decodeBigInt p = Ok (z, rest) -> (0 <= z)%Z.
Proof.
  unfold decodeBigInt.
  destruct (readString p) as [[s r]|]; cbn [rbind]; intros H; [|discriminate H].
  destruct (leading_zero s); [discriminate H|].
  injection H as <- _. lia.
Qed.

Lemma decodeArray_len (size : N) (p s rest : bytes) :
  decodeArray size p = Ok (s, rest) -> len s = size.
Proof.
  unfold decodeArray.
  destruct (readString p) as [[s' r]|]; cbn [rbind]; intros H; [|discriminate H].
  destruct (N.eqb_spec (len s') size) as [E|]; [|discriminate H].
  injection H as <- _. exact E.
Qed.

Lemma decodeStruct_inv {A} (fields : bytes -> result error (A * bytes))
    (inp : bytes) (a : A) :
  decodeStruct fields inp = Ok a ->
  exists payload, fields payload = Ok (a, []).
Proof.
  unfold decodeStruct.
  destruct (readItem inp) as [[[k payload] rest]|]; cbn [rbind]; intros H;
    [|discriminate H].
  destruct k; [discriminate H|].
  destruct (fields payload) as [[a' unread]|] eqn:E; cbn [rbind] in H;
    [|discriminate H].
  destruct unread; [|discriminate H]. destruct rest; [|discriminate H].
  injection H as <-. exists payload. exact E.
Qed.

Lemma decodeExtAccount_fields (v : bytes) (e : ExtAccount) :
  decodeExtAccount v = Ok e ->
  exists n z, e = mkExtAccount n (Some z) /\ n < 2 ^ 64 /\ (0 <= z)%Z.
Proof.
  intros H. apply decodeStruct_inv in H as [p H].
  destruct (decodeUint64 p) as [[n p1]|] eqn:E1; cbn [rbind] in H; [|discriminate H].
  destruct (decodeBigInt p1) as [[z p2]|] eqn:E2; cbn [rbind] in H; [|discriminate H].
  injection H as <- _. exists n, z. split; [reflexivity|].
  split; [eapply decodeUint64_bound, E1|eapply decodeBigInt_nonneg, E2].
Qed.

Lemma decodeAccountWithoutStorage_fields (v : bytes) (d : accountWithoutStorage) :
  decodeAccountWithoutStorage v = Ok d ->
  exists n z r c, d = mkAccountWithoutStorage n (Some z) r (Some c) /\
    n < 2 ^ 64 /\ (0 <= z)%Z /\ len r = 32.
Proof.
  intros H. apply decodeStruct_inv in H as [p H].
  destruct (decodeUint64 p) as [[n p1]|] eqn:E1; cbn [rbind] in H; [|discriminate H].
  destruct (decodeBigInt p1) as [[z p2]|] eqn:E2; cbn [rbind] in H; [|discriminate H].
  destruct (decodeArray 32 p2) as [[r p3]|] eqn:E3; cbn [rbind] in H; [|discriminate H].
  destruct (decodeBytes p3) as [[c p4]|] eqn:E4; cbn [rbind] in H; [|discriminate H].
  injection H as <- _. exists n, z, r, c. split; [reflexivity|].
  split; [eapply decodeUint64_bound, E1|].
  split; [eapply decodeBigInt_nonneg, E2|eapply decodeArray_len, E3].
Qed.

Lemma decodeAccountWithStorage_fields (v : bytes) (d : Account) :
  decodeAccountWithStorage v = Ok d ->
  exists n z r c s, d = mkAccount n (Some z) r (Some c) (Some s) /\
    n < 2 ^ 64 /\ (0 <= z)%Z /\ len r = 32 /\ s < 2 ^ 64.
Proof.
  intros H. apply decodeStruct_inv in H as [p H].
  destruct (decodeUint64 p) as [[n p1]|] eqn:E1; cbn [rbind] in H; [|discriminate H].
  destruct (decodeBigInt p1) as [[z p2]|] eqn:E2; cbn [rbind] in H; [|discriminate H].
  destruct (decodeArray 32 p2) as [[r p3]|] eqn:E3; cbn [rbind] in H; [|discriminate H].
  destruct (decodeBytes p3) as [[c p4]|] eqn:E4; cbn [rbind] in H; [|discriminate H].
  destruct (decodeUint64 p4) as [[s p5]|] eqn:E5; cbn [rbind] in H; [|discriminate H].
  injection H as <- _. exists n, z, r, c, s. split; [reflexivity|].
  split; [eapply decodeUint64_bound, E1|].
  split; [eapply decodeBigInt_nonneg, E2|].
  split; [eapply decodeArray_len, E3|eapply decodeUint64_bound, E5].
Qed.

(** X5.  Whatever non-empty input [Decode] accepts, the account it fills in
    (from a fresh one) has a balance that is neither nil nor negative, a
    nonce below 2^64, a root of 32 bytes, a code hash that is not nil, and a
    storage size, if any, below 2^64. *)
Theorem Decode_shape (enc : bytes) (a' : Account) :
  enc <> [] ->
  Account_Decode newAccount enc = Ok a' ->
  decodedShape a'.
Proof.
  intros Hne. unfold Account_Decode, accountSizeWithoutData,
    minAccountSizeWithRootAndCodeHash.
  destruct (N.eqb_spec (len enc) 0) as [E0|_].
  { destruct enc; [congruence|]. rewrite len_cons in E0. lia. }
  destruct (len enc =? 1).
  { intros H. injection H as <-. unfold decodedShape. cbn.
    split; [exists 0%Z; split; [reflexivity|lia]|].
    split; [lia|]. split; [reflexivity|].
    split; [intros H; discriminate H|intros s H; discriminate H]. }
  destruct (len enc <? 60).
  { destruct (decodeExtAccount enc) as [e|] eqn:E; cbn [liftRlp rbind];
      intros H; [|discriminate H].
    apply decodeExtAccount_fields in E as (n & z & -> & Hn & Hz).
    injection H as <-. unfold decodedShape. cbn.
    split; [exists z; split; [reflexivity|exact Hz]|].
    split; [exact Hn|]. split; [reflexivity|].
    split; [intros H; discriminate H|intros s H; discriminate H]. }
  destruct (decodeAccountWithoutStorage enc) as [d|e] eqn:E.
  { apply decodeAccountWithoutStorage_fields in E as (n & z & r & c & -> & Hn & Hz & Hr).
    intros H. injection H as <-. unfold decodedShape. cbn.
    split; [exists z; split; [reflexivity|exact Hz]|].
    split; [exact Hn|]. split; [exact Hr|].
    split; [intros H; discriminate H|intros s H; discriminate H]. }
  destruct e; try (intros H; discriminate H).
  destruct (decodeAccountWithStorage enc) as [d|] eqn:E'; cbn [liftRlp rbind];
    intros H; [|discriminate H].
  apply decodeAccountWithStorage_fields in E' as (n & z & r & c & s & -> & Hn & Hz & Hr & Hs).
  injection H as <-. unfold decodedShape. cbn.
  split; [exists z; split; [reflexivity|exact Hz]|].
  split; [exact Hn|]. split; [exact Hr|].
  split; [intros H; discriminate H|]. intros s' [= <-]. exact Hs.
Qed.

Lemma Decode_shape_witness :
  decodedShape (mkAccount 1 (Some 10%Z) emptyRoot (Some emptyCodeHash) None).
Proof.
  apply (Decode_shape [xc2; x01; x0a]).
  - intros H. discriminate H.
  - reflexivity.
Defined.


Lemma len_encodeUint_le9 (n : N) : n < 2 ^ 64 -> 1 <= len (encodeUint n) <= 9.
Proof.
  intros Hn. pose proof (len_encodeUint_bounds n Hn).
  pose proof (putint_len n 8 Hn). unfold encodeUint in *.
  pose proof (len_encodeString_short (putint n)). lia.
Qed.

Lemma EncodeRLP_without_storage (a : Account) (z : Z) :
  Balance a = Some z -> (0 <= z)%Z ->
  EncodeRLP a false
  = Ok (encodeList (encodeUint (Nonce a) ++ encodeString (putint (Z.to_N z))
                      ++ encodeString (Root (normalCopy a z))
                      ++ encodeString (codeHashBytes a))).
Proof.
  intros HB Hz. unfold EncodeRLP. rewrite newAccountCopy_eq, HB. cbn [rbind negb].
  unfold encodeAccountWithoutStorage.
  cbn [aws_Nonce aws_Balance aws_Root aws_CodeHash].
  assert (EB : Balance (normalCopy a z) = Some z) by reflexivity.
  assert (EC : CodeHash (normalCopy a z) = Some (codeHashBytes a)) by reflexivity.
  assert (EN : Nonce (normalCopy a z) = Nonce a) by reflexivity.
  rewrite EB, EC, EN, encodeBalance_some by exact Hz. reflexivity.
Qed.

(** X6.  [EncodeRLP] writes a nil code hash as the empty string, not as the
    hash of the empty code; with a nonce and a balance below 2^64 the four
    fields then take fewer than 60 bytes, which [Decode] reads as the short
    form and refuses, because two fields are left over. *)
Theorem EncodeRLP_nil_code_hash_rejected (a : Account) (z : Z) :
  CodeHash a = None -> Balance a = Some z -> (0 <= z < 2 ^ 64)%Z ->
  Nonce a < 2 ^ 64 -> len (Root a) = 32 ->
  exists enc,
    EncodeRLP a false = Ok enc /\
    len enc < 60 /\
    Account_Decode newAccount enc = Err (RlpError ErrTooManyElements).
Proof.
  intros HC HB Hz Hn Hr.
  rewrite (EncodeRLP_without_storage a z HB) by lia.
  unfold codeHashBytes. rewrite HC.
  set (root := Root (normalCopy a z)).
  assert (Hroot : len root = 32) by (apply normalCopy_root_len, Hr).
  set (bal := encodeString (putint (Z.to_N z))).
  set (p := encodeUint (Nonce a) ++ bal ++ encodeString root ++ encodeString []).
  assert (Hzn : Z.to_N z < 2 ^ 64) by lia.
  pose proof (len_encodeUint_le9 (Nonce a) Hn) as L1.
  pose proof (len_encodeUint_le9 (Z.to_N z) Hzn) as L2.
  pose proof (putint_len (Z.to_N z) 8 Hzn) as L4.
  unfold encodeUint in L2. fold bal in L2.
  pose proof (len_encodeString_short root) as L3.
  pose proof (len_encodeString_bounds root) as L3'.
  assert (Lp : 4 <= len p <= 52).
  { subst p. rewrite !len_app. change (len (encodeString [])) with 1. lia. }
  assert (Le : len (encodeList p) = 1 + len p).
  { unfold encodeList, encodeHeader. rewrite len_app.
    destruct (N.leb_spec (len p) 55); [|lia].
    change (len [n2b (192 + len p)]) with 1. lia. }
  exists (encodeList p). split; [reflexivity|]. split; [lia|].
  rewrite Decode_short_branch by lia.
  unfold decodeExtAccount, decodeStruct.
  rewrite <- (app_nil_r (encodeList p)), readItem_encodeList by lia.
  cbn [rbind liftRlp]. subst p.
  rewrite decodeUint64_encodeUint by exact Hn. cbn [rbind].
  subst bal. rewrite decodeBigInt_putint by lia. cbn [rbind].
  pose proof (encodeString_nonempty root) as Hne.
  destruct (encodeString root); [congruence|reflexivity].
Qed.

Lemma EncodeRLP_nil_code_hash_rejected_witness :
  exists enc,
    EncodeRLP (mkAccount 1 (Some 10%Z) emptyRoot None None) false = Ok enc /\
    len enc < 60 /\
    Account_Decode newAccount enc = Err (RlpError ErrTooManyElements).
Proof.
  apply (EncodeRLP_nil_code_hash_rejected
           (mkAccount 1 (Some 10%Z) emptyRoot None None) 10).
  - reflexivity.
  - reflexivity.
  - lia.
  - cbn. lia.
  - reflexivity.
Defined.

Lemma Encode_long_form_gen (a : Account) (ss : bool) (z : Z) :
  IsEmptyCodeHash a && IsEmptyRoot a = false ->
  Balance a = Some z -> (0 <= z)%Z ->
  Encode a ss
  = Ok (encodeList
          ((encodeUint (Nonce a) ++ encodeString (putint (Z.to_N z))
              ++ encodeString (Root (normalCopy a z))
              ++ encodeString (codeHashBytes a))
           ++ match StorageSize a with
              | Some s => if ss then encodeUint s else []
              | None => []
              end)).
Proof.
  intros HE HB Hz. unfold Encode. rewrite HE, newAccountCopy_eq, HB. cbn [rbind].
  unfold encodeAccountWithoutStorage, encodeAccount.
  cbn [aws_Nonce aws_Balance aws_Root aws_CodeHash].
  assert (EB : Balance (normalCopy a z) = Some z) by reflexivity.
  assert (EC : CodeHash (normalCopy a z) = Some (codeHashBytes a)) by reflexivity.
  assert (EN : Nonce (normalCopy a z) = Nonce a) by reflexivity.
  assert (ES : StorageSize (normalCopy a z) = StorageSize a) by reflexivity.
  rewrite EB, EC, EN, ES, encodeBalance_some by exact Hz. cbn [rbind encodeSlice].
  destruct ss, (StorageSize a) as [s|]; cbn [negb orb isNil].
  - now rewrite <- !app_assoc.
  - now rewrite app_nil_r.
  - now rewrite app_nil_r.
  - now rewrite app_nil_r.
Qed.

(** X7.  Decoding what [Encode] wrote and encoding the result again gives
    the same bytes: for every account with a 64-bit nonce and storage
    size, a root of 32 bytes and fields that fit in memory, whose encoding
    is shorter than 60 bytes exactly when root and code hash are the empty
    ones, [Decode] accepts the bytes of [Encode], and [Encode] of the
    decoded account writes them again. *)
Theorem Encode_Decode_Encode (a : Account) (enableStorageSize : bool) (enc : bytes) :
  wellTyped a ->
  lengthTellsForm a enableStorageSize = true ->
  Encode a enableStorageSize = Ok enc ->
  exists a',
    Account_Decode newAccount enc = Ok a' /\
    Encode a' enableStorageSize = Ok enc.
Proof.
  intros (Hn & Hr & Hs & Hsize) HL HEnc.
  assert (Hcase : oneByteCase a = true \/ exists z, Balance a = Some z /\ (0 <= z)%Z)
    by (apply (Encode_ok_iff a enableStorageSize); now exists enc).
  unfold lengthTellsForm, encodedLength, minAccountSizeWithRootAndCodeHash in HL.
  rewrite HEnc in HL.
  destruct (IsEmptyCodeHash a && IsEmptyRoot a) eqn:HE.
  - destruct (balanceIsZero a && (Nonce a =? 0)) eqn:HZ.
    + assert (E : enc = [xc0]).
      { unfold Encode in HEnc. rewrite HE, HZ in HEnc. now injection HEnc as <-. }
      subst enc. eexists. split; [apply Decode_one_byte|]. reflexivity.
    + destruct Hcase as [Hc|(z & EB & Hz)].
      { unfold oneByteCase in Hc. rewrite HE, HZ in Hc. discriminate Hc. }
      pose proof (Encode_short_form a enableStorageSize z HE HZ EB Hz) as HEnc'.
      rewrite HEnc in HEnc'. injection HEnc' as ->.
      apply N.ltb_lt in HL.
      assert (Hzs : len (putint (Z.to_N z)) < 2 ^ 62).
      { unfold balanceOrZero in Hsize. rewrite EB in Hsize. lia. }
      exists (mkAccount (Nonce a) (Some z) emptyRoot (Some emptyCodeHash) None).
      split.
      * rewrite Decode_short_branch.
        -- rewrite (decodeExtAccount_encoded (Nonce a) z Hn Hz Hzs). reflexivity.
        -- apply len_encodeList_ge2, app_nonempty_l, encodeUint_nonempty.
        -- exact HL.
      * apply (Encode_short_form
                 (mkAccount (Nonce a) (Some z) emptyRoot (Some emptyCodeHash) None)
                 enableStorageSize z); try reflexivity; [|exact Hz].
        unfold balanceIsZero in *. cbn [Balance Nonce]. now rewrite EB in HZ.
  - destruct Hcase as [Hc|(z & EB & Hz)].
    { unfold oneByteCase in Hc. rewrite HE in Hc. discriminate Hc. }
    pose proof (Encode_long_form_gen a enableStorageSize z HE EB Hz) as HEnc'.
    rewrite HEnc in HEnc'. injection HEnc' as ->.
    apply N.leb_le in HL.
    assert (Hsize' : len (putint (Z.to_N z)) + len (codeHashBytes a) < 2 ^ 62).
    { unfold balanceOrZero in Hsize. now rewrite EB in Hsize. }
    pose proof (normalCopy_root_len a z Hr) as Hr'.
    pose proof (normalCopy_root_nonzero a z) as HR'.
    pose proof (normalCopy_not_empty a z HE) as HE0.
    assert (HE' : forall s,
               IsEmptyCodeHash (mkAccount (Nonce a) (Some z) (Root (normalCopy a z))
                                  (Some (codeHashBytes a)) s)
               && IsEmptyRoot (mkAccount (Nonce a) (Some z) (Root (normalCopy a z))
                                 (Some (codeHashBytes a)) s) = false).
    { intros s. exact HE0. }
    clear HE0.
    destruct (StorageSize a) as [s|] eqn:ES; [destruct enableStorageSize|];
      cbv iota in *; rewrite ?app_nil_r in *;
      change (if IsEmptyRoot a then emptyRoot else Root a)
        with (Root (normalCopy a z)) in *;
      set (r := Root (normalCopy a z)) in *;
      set (c := codeHashBytes a) in *.
    + exists (mkAccount (Nonce a) (Some z) r (Some c) (Some s)). split.
      * rewrite Decode_long_branch by exact HL.
        rewrite (decodeAccountWithoutStorage_five (Nonce a) z r c Hn Hz Hr' Hsize' s
                   (Hs s eq_refl)).
        rewrite (decodeAccountWithStorage_encoded (Nonce a) z r c Hn Hz Hr' Hsize' s
                   (Hs s eq_refl)).
        reflexivity.
      * rewrite (Encode_long_form _ true z c (HE' _) eq_refl Hz eq_refl HR').
        reflexivity.
    + exists (mkAccount (Nonce a) (Some z) r (Some c) None). split.
      * rewrite Decode_long_branch by exact HL.
        rewrite (decodeAccountWithoutStorage_encoded (Nonce a) z r c Hn Hz Hr' Hsize').
        reflexivity.
      * rewrite (Encode_long_form _ false z c (HE' _) eq_refl Hz eq_refl HR').
        cbn [StorageSize Nonce Root]. now rewrite app_nil_r.
    + exists (mkAccount (Nonce a) (Some z) r (Some c) None). split.
      * rewrite Decode_long_branch by exact HL.
        rewrite (decodeAccountWithoutStorage_encoded (Nonce a) z r c Hn Hz Hr' Hsize').
        reflexivity.
      * rewrite (Encode_long_form _ enableStorageSize z c (HE' _) eq_refl Hz eq_refl HR').
        cbn [StorageSize Nonce Root]. now rewrite app_nil_r.
Qed.

Lemma Encode_Decode_Encode_witness :
  exists a',
    Account_Decode newAccount [xc2; x01; x05] = Ok a' /\
    Encode a' false = Ok [xc2; x01; x05].
Proof.
  apply (Encode_Decode_Encode (mkAccount 1 (Some 5%Z) zeroHash None None) false).
  - unfold wellTyped. cbn [Nonce Root StorageSize]. split; [reflexivity|].
    split; [reflexivity|]. split; [intros s H; discriminate H|reflexivity].
  - reflexivity.
  - reflexivity.
Defined.

End accountsProps.

(** ** The block witness: further properties of the builder *)

Module trieProps.
Import trie trie_spec trieFacts.

Lemma node_ind' (P : node -> Prop)
    (HNil : P NilNode)
    (HValue : forall v, P (ValueNode v))
    (HShort : forall Key Val, P Val -> P (ShortNode Key Val))
    (HDuo : forall mask c1 c2, P c1 -> P c2 -> P (DuoNode mask c1 c2))
    (HFull : forall cs, Forall P cs -> P (FullNode cs))
    (HAccount : forall n b r c st, P st -> P (AccountNode n b r c st))
    (HHash : forall h, P (HashNode h)) :
  forall nd, P nd.
Proof.
  fix IH 1. intros [|v|Key Val|mask c1 c2|cs|n b r c st|h].
  - exact HNil.
  - apply HValue.
  - apply HShort, IH.
  - apply HDuo; apply IH.
  - apply HFull. induction cs as [|c cs IHcs]; constructor; [apply IH|exact IHcs].
  - apply HAccount, IH.
  - apply HHash.
Qed.

#[local] Instance extends_refl : Reflexive extends.
Proof. intros w. unfold extends. repeat split; reflexivity. Qed.

#[local] Instance extends_trans : Transitive extends.
Proof.
  intros a b c (K1 & V1 & H1 & C1 & S1) (K2 & V2 & H2 & C2 & S2).
  unfold extends. repeat split; etrans; eassumption.
Qed.

Lemma extends_toKeys (b : bytes) (w : BlockWitnessBuilder) : extends w (toKeys b w).
Proof. unfold extends, toKeys; cbn. repeat split; try reflexivity. now apply prefix_app_r. Qed.
Lemma extends_toValues (b : bytes) (w : BlockWitnessBuilder) : extends w (toValues b w).
Proof. unfold extends, toValues; cbn. repeat split; try reflexivity. now apply prefix_app_r. Qed.
Lemma extends_toHashes (b : bytes) (w : BlockWitnessBuilder) : extends w (toHashes b w).
Proof. unfold extends, toHashes; cbn. repeat split; try reflexivity. now apply prefix_app_r. Qed.
Lemma extends_toCodes (b : bytes) (w : BlockWitnessBuilder) : extends w (toCodes b w).
Proof. unfold extends, toCodes; cbn. repeat split; try reflexivity. now apply prefix_app_r. Qed.
Lemma extends_toStructure (b : bytes) (w : BlockWitnessBuilder) : extends w (toStructure b w).
Proof. unfold extends, toStructure; cbn. repeat split; try reflexivity. now apply prefix_app_r. Qed.

Lemma extends_step (f : BlockWitnessBuilder -> BlockWitnessBuilder)
    (w w' : BlockWitnessBuilder) :
  (forall x, extends x (f x)) -> extends w w' -> extends w (f w').
Proof. intros Hf H. etrans; [exact H|apply Hf]. Qed.

(** Every emitter of the builder only appends. *)
Ltac emitter :=
  intros;
  unfold supplyKey, supplyValue, supplyNumber, supplyBigInt, supplyCode, supplyHash,
    leaf, leafHash, extension, extensionHash, branch, branchHash, hash, code,
    accountLeaf, accountLeafHash, contractLeaf, contractLeafHash, emptyRoot, op;
  repeat first
    [ apply extends_toKeys | apply extends_toValues | apply extends_toHashes
    | apply extends_toCodes | apply extends_toStructure
    | (etrans; [|apply extends_toStructure]) ].

Section BuilderProps.
Variable ResolveSet : Type.
Variable HashOnly : ResolveSet -> bytes -> bool * ResolveSet.
Variable hasher_hash : node -> bool -> bytes.
Variable codeFromHash : bytes -> bytes.

Local Abbreviation mbw := (makeBlockWitness ResolveSet HashOnly hasher_hash codeFromHash).
Local Abbreviation St := (State ResolveSet).

Local Abbreviation grows s s' := (extends (fst s) (fst s')).
Local Abbreviation onBuilder' := (onBuilder ResolveSet).
Local Abbreviation query := (queryHashOnly ResolveSet HashOnly).

Lemma grows_refl (s : St) : grows s s.
Proof. reflexivity. Qed.

Lemma grows_trans (a b c : St) : grows a b -> grows b c -> grows a c.
Proof. intros. etrans; eassumption. Qed.

Lemma grows_on (f : BlockWitnessBuilder -> BlockWitnessBuilder) (s s' : St) :
  (forall x, extends x (f x)) -> grows s s' -> grows s (onBuilder' f s').
Proof. unfold onBuilder. cbn [fst]. apply extends_step. Qed.

Lemma query_builder (hex : bytes) (s : St) :
  fst (snd (query hex s)) = fst s.
Proof. unfold queryHashOnly. destruct (HashOnly (snd s) hex). reflexivity. Qed.

Lemma grows_query (hex : bytes) (s s0 : St) (b : bool) :
  query hex s = (b, s0) -> grows s s0.
Proof.
  intros H. pose proof (query_builder hex s) as Q. rewrite H in Q. cbn [snd] in Q.
  rewrite Q. reflexivity.
Qed.

Lemma rangeChildren_grows (hex : bytes) (cs : list node) :
  Forall (fun nd => forall hex force s s', mbw nd hex force s = Ok s' -> grows s s') cs ->
  forall i st set st' set',
    rangeChildren ResolveSet mbw hex cs i st set = Ok (st', set') -> grows st st'.
Proof.
  induction 1 as [|c cs Hc _ IH]; intros i st set st' set' H; cbn [rangeChildren] in H.
  - injection H as <- _. apply grows_refl.
  - destruct (isNilNode c); [eapply IH, H|].
    destruct (mbw c (hex ++ [n2b i]) false st) as [s1|] eqn:E; cbn [rbind] in H;
      [|discriminate H].
    eapply grows_trans; [eapply Hc, E|eapply IH, H].
Qed.

Lemma makeBlockWitness_grows :
  forall nd hex force s s', mbw nd hex force s = Ok s' -> grows s s'.
Proof.
  induction nd as [|v|Key Val IH|mask c1 c2 IH1 IH2|cs IH|n b r c st IH|h]
    using node_ind'; intros hex force s s' H.
  - injection H as <-. apply grows_refl.
  - injection H as <-. apply grows_on; [emitter|apply grows_refl].
  - cbn [makeBlockWitness] in H.
    destruct (query hex s) as [hashOnly s0] eqn:Q.
    apply grows_query in Q.
    destruct (last Key) as [l|]; [|discriminate H].
    match type of H with
    | context [mbw Val ?hv false s0] =>
        destruct (mbw Val hv false s0) as [s1|] eqn:E; cbn [rbind] in H;
          [|discriminate H]
    end.
    apply IH in E. assert (G : grows s s1) by (eapply grows_trans; eassumption).
    destruct Val; destruct hashOnly;
      repeat match type of H with
             | context [if ?c then _ else _] => destruct c
             end;
      injection H as <-;
      repeat (apply grows_on; [emitter|]); exact G.
  - cbn [makeBlockWitness] in H.
    destruct (query hex s) as [hashOnly s0] eqn:Q.
    apply grows_query in Q.
    destruct hashOnly.
    + injection H as <-. repeat (apply grows_on; [emitter|]). exact Q.
    + destruct (childrenIdx mask) as [i1 i2].
      destruct (mbw c1 (hex ++ [n2b i1]) false s0) as [s1|] eqn:E1; cbn [rbind] in H;
        [|discriminate H].
      destruct (mbw c2 (hex ++ [n2b i2]) false s1) as [s2|] eqn:E2; cbn [rbind] in H;
        [|discriminate H].
      injection H as <-. apply IH1 in E1. apply IH2 in E2.
      apply grows_on; [emitter|].
      eapply grows_trans; [exact Q|]. eapply grows_trans; eassumption.
  - cbn [makeBlockWitness] in H.
    destruct (query hex s) as [hashOnly s0] eqn:Q.
    apply grows_query in Q.
    destruct hashOnly.
    + injection H as <-. repeat (apply grows_on; [emitter|]). exact Q.
    + destruct (rangeChildren ResolveSet mbw hex cs 0 s0 0) as [[s1 set]|] eqn:E;
        cbn [rbind] in H; [|discriminate H].
      injection H as <-. apply grows_on; [emitter|].
      eapply grows_trans; [exact Q|]. eapply rangeChildren_grows; eassumption.
  - cbn [makeBlockWitness] in H.
    destruct (query hex s) as [hashOnly s0] eqn:Q.
    apply grows_query in Q.
    destruct (negb (IsEmptyRoot r) || negb (IsEmptyCodeHash c)).
    + destruct hashOnly; cbn [rbind] in H.
      * injection H as <-. repeat (apply grows_on; [emitter|]). exact Q.
      * destruct (mbw st hex true s0) as [s1|] eqn:E; cbn [rbind] in H;
          [|discriminate H].
        injection H as <-. apply IH in E.
        repeat (apply grows_on; [emitter|]). eapply grows_trans; eassumption.
    + cbn [rbind] in H. injection H as <-.
      repeat (apply grows_on; [emitter|]). exact Q.
  - discriminate H.
Qed.

(** X8.  The builder only appends: whatever the trie, the resolve set and
    the hasher, when [makeBlockWitness] returns, each of the five tapes
    begins with what it held before the call. *)
Theorem makeBlockWitness_appends (nd : node) (hex : bytes) (force : bool)
    (w w' : BlockWitnessBuilder) (rs rs' : ResolveSet) :
  mbw nd hex force (w, rs) = Ok (w', rs') -> extends w w'.
Proof. intros H. exact (makeBlockWitness_grows nd hex force (w, rs) (w', rs') H). Qed.

(** *** A resolve set that asks for everything *)

Hypothesis Hfalse : neverHashOnly HashOnly.

Lemma query_false (hex : bytes) (s : St) :
  query hex s = (false, (fst s, snd (HashOnly (snd s) hex))).
Proof.
  unfold queryHashOnly. pose proof (Hfalse (snd s) hex) as F.
  destruct (HashOnly (snd s) hex) as [b rs']. cbn [fst snd] in *. now subst b.
Qed.

Ltac tapes :=
  unfold onBuilder, supplyKey, supplyValue, supplyNumber, supplyBigInt, supplyCode,
    supplyHash, leaf, leafHash, extension, extensionHash, branch, branchHash, hash,
    code, accountLeaf, accountLeafHash, contractLeaf, contractLeafHash, op,
    toKeys, toValues, toHashes, toCodes, toStructure;
  cbn [fst snd Keys Values Hashes Codes Structure].

Local Abbreviation fullWalk := (fullWalk ResolveSet HashOnly hasher_hash codeFromHash).

Lemma rangeChildren_fullWalk (hex : bytes) (cs : list node) :
  Forall fullWalk cs ->
  forall i (st : St) set,
    match rangeChildren ResolveSet mbw hex cs i st set with
    | Ok (st', _) =>
        forallb walkable cs = true /\
        Hashes (fst st') = Hashes (fst st) /\
        Keys (fst st')
        = Keys (fst st) ++ concat (map CBOR.encodeBytes (flat_map leafKeys cs))
    | Err _ => forallb walkable cs = false
    end.
Proof.
  induction 1 as [|c cs Hc _ IH]; intros i st set; cbn [rangeChildren].
  - cbn. now rewrite app_nil_r.
  - destruct (isNilNode c) eqn:EN.
    + destruct c; try discriminate EN. cbn [forallb walkable flat_map leafKeys app andb].
      apply IH.
    + specialize (Hc (hex ++ [n2b i]) false st).
      destruct (mbw c (hex ++ [n2b i]) false st) as [s1|] eqn:E; cbn [rbind].
      * destruct Hc as (W & HH & HK).
        specialize (IH (i + 1) s1 (u32 (N.lor set (u32 (N.shiftl 1 i))))).
        destruct (rangeChildren ResolveSet mbw hex cs (i + 1) s1
                    (u32 (N.lor set (u32 (N.shiftl 1 i))))) as [[st' set']|].
        -- destruct IH as (W' & HH' & HK'). cbn [forallb flat_map].
           rewrite W, W', HH', HH, HK', HK, map_app, concat_app, <- app_assoc.
           repeat split.
        -- cbn [forallb]. rewrite IH. apply andb_false_r.
      * cbn [forallb]. now rewrite Hc.
Qed.

Lemma makeBlockWitness_fullWalk : forall nd, fullWalk nd.
Proof.
  induction nd as [|v|Key Val IH|mask c1 c2 IH1 IH2|cs IH|n b r c st IH|h]
    using node_ind'; intros hex force s.
  - cbn. now rewrite app_nil_r.
  - cbn. now rewrite app_nil_r.
  - cbn [makeBlockWitness]. rewrite query_false.
    destruct Key as [|k0 Key']; [reflexivity|].
    destruct (last (k0 :: Key')) as [l|] eqn:EL.
    2:{ apply last_None in EL. discriminate EL. }
    set (Key := k0 :: Key') in *.
    match goal with
    | |- context [mbw Val ?hv false ?s0] =>
        specialize (IH hv false s0);
        destruct (mbw Val hv false s0) as [s1|] eqn:E; cbn [rbind]
    end.
    + destruct IH as (W & HH & HK). cbn [fst] in HH, HK.
      assert (WS : walkable (ShortNode Key Val) = walkable Val) by reflexivity.
      rewrite WS, W.
      destruct Val;
        repeat match goal with
               | |- context [if ?c then _ else _] => destruct c
               end;
        tapes; cbn [leafKeys] in *; rewrite HH, HK, ?map_app, ?concat_app;
        cbn [map concat]; rewrite ?app_nil_r, <- ?app_assoc; repeat split.
    + exact IH.
  - cbn [makeBlockWitness]. rewrite query_false.
    destruct (childrenIdx mask) as [i1 i2].
    specialize (IH1 (hex ++ [n2b i1]) false (fst s, snd (HashOnly (snd s) hex))).
    destruct (mbw c1 (hex ++ [n2b i1]) false (fst s, snd (HashOnly (snd s) hex)))
      as [s1|] eqn:E1; cbn [rbind].
    + destruct IH1 as (W1 & HH1 & HK1). cbn [fst] in HH1, HK1.
      specialize (IH2 (hex ++ [n2b i2]) false s1).
      destruct (mbw c2 (hex ++ [n2b i2]) false s1) as [s2|] eqn:E2; cbn [rbind].
      * destruct IH2 as (W2 & HH2 & HK2). cbn [walkable leafKeys]. tapes.
        rewrite W1, W2, HH2, HH1, HK2, HK1, map_app, concat_app, <- app_assoc.
        repeat split.
      * cbn [walkable]. rewrite IH2. apply andb_false_r.
    + cbn [walkable]. now rewrite IH1.
  - cbn [makeBlockWitness]. rewrite query_false.
    pose proof (rangeChildren_fullWalk hex cs IH 0
                  (fst s, snd (HashOnly (snd s) hex)) 0) as R.
    destruct (rangeChildren ResolveSet mbw hex cs 0
                (fst s, snd (HashOnly (snd s) hex)) 0) as [[s1 set]|]; cbn [rbind].
    + destruct R as (W & HH & HK). cbn [fst] in HH, HK. cbn [walkable leafKeys]. tapes.
      rewrite W, HH, HK. repeat split.
    + exact R.
  - cbn [makeBlockWitness]. rewrite query_false. cbn [walkable leafKeys].
    destruct (negb (IsEmptyRoot r) || negb (IsEmptyCodeHash c)).
    + specialize (IH hex true (fst s, snd (HashOnly (snd s) hex))).
      destruct (mbw st hex true (fst s, snd (HashOnly (snd s) hex))) as [s1|];
        cbn [rbind].
      * destruct IH as (W & HH & HK). cbn [fst] in HH, HK. tapes.
        rewrite W, HH, HK. repeat split.
      * exact IH.
    + cbn [rbind]. tapes. now rewrite app_nil_r.
  - reflexivity.
Qed.

(** X9.  With a resolve set that asks for everything, [makeBlockWitness]
    returns exactly on the tries that hold no hash node and no short node
    with an empty key (the storage of an account counting only when the
    account has storage or code); on every other trie it panics. *)
Theorem full_witness_iff_walkable (nd : node) (hex : bytes) (force : bool) (s : St) :
  (exists s', mbw nd hex force s = Ok s') <-> walkable nd = true.
Proof.
  pose proof (makeBlockWitness_fullWalk nd hex force s) as F.
  destruct (mbw nd hex force s) as [s'|e].
  - split; [intros _; apply F|]. intros _. now exists s'.
  - split; [intros [s' H]; discriminate H|]. rewrite F. intros H. discriminate H.
Qed.

(** X10.  With a resolve set that asks for everything, the witness holds no
    hash: [makeBlockWitness] leaves the hashes tape as it was, whatever the
    hasher. *)
Theorem full_witness_no_hashes (nd : node) (hex : bytes) (force : bool) (s s' : St) :
  mbw nd hex force s = Ok s' -> Hashes (fst s') = Hashes (fst s).
Proof.
  intros H. pose proof (makeBlockWitness_fullWalk nd hex force s) as F.
  rewrite H in F. apply F.
Qed.

(** X11.  With a resolve set that asks for everything, [makeBlockWitness]
    appends to the keys tape the key of every leaf of the trie, each as a
    CBOR byte string, in the order of the walk: the children of a branch
    from the lowest nibble up, the storage of a contract before the key of
    its account. *)
Theorem full_witness_keys (nd : node) (hex : bytes) (force : bool) (s s' : St) :
  mbw nd hex force s = Ok s' ->
  Keys (fst s') = Keys (fst s) ++ concat (map CBOR.encodeBytes (leafKeys nd)).
Proof.
  intros H. pose proof (makeBlockWitness_fullWalk nd hex force s) as F.
  rewrite H in F. apply F.
Qed.

End BuilderProps.

Lemma makeBlockWitness_appends_witness :
  extends NewBlockWitnessBuilder
    (mkBWB [] [] (CBOR.encodeBytes (repeat xaa 32)) []
       (CBOR.encodeUint (opcode OpHash) ++ CBOR.encodeInt 1)).
Proof.
  apply (makeBlockWitness_appends unit (constHashOnly true) constHasher noCode
           exampleDuo [] true NewBlockWitnessBuilder _ tt tt).
  reflexivity.
Defined.

Lemma full_witness_iff_walkable_witness :
  (exists s', makeBlockWitness unit (constHashOnly false) constHasher noCode
                exampleDuo [] true (NewBlockWitnessBuilder, tt) = Ok s')
  <-> walkable exampleDuo = true.
Proof.
  apply full_witness_iff_walkable. intros rs hex. reflexivity.
Defined.

Lemma full_witness_no_hashes_witness :
  Hashes (fst (mkBWB (CBOR.encodeBytes [x00; x01; x10])
                 (CBOR.encodeBytes [x56; x41; x4c]) [] []
                 (CBOR.encodeUint (opcode OpLeaf) ++ CBOR.encodeInt 3), tt))
  = Hashes (fst (NewBlockWitnessBuilder, tt)).
Proof.
  apply (full_witness_no_hashes unit (constHashOnly false) constHasher noCode
           (fun rs hex => eq_refl) exampleLeaf [] true).
  reflexivity.
Defined.

Lemma full_witness_keys_witness :
  Keys (fst (mkBWB (CBOR.encodeBytes [x00; x01; x10])
               (CBOR.encodeBytes [x56; x41; x4c]) [] []
               (CBOR.encodeUint (opcode OpLeaf) ++ CBOR.encodeInt 3), tt))
  = Keys (fst (NewBlockWitnessBuilder, tt))
      ++ concat (map CBOR.encodeBytes (leafKeys exampleLeaf)).
Proof.
  apply (full_witness_keys unit (constHashOnly false) constHasher noCode
           (fun rs hex => eq_refl) exampleLeaf [] true).
  reflexivity.
Defined.

(** *** The serialized witness read back *)

Lemma tapeLen_lens (bwb : BlockWitnessBuilder) :
  tapeLen (lens bwb) KeysTape = length (Keys bwb) /\
  tapeLen (lens bwb) ValuesTape = length (Values bwb) /\
  tapeLen (lens bwb) HashesTape = length (Hashes bwb) /\
  tapeLen (lens bwb) CodesTape = length (Codes bwb) /\
  tapeLen (lens bwb) StructureTape = length (Structure bwb).
Proof.
  destruct (lens_lookup bwb) as (K & V & H & C & S & _).
  unfold tapeLen. rewrite K, V, H, C, S. cbn [from_option]. unfold id, ilen.
  now rewrite !Nat2Z.id.
Qed.

Lemma readTapes_lens (bwb : BlockWitnessBuilder) :
  readTapes (lens bwb)
    (Keys bwb ++ Values bwb ++ Hashes bwb ++ Codes bwb ++ Structure bwb) = bwb.
Proof.
  destruct (tapeLen_lens bwb) as (K & V & H & C & S).
  unfold readTapes. rewrite K, V, H, C, S.
  repeat (rewrite ?take_app_length, ?drop_app_length;
          progress cbv zeta).
  repeat first [rewrite take_app_length | rewrite drop_app_length].
  rewrite take_ge by lia. now destruct bwb.
Qed.

(** X12.  A witness written by [WriteTo] can be read back: the CBOR decoder
    takes the map of the five lengths off its front, and these lengths cut
    the rest into the five tapes of the builder, in the order keys, values,
    hashes, codes, structure, with nothing left over. *)
Theorem WriteTo_read_back (bwb : BlockWitnessBuilder) :
  fitsInt bwb ->
  exists m body,
    CBOR.decodeMap (snd (WriteTo bwb [])) = Ok (m, body) /\
    readTapes m body = bwb /\
    length body
    = (tapeLen m KeysTape + tapeLen m ValuesTape + tapeLen m HashesTape
       + tapeLen m CodesTape + tapeLen m StructureTape)%nat.
Proof.
  intros Hfit.
  exists (lens bwb),
    (Keys bwb ++ Values bwb ++ Hashes bwb ++ Codes bwb ++ Structure bwb).
  split; [|split].
  - unfold WriteTo. cbn [snd app]. rewrite <- !app_assoc.
    apply decodeMap_header, Hfit.
  - apply readTapes_lens.
  - destruct (tapeLen_lens bwb) as (K & V & H & C & S).
    rewrite K, V, H, C, S, !length_app. lia.
Qed.

Lemma WriteTo_read_back_witness :
  exists m body,
    CBOR.decodeMap (snd (WriteTo (mkBWB [x41; x00] [x01] [] [] [x00; x01]) []))
    = Ok (m, body) /\
    readTapes m body = mkBWB [x41; x00] [x01] [] [] [x00; x01] /\
    length body
    = (tapeLen m KeysTape + tapeLen m ValuesTape + tapeLen m HashesTape
       + tapeLen m CodesTape + tapeLen m StructureTape)%nat.
Proof.
  apply WriteTo_read_back. unfold fitsInt. repeat split; reflexivity.
Defined.

End trieProps.

(** ** The resolver: requests and their order *)

Module resolverProps.
Import trie resolver resolver_spec resolverFacts.

Lemma bytesCompare_refl (a : bytes) : bytesCompare a a = 0%Z.
Proof.
  induction a as [|x a IH]; [reflexivity|]. cbn [bytesCompare].
  now rewrite N.ltb_irrefl.
Qed.

Lemma bytesCompare_eq (a : bytes) : forall b, bytesCompare a b = 0%Z -> a = b.
Proof.
  induction a as [|x a IH]; intros [|y b] H; cbn [bytesCompare] in H;
    try reflexivity; try discriminate H.
  destruct (N.ltb_spec (b2n x) (b2n y)); [discriminate H|].
  destruct (N.ltb_spec (b2n y) (b2n x)); [discriminate H|].
  assert (E : x = y) by (apply b2n_inj; lia). subst y. f_equal. now apply IH.
Qed.

Lemma bytesCompare_antisym (a : bytes) : forall b,
  bytesCompare b a = (- bytesCompare a b)%Z.
Proof.
  induction a as [|x a IH]; intros [|y b]; cbn [bytesCompare]; try reflexivity.
  destruct (N.ltb_spec (b2n x) (b2n y)), (N.ltb_spec (b2n y) (b2n x));
    try reflexivity; try lia. apply IH.
Qed.

Lemma bytesCompare_range (a : bytes) : forall b,
  bytesCompare a b = (-1)%Z \/ bytesCompare a b = 0%Z \/ bytesCompare a b = 1%Z.
Proof.
  induction a as [|x a IH]; intros [|y b]; cbn [bytesCompare]; auto.
  destruct (b2n x <? b2n y); auto. destruct (b2n y <? b2n x); auto.
Qed.

Lemma bytesCompare_lt_trans (a : bytes) : forall b c,
  bytesCompare a b = (-1)%Z -> bytesCompare b c = (-1)%Z -> bytesCompare a c = (-1)%Z.
Proof.
  induction a as [|x a IH]; intros [|y b] [|z c] H1 H2; cbn [bytesCompare] in *;
    try reflexivity; try discriminate.
  destruct (N.ltb_spec (b2n x) (b2n y)), (N.ltb_spec (b2n y) (b2n z)),
    (N.ltb_spec (b2n x) (b2n z)); try reflexivity; try lia;
    destruct (N.ltb_spec (b2n y) (b2n x)); try discriminate H1;
    destruct (N.ltb_spec (b2n z) (b2n y)); try discriminate H2; try lia.
  destruct (N.ltb_spec (b2n z) (b2n x)); [lia|]. eapply IH; eassumption.
Qed.

(** Comparing two byte strings cut down to the shorter length tells how
    they compare: alike up to there, the shorter one is the smaller. *)
Lemma bytesCompare_take (a : bytes) : forall b,
  let m := Nat.min (length a) (length b) in
  let c := bytesCompare (take m a) (take m b) in
  (c <> 0%Z -> bytesCompare a b = c) /\
  (c = 0%Z ->
   (bytesCompare a b <? 0)%Z = (Z.of_nat (length a) <? Z.of_nat (length b))%Z).
Proof.
  induction a as [|x a IH]; intros [|y b]; cbn [length Nat.min take bytesCompare].
  - split; [congruence|reflexivity].
  - split; [congruence|]. intros _. cbn [bytesCompare].
    symmetry. apply Z.ltb_lt. lia.
  - split; [congruence|]. intros _. cbn [bytesCompare]. reflexivity.
  - destruct (b2n x <? b2n y); [split; [reflexivity|intros H; discriminate H]|].
    destruct (b2n y <? b2n x); [split; [reflexivity|intros H; discriminate H]|].
    destruct (IH b) as [I1 I2]. split; [exact I1|]. intros H. rewrite (I2 H).
    destruct (Z.ltb_spec (Z.of_nat (length a)) (Z.of_nat (length b))),
      (Z.ltb_spec (Z.of_nat (S (length a))) (Z.of_nat (S (length b))));
      try reflexivity; lia.
Qed.

Lemma sliceTo_ok {A} (l : list A) (i : Z) :
  (0 <= i <= Z.of_nat (length l))%Z -> sliceTo l i = Ok (take (Z.to_nat i) l).
Proof.
  intros H. unfold sliceTo.
  destruct (Z.ltb_spec i 0); [lia|].
  destruct (Z.ltb_spec (Z.of_nat (length l)) i); [lia|reflexivity].
Qed.

Lemma min_cases (a b : Z) : min a b = Z.min a b.
Proof. unfold min. destruct (Z.ltb_spec a b); lia. Qed.

Lemma lessRequests_lex (ci cj : ResolveRequest) :
  validPos ci -> validPos cj -> lessRequests ci cj = Ok (lexBefore ci cj).
Proof.
  intros Hi Hj. unfold lessRequests, lexBefore.
  destruct (negb (bytesCompare (keyBytes (contract ci)) (keyBytes (contract cj)) =? 0)%Z);
    [reflexivity|].
  assert (Hm : (0 <= min (resolvePos ci) (resolvePos cj))%Z
               /\ (min (resolvePos ci) (resolvePos cj) <= resolvePos ci)%Z
               /\ (min (resolvePos ci) (resolvePos cj) <= resolvePos cj)%Z).
  { rewrite min_cases. unfold validPos in *. lia. }
  destruct Hm as (M0 & Mi & Mj).
  rewrite !sliceTo_ok by (unfold validPos in *; lia). cbn [rbind].
  pose proof (bytesCompare_take (requestPrefix ci) (requestPrefix cj)) as T.
  cbn zeta in T.
  assert (Li : length (requestPrefix ci) = Z.to_nat (resolvePos ci)).
  { unfold requestPrefix, validPos in *. rewrite length_take. lia. }
  assert (Lj : length (requestPrefix cj) = Z.to_nat (resolvePos cj)).
  { unfold requestPrefix, validPos in *. rewrite length_take. lia. }
  assert (Ei : take (Z.to_nat (min (resolvePos ci) (resolvePos cj))) (resolveHex ci)
               = take (Nat.min (length (requestPrefix ci)) (length (requestPrefix cj)))
                   (requestPrefix ci)).
  { unfold requestPrefix at 3. rewrite take_take. f_equal.
    rewrite Li, Lj, min_cases. unfold validPos in *. lia. }
  assert (Ej : take (Z.to_nat (min (resolvePos ci) (resolvePos cj))) (resolveHex cj)
               = take (Nat.min (length (requestPrefix ci)) (length (requestPrefix cj)))
                   (requestPrefix cj)).
  { unfold requestPrefix at 3. rewrite take_take. f_equal.
    rewrite Li, Lj, min_cases. unfold validPos in *. lia. }
  rewrite Ei, Ej. destruct T as [T1 T2].
  destruct (Z.eqb_spec
              (bytesCompare
                 (take (Nat.min (length (requestPrefix ci)) (length (requestPrefix cj)))
                    (requestPrefix ci))
                 (take (Nat.min (length (requestPrefix ci)) (length (requestPrefix cj)))
                    (requestPrefix cj))) 0) as [E|E]; cbn [negb].
  - rewrite (T2 E), Li, Lj. f_equal.
    unfold validPos in *.
    destruct (Z.ltb_spec (resolvePos ci) (resolvePos cj)),
      (Z.ltb_spec (Z.of_nat (Z.to_nat (resolvePos ci)))
         (Z.of_nat (Z.to_nat (resolvePos cj)))); try reflexivity; lia.
  - now rewrite (T1 E).
Qed.


(** X13.  [Less] is the lexicographic order on the contract and the part of
    the resolve key up to the resolve position: for two requests whose
    positions lie within their keys, it compares the contracts and, when
    these are equal, the two key prefixes as byte strings, a prefix coming
    before its extensions. *)
Theorem Less_lexicographic (tr : TrieResolver) (i j : Z) (ci cj : ResolveRequest) :
  at_ (requests tr) i = Ok ci -> at_ (requests tr) j = Ok cj ->
  validPos ci -> validPos cj ->
  Less tr i j = Ok (lexBefore ci cj).
Proof.
  intros Hi Hj Vi Vj. unfold Less. rewrite Hi, Hj. cbn [rbind].
  now apply lessRequests_lex.
Qed.

Lemma Less_lexicographic_witness :
  Less (set_requests [exampleGeneral; exampleSpecific] (NewResolver false true 0)) 0 1
  = Ok (lexBefore exampleGeneral exampleSpecific).
Proof.
  apply Less_lexicographic; try reflexivity; unfold validPos; cbn; lia.
Defined.

Lemma ltb0_iff (a b : bytes) :
  (bytesCompare a b <? 0)%Z = true <-> bytesCompare a b = (-1)%Z.
Proof.
  rewrite Z.ltb_lt. destruct (bytesCompare_range a b) as [H|[H|H]]; rewrite H; lia.
Qed.

Lemma lexBefore_true (a b : ResolveRequest) :
  lexBefore a b = true <->
  bytesCompare (keyBytes (contract a)) (keyBytes (contract b)) = (-1)%Z \/
  (keyBytes (contract a) = keyBytes (contract b) /\
   bytesCompare (requestPrefix a) (requestPrefix b) = (-1)%Z).
Proof.
  unfold lexBefore.
  destruct (Z.eqb_spec (bytesCompare (keyBytes (contract a)) (keyBytes (contract b))) 0)
    as [E|E]; cbn [negb].
  - rewrite ltb0_iff. split.
    + intros H. right. split; [now apply bytesCompare_eq|exact H].
    + intros [H|[_ H]]; [rewrite H in E; discriminate E|exact H].
  - rewrite ltb0_iff. split; [now left|].
    intros [H|[H _]]; [exact H|]. rewrite H, bytesCompare_refl in E. now destruct E.
Qed.

(** X14.  On requests whose positions lie within their keys, [Less] is a
    strict order: no request is less than itself, two requests are never
    each less than the other, and the order is transitive, as sorting
    requires. *)
Theorem lessRequests_strict_order (a b c : ResolveRequest) :
  validPos a -> validPos b -> validPos c ->
  lessRequests a a = Ok false /\
  (lessRequests a b = Ok true -> lessRequests b a = Ok false) /\
  (lessRequests a b = Ok true -> lessRequests b c = Ok true ->
   lessRequests a c = Ok true).
Proof.
  intros Va Vb Vc.
  rewrite (lessRequests_lex a a), (lessRequests_lex a b), (lessRequests_lex b a),
    (lessRequests_lex b c), (lessRequests_lex a c) by assumption.
  split; [|split].
  - f_equal. unfold lexBefore. now rewrite !bytesCompare_refl.
  - intros [= H]. f_equal. apply lexBefore_true in H.
    destruct (lexBefore b a) eqn:E; [|reflexivity].
    apply lexBefore_true in E.
    destruct H as [H|[H1 H2]], E as [E|[E1 E2]].
    + rewrite bytesCompare_antisym, H in E. discriminate E.
    + rewrite E1, bytesCompare_refl in H. discriminate H.
    + rewrite H1, bytesCompare_refl in E. discriminate E.
    + rewrite bytesCompare_antisym, H2 in E2. discriminate E2.
  - intros [= H1] [= H2]. f_equal. apply lexBefore_true.
    apply lexBefore_true in H1, H2.
    destruct H1 as [H1|[H1 H1']], H2 as [H2|[H2 H2']].
    + left. eapply bytesCompare_lt_trans; eassumption.
    + left. now rewrite <- H2.
    + left. now rewrite H1.
    + right. split; [congruence|]. eapply bytesCompare_lt_trans; eassumption.
Qed.

Lemma lessRequests_strict_order_witness :
  lessRequests exampleGeneral exampleGeneral = Ok false /\
  (lessRequests exampleGeneral exampleSpecific = Ok true ->
   lessRequests exampleSpecific exampleGeneral = Ok false) /\
  (lessRequests exampleGeneral exampleSpecific = Ok true ->
   lessRequests exampleSpecific exampleRequest = Ok true ->
   lessRequests exampleGeneral exampleRequest = Ok true).
Proof.
  apply lessRequests_strict_order; unfold validPos; cbn; lia.
Defined.

Lemma bytesCompare_app (a t : bytes) : t <> [] -> bytesCompare a (a ++ t) = (-1)%Z.
Proof.
  intros Ht. induction a as [|x a IH]; cbn [app bytesCompare].
  - destruct t; [congruence|reflexivity].
  - now rewrite N.ltb_irrefl.
Qed.

(** X15.  More general requests come first: of two requests for the same
    contract, one whose key prefix is a proper prefix of the other's is
    less than the other, and the other is not less than it. *)
Theorem Less_general_first (a b : ResolveRequest) (ext : bytes) :
  validPos a -> validPos b ->
  keyBytes (contract a) = keyBytes (contract b) ->
  requestPrefix b = requestPrefix a ++ ext -> ext <> [] ->
  lessRequests a b = Ok true /\ lessRequests b a = Ok false.
Proof.
  intros Va Vb HC HP Hext.
  rewrite (lessRequests_lex a b), (lessRequests_lex b a) by assumption.
  unfold lexBefore. rewrite HC, bytesCompare_refl. cbn [Z.eqb negb].
  rewrite HP, (bytesCompare_antisym (requestPrefix a)), bytesCompare_app by exact Hext.
  split; reflexivity.
Qed.


Lemma Less_general_first_witness :
  lessRequests exampleGeneral exampleSpecific = Ok true /\
  lessRequests exampleSpecific exampleGeneral = Ok false.
Proof.
  apply (Less_general_first exampleGeneral exampleSpecific [x02]).
  - unfold validPos; cbn; lia.
  - unfold validPos; cbn; lia.
  - reflexivity.
  - reflexivity.
  - intros H; discriminate H.
Defined.

(** *** [AddRequest] *)

Lemma keybytesToHex_nibbles (c : bytes) : keybytesToHex c = nibbles c ++ [x10].
Proof. reflexivity. Qed.

Lemma length_nibbles (c : bytes) : length (nibbles c) = (2 * length c)%nat.
Proof.
  unfold nibbles. induction c as [|b c IH]; [reflexivity|].
  cbn [flat_map app length]. rewrite IH. lia.
Qed.

Lemma take_nibbles (c : bytes) : forall n,
  take (2 * n) (nibbles c) = nibbles (take n c).
Proof.
  unfold nibbles. induction c as [|b c IH]; intros [|n].
  - reflexivity.
  - reflexivity.
  - reflexivity.
  - replace (2 * S n)%nat with (S (S (2 * n))) by lia.
    cbn [flat_map app take]. now rewrite IH.
Qed.

(** X16.  [AddRequest] appends the request and one resolve key.  For a
    request without contract the key is the request's own; for a request
    with a contract of at least 20 bytes it is the 40 nibbles of the first
    20 bytes of the contract followed by the request's key; with a shorter
    contract [AddRequest] panics.  Requests and resolve keys so stay equal
    in number. *)
Theorem AddRequest_appends (tr : TrieResolver) (req : ResolveRequest) :
  AddRequest tr req
  = match contract req with
    | None =>
        Ok (set_resolveHexes (resolveHexes tr ++ [resolveHex req])
              (set_requests (requests tr ++ [req]) tr))
    | Some c =>
        if (length c <? 20)%nat then Err PanicIndexOutOfRange
        else Ok (set_resolveHexes
                   (resolveHexes tr ++ [nibbles (take 20 c) ++ resolveHex req])
                   (set_requests (requests tr ++ [req]) tr))
    end /\
  (forall tr', AddRequest tr req = Ok tr' ->
     length (requests tr) = length (resolveHexes tr) ->
     length (requests tr') = length (resolveHexes tr')).
Proof.
  assert (E : AddRequest tr req
    = match contract req with
      | None =>
          Ok (set_resolveHexes (resolveHexes tr ++ [resolveHex req])
                (set_requests (requests tr ++ [req]) tr))
      | Some c =>
          if (length c <? 20)%nat then Err PanicIndexOutOfRange
          else Ok (set_resolveHexes
                     (resolveHexes tr ++ [nibbles (take 20 c) ++ resolveHex req])
                     (set_requests (requests tr ++ [req]) tr))
      end).
  { unfold AddRequest. destruct (contract req) as [c|]; [|reflexivity].
    unfold sliceTo. rewrite keybytesToHex_nibbles, length_app, length_nibbles.
    cbn [length]. destruct (Z.ltb_spec 40 0); [lia|].
    destruct (Nat.ltb_spec (length c) 20) as [L|L].
    - destruct (Z.ltb_spec (Z.of_nat (2 * length c + 1)) 40); [reflexivity|lia].
    - destruct (Z.ltb_spec (Z.of_nat (2 * length c + 1)) 40); [lia|]. cbn [rbind].
      rewrite take_app_le by (rewrite length_nibbles; lia).
      change (Z.to_nat 40) with (2 * 20)%nat. now rewrite take_nibbles. }
  split; [exact E|]. intros tr' H HL. rewrite E in H.
  destruct (contract req) as [c|].
  - destruct (length c <? 20)%nat; [discriminate H|]. injection H as <-.
    cbn. rewrite !length_app, HL. reflexivity.
  - injection H as <-. cbn. rewrite !length_app, HL. reflexivity.
Qed.


(** *** [PrepareResolveParams] *)

Lemma hasPrefix_refl (s : bytes) : hasPrefix s s = true.
Proof.
  induction s as [|x s IH]; [reflexivity|]. cbn [hasPrefix].
  rewrite IH, andb_true_r. now apply Byte.byte_dec_lb.
Qed.

Lemma byte_eqb_eq (x y : byte) : Byte.eqb x y = true -> x = y.
Proof. apply Byte.byte_dec_bl. Qed.

Lemma hasPrefix_app (p : bytes) : forall s,
  hasPrefix s p = true <-> exists t, s = p ++ t.
Proof.
  induction p as [|x p IH]; intros s.
  - split; [intros _; now exists s|]. intros _. now destruct s.
  - destruct s as [|y s]; cbn [hasPrefix].
    + split; [intros H; discriminate H|]. intros [t H]. discriminate H.
    + rewrite andb_true_iff, IH. split.
      * intros [E [t ->]]. apply byte_eqb_eq in E. subst y. now exists t.
      * intros [t H]. injection H as -> ->. split; [|now exists t].
        now apply Byte.byte_dec_lb.
Qed.

Lemma hasPrefix_trans (a b c : bytes) :
  hasPrefix a b = true -> hasPrefix b c = true -> hasPrefix a c = true.
Proof.
  rewrite !hasPrefix_app. intros [t ->] [u ->]. exists (u ++ t).
  now rewrite app_assoc.
Qed.

Lemma dropPrefixes_cons (h next : bytes) (rest : list bytes) :
  dropPrefixes (h :: next :: rest)
  = if hasPrefix next h then dropPrefixes (next :: rest)
    else h :: dropPrefixes (next :: rest).
Proof. reflexivity. Qed.

Lemma dropPrefixes_covers (l : list bytes) : forall h,
  In h l -> exists h', In h' (dropPrefixes l) /\ hasPrefix h' h = true.
Proof.
  induction l as [|h0 rest IH]; intros h Hin; [destruct Hin|].
  destruct rest as [|next rest'].
  - destruct Hin as [<-|[]]. exists h0. split; [now left|apply hasPrefix_refl].
  - rewrite dropPrefixes_cons. destruct (hasPrefix next h0) eqn:EP.
    + destruct Hin as [<-|Hin].
      * destruct (IH next (or_introl eq_refl)) as (h' & H1 & H2).
        exists h'. split; [exact H1|]. eapply hasPrefix_trans; eassumption.
      * apply IH, Hin.
    + destruct Hin as [<-|Hin].
      * exists h0. split; [now left|apply hasPrefix_refl].
      * destruct (IH h Hin) as (h' & H1 & H2). exists h'. split; [now right|exact H2].
Qed.

Lemma dropPrefixes_sub (l : list bytes) : forall h,
  In h (dropPrefixes l) -> In h l.
Proof.
  induction l as [|h0 rest IH]; intros h Hin; [destruct Hin|].
  destruct rest as [|next rest'].
  - exact Hin.
  - rewrite dropPrefixes_cons in Hin. destruct (hasPrefix next h0).
    + right. apply IH, Hin.
    + destruct Hin as [<-|Hin]; [now left|]. right. apply IH, Hin.
Qed.

Lemma insertHex_In (x : bytes) (l : list bytes) : forall h,
  In h (insertHex x l) <-> h = x \/ In h l.
Proof.
  induction l as [|y l IH]; intros h; cbn [insertHex].
  - cbn. intuition congruence.
  - destruct (bytesCompare x y <? 0)%Z; cbn [In].
    + intuition congruence.
    + rewrite IH. intuition congruence.
Qed.

Lemma sortHexes_In (l : list bytes) : forall h, In h (sortHexes l) <-> In h l.
Proof.
  unfold sortHexes. induction l as [|x l IH]; intros h; cbn [fold_right].
  - reflexivity.
  - rewrite insertHex_In, IH. cbn [In]. intuition congruence.
Qed.


Lemma bytesCompare_le_trans (a b c : bytes) :
  bytesCompare a b <> 1%Z -> bytesCompare b c <> 1%Z -> bytesCompare a c <> 1%Z.
Proof.
  intros H1 H2.
  destruct (bytesCompare_range a b) as [E1|[E1|E1]]; [| |congruence].
  - destruct (bytesCompare_range b c) as [E2|[E2|E2]]; [| |congruence].
    + rewrite (bytesCompare_lt_trans a b c E1 E2). lia.
    + apply bytesCompare_eq in E2. subst c. rewrite E1. lia.
  - apply bytesCompare_eq in E1. now subst b.
Qed.

Lemma insertHex_nondecreasing (x : bytes) (l : list bytes) :
  nondecreasing l -> nondecreasing (insertHex x l).
Proof.
  induction l as [|y l IH]; intros Hl; cbn [insertHex].
  - cbn. split; [intros z []|exact I].
  - destruct Hl as [Hy Hl].
    destruct (Z.ltb_spec (bytesCompare x y) 0) as [L|L].
    + cbn [nondecreasing]. split; [|split; assumption].
      intros z [<-|Hz]; [lia|].
      apply (bytesCompare_le_trans x y z); [lia|now apply Hy].
    + cbn [nondecreasing]. split; [|now apply IH].
      intros z Hz. apply insertHex_In in Hz as [->|Hz]; [|now apply Hy].
      rewrite bytesCompare_antisym. lia.
Qed.

Lemma sortHexes_nondecreasing (l : list bytes) : nondecreasing (sortHexes l).
Proof.
  unfold sortHexes. induction l as [|x l IH]; cbn [fold_right]; [exact I|].
  now apply insertHex_nondecreasing.
Qed.

(** What lies between a byte string and one of its extensions begins with it. *)
Lemma between_hasPrefix (h : bytes) : forall next t,
  bytesCompare h next <> 1%Z -> bytesCompare next (h ++ t) <> 1%Z ->
  hasPrefix next h = true.
Proof.
  induction h as [|a h IH]; intros next t H1 H2.
  - now destruct next.
  - destruct next as [|b next]; cbn [app bytesCompare hasPrefix] in *; [congruence|].
    destruct (N.ltb_spec (b2n a) (b2n b)) as [L1|L1].
    + destruct (N.ltb_spec (b2n b) (b2n a)); [lia|].
      destruct (N.ltb_spec (b2n a) (b2n b)); [congruence|lia].
    + destruct (N.ltb_spec (b2n b) (b2n a)) as [L2|L2]; [congruence|].
      assert (E : a = b) by (apply b2n_inj; lia). subst b.
      rewrite (IH next t H1 H2), andb_true_r. now apply Byte.byte_dec_lb.
Qed.

Lemma dropPrefixes_separated (l : list bytes) :
  nondecreasing l -> separated (dropPrefixes l).
Proof.
  induction l as [|h rest IH]; intros Hl; [exact I|].
  destruct Hl as [Hh Hrest]. destruct rest as [|next rest'].
  - cbn. split; [intros x []|exact I].
  - rewrite dropPrefixes_cons. destruct (hasPrefix next h) eqn:EP; [now apply IH|].
    cbn [separated]. split; [|now apply IH].
    intros x Hx. apply dropPrefixes_sub in Hx.
    assert (Hnx : bytesCompare next x <> 1%Z).
    { destruct Hx as [<-|Hx]; [rewrite bytesCompare_refl; lia|].
      destruct Hrest as [Hn _]. now apply Hn. }
    assert (Hhn : bytesCompare h next <> 1%Z) by (apply Hh; now left).
    assert (NP : hasPrefix x h = false).
    { destruct (hasPrefix x h) eqn:E; [|reflexivity].
      apply hasPrefix_app in E as [t ->].
      rewrite (between_hasPrefix h next t Hhn Hnx) in EP. discriminate EP. }
    split; [|exact NP].
    destruct (bytesCompare_range h x) as [E|[E|E]]; [exact E| |].
    + apply bytesCompare_eq in E. subst x. rewrite hasPrefix_refl in NP. discriminate NP.
    + specialize (Hh x Hx). congruence.
Qed.

Lemma insertRequest_length (r : ResolveRequest) (l : list ResolveRequest) :
  forall l', insertRequest r l = Ok l' -> length l' = S (length l).
Proof.
  induction l as [|x l IHl]; intros l' H; cbn [insertRequest] in H.
  - now injection H as <-.
  - destruct (lessRequests r x) as [[|]|]; cbn [rbind] in H; try discriminate H.
    + now injection H as <-.
    + destruct (insertRequest r l) as [rest|]; cbn [rbind] in H; [|discriminate H].
      injection H as <-. cbn [length]. now rewrite (IHl rest eq_refl).
Qed.

Lemma fold_insert_err (l : list ResolveRequest) (e : fault) :
  fold_left (fun acc r => s <-- acc ;; insertRequest r s) l (Err e) = Err e.
Proof. induction l as [|r l IH]; [reflexivity|exact IH]. Qed.

Lemma fold_insert_length (l : list ResolveRequest) :
  forall acc out,
    fold_left (fun acc r => s <-- acc ;; insertRequest r s) l (Ok acc) = Ok out ->
    length out = (length acc + length l)%nat.
Proof.
  induction l as [|r l IHl]; intros acc out H; cbn [fold_left] in H.
  - injection H as <-. cbn. lia.
  - cbn [rbind] in H. destruct (insertRequest r acc) as [acc'|e] eqn:EI.
    + rewrite (IHl _ _ H), (insertRequest_length _ _ _ EI). cbn [length]. lia.
    + rewrite fold_insert_err in H. discriminate H.
Qed.

Lemma sortStable_length (l out : list ResolveRequest) :
  sortStable l = Ok out -> length out = length l.
Proof. intros H. apply fold_insert_length in H. exact H. Qed.

Section PrepareProps.
Variable decodeNibbles : bytes -> bytes -> result fault bytes.

Local Abbreviation PrepareResolveParams' := (PrepareResolveParams decodeNibbles).
Local Abbreviation selectRequests' := (selectRequests decodeNibbles).

(** X17.  [PrepareResolveParams] leaves the resolve keys in strictly
    ascending order, with no key beginning with an earlier one; every key
    it keeps was there before, and every key that was there is the
    beginning of one it keeps. *)
Theorem PrepareResolveParams_hexes (tr tr' : TrieResolver)
    (startkeys : list bytes) (fixedbits : list N) :
  requests tr <> [] ->
  PrepareResolveParams' tr = Ok (tr', startkeys, fixedbits) ->
  separated (resolveHexes tr') /\
  (forall h', In h' (resolveHexes tr') -> In h' (resolveHexes tr)) /\
  (forall h, In h (resolveHexes tr) ->
     exists h', In h' (resolveHexes tr') /\ hasPrefix h' h = true).
Proof.
  intros Hne H. unfold PrepareResolveParams in H.
  destruct (requests tr) as [|r0 rs]; [congruence|].
  destruct (sortStable (r0 :: rs)) as [sorted|]; cbn [rbind] in H; [|discriminate H].
  destruct (selectRequests' sorted 0 None) as [[[[reqs idx] sk] fb]|];
    cbn [rbind] in H; [|discriminate H].
  destruct (at_ reqs 0) as [first|]; cbn [rbind] in H; [|discriminate H].
  injection H as <- _ _. cbn [resolveHexes set_startLevel set_reqIndices set_resolveHexes].
  split; [apply dropPrefixes_separated, sortHexes_nondecreasing|]. split.
  - intros h' Hin. apply sortHexes_In, dropPrefixes_sub, Hin.
  - intros h Hin. apply dropPrefixes_covers, sortHexes_In, Hin.
Qed.

Lemma selectRequests_spec (reqs : list ResolveRequest) :
  forall i prev rs idx sk fb,
    selectRequests' reqs i prev = Ok (rs, idx, sk, fb) ->
    length rs = length reqs /\ length sk = length idx /\ length fb = length idx /\
    (prev = None -> reqs <> [] -> head idx = Some i) /\
    forall n r', rs !! n = Some r' ->
      (In (i + Z.of_nat n)%Z idx /\ extResolvePos r' = extendedPos r') \/
      (exists p, contained r' p = Ok true /\
         (prev = Some p \/
          exists m, (m < n)%nat /\ rs !! m = Some p /\ In (i + Z.of_nat m)%Z idx)).
Proof.
  induction reqs as [|req rest IH]; intros i prev rs idx sk fb H;
    cbn [selectRequests] in H.
  - injection H as <- <- <- <-. repeat split; try congruence.
    intros n r' Hn. destruct n; discriminate Hn.
  - assert (Step : forall chosen,
      (if chosen : bool then
         nibbles <-- sliceTo (resolveHex req) (resolvePos req) ;;
         tail <-- decodeNibbles nibbles (replicate 32 x00) ;;
         '(rs, idx, sk, fb) <--
           selectRequests' rest (i + 1)%Z
             (Some (set_extResolvePos
                      (resolvePos req
                       + 2 * Z.of_nat (length (keyBytes (contract req))))%Z req)) ;;
         Ok (set_extResolvePos
               (resolvePos req + 2 * Z.of_nat (length (keyBytes (contract req))))%Z req
               :: rs, i :: idx, (keyBytes (contract req) ++ tail) :: sk,
             Z.to_N ((4 * extResolvePos
                            (set_extResolvePos
                               (resolvePos req
                                + 2 * Z.of_nat (length (keyBytes (contract req))))%Z
                               req)) mod 2 ^ 64)%Z :: fb)
       else
         '(rs, idx, sk, fb) <-- selectRequests' rest (i + 1)%Z prev ;;
         Ok (req :: rs, idx, sk, fb)) = Ok (rs, idx, sk, fb) ->
      (chosen = false -> exists p, prev = Some p /\ contained req p = Ok true) ->
      (prev = None -> chosen = true) ->
      length rs = length (req :: rest) /\ length sk = length idx /\
      length fb = length idx /\
      (prev = None -> req :: rest <> [] -> head idx = Some i) /\
      forall n r', rs !! n = Some r' ->
        (In (i + Z.of_nat n)%Z idx /\ extResolvePos r' = extendedPos r') \/
        (exists p, contained r' p = Ok true /\
           (prev = Some p \/
            exists m, (m < n)%nat /\ rs !! m = Some p /\ In (i + Z.of_nat m)%Z idx))).
    { intros [|] HS Hcov Hnone.
      - destruct (sliceTo (resolveHex req) (resolvePos req)) as [nib|]; cbn [rbind] in HS;
          [|discriminate HS].
        destruct (decodeNibbles nib (replicate 32 x00)) as [tail|]; cbn [rbind] in HS;
          [|discriminate HS].
        match type of HS with
        | context [selectRequests' rest ?j ?q] =>
            destruct (selectRequests' rest j q) as [[[[rs0 idx0] sk0] fb0]|] eqn:E;
              cbn [rbind] in HS; [|discriminate HS];
            destruct (IH _ _ _ _ _ _ E) as (L1 & L2 & L3 & _ & Hall)
        end.
        injection HS as <- <- <- <-. cbn [length head].
        repeat split; try congruence.
        intros [|n] r' Hn.
        + injection Hn as <-. left. split; [left; lia|reflexivity].
        + destruct (Hall n r' Hn) as [[Hin He]|(p & Hc & Hp)].
          * left. split; [right|exact He].
            replace (i + Z.of_nat (S n))%Z with (i + 1 + Z.of_nat n)%Z by lia.
            exact Hin.
          * right. exists p. split; [exact Hc|]. right.
            destruct Hp as [[= <-]|(m & Hm & Hrm & Him)].
            -- exists 0%nat. split; [lia|]. split; [reflexivity|]. left. lia.
            -- exists (S m). split; [lia|]. split; [exact Hrm|]. right.
               replace (i + Z.of_nat (S m))%Z with (i + 1 + Z.of_nat m)%Z by lia.
               exact Him.
      - destruct (selectRequests' rest (i + 1)%Z prev) as [[[[rs0 idx0] sk0] fb0]|] eqn:E;
          cbn [rbind] in HS; [|discriminate HS].
        destruct (IH _ _ _ _ _ _ E) as (L1 & L2 & L3 & _ & Hall).
        injection HS as <- <- <- <-. cbn [length].
        split; [congruence|]. split; [exact L2|]. split; [exact L3|].
        split; [intros Hp; specialize (Hnone Hp); discriminate Hnone|].
        intros [|n] r' Hn.
        + injection Hn as <-. right. destruct (Hcov eq_refl) as (p & Hp & Hc).
          exists p. split; [exact Hc|now left].
        + destruct (Hall n r' Hn) as [[Hin He]|(p & Hc & Hp)].
          * left. split; [|exact He].
            replace (i + Z.of_nat (S n))%Z with (i + 1 + Z.of_nat n)%Z by lia.
            exact Hin.
          * right. exists p. split; [exact Hc|].
            destruct Hp as [Hp|(m & Hm & Hrm & Him)]; [now left|]. right.
            exists (S m). split; [lia|]. split; [exact Hrm|].
            replace (i + Z.of_nat (S m))%Z with (i + 1 + Z.of_nat m)%Z by lia.
            exact Him. }
    destruct prev as [p|].
    + destruct (contained req p) as [c|] eqn:EC; cbn [rbind] in H; [|discriminate H].
      apply (Step (negb c)); [exact H| |intros X; discriminate X].
      intros Hc. exists p. split; [reflexivity|]. destruct c; [exact EC|discriminate Hc].
    + cbn [rbind] in H. apply (Step true); [exact H|intros X; discriminate X|reflexivity].
Qed.

(** X18.  [PrepareResolveParams] drops a request only if it lies within a
    request chosen before it: of the sorted requests the first is always
    chosen, every chosen one gets its extended position (the resolve
    position plus two nibbles for each byte of the contract) and one start
    key and one number of fixed bits, and every other one has the contract
    of an earlier chosen request, a position not before its position, and
    a key prefix that begins with its key prefix.  The start level becomes
    the extended position of the first request. *)
Theorem PrepareResolveParams_requests (tr tr' : TrieResolver)
    (startkeys : list bytes) (fixedbits : list N) :
  requests tr <> [] ->
  PrepareResolveParams' tr = Ok (tr', startkeys, fixedbits) ->
  exists idx first,
    reqIndices tr' = reqIndices tr ++ idx /\
    length startkeys = length idx /\ length fixedbits = length idx /\
    head idx = Some 0%Z /\
    requests tr' !! 0%nat = Some first /\ startLevel tr' = extResolvePos first /\
    length (requests tr') = length (requests tr) /\
    forall n r', requests tr' !! n = Some r' ->
      (In (Z.of_nat n) idx /\ extResolvePos r' = extendedPos r') \/
      (exists m p, (m < n)%nat /\ In (Z.of_nat m) idx /\
         requests tr' !! m = Some p /\ contained r' p = Ok true).
Proof.
  intros Hne H. unfold PrepareResolveParams in H.
  destruct (requests tr) as [|r0 rs] eqn:ER; [congruence|].
  destruct (sortStable (r0 :: rs)) as [sorted|] eqn:ES; cbn [rbind] in H;
    [|discriminate H].
  destruct (selectRequests' sorted 0 None) as [[[[reqs idx] sk] fb]|] eqn:E;
    cbn [rbind] in H; [|discriminate H].
  destruct (at_ reqs 0) as [first|] eqn:EF; cbn [rbind] in H; [|discriminate H].
  injection H as <- <- <-.
  destruct (selectRequests_spec sorted 0 None reqs idx sk fb E)
    as (L1 & L2 & L3 & Hhead & Hall).
  pose proof (sortStable_length _ _ ES) as Lsorted.
  exists idx, first.
  cbn [reqIndices requests startLevel set_startLevel set_reqIndices set_resolveHexes
       set_requests].
  split; [reflexivity|]. split; [exact L2|]. split; [exact L3|].
  assert (Hs : sorted <> []).
  { intros ->. cbn in Lsorted. lia. }
  split; [apply Hhead; [reflexivity|exact Hs]|].
  split.
  { unfold at_ in EF. cbn in EF. destruct reqs; [discriminate EF|].
    now injection EF as ->. }
  split; [reflexivity|]. split; [congruence|].
  intros n r' Hn. destruct (Hall n r' Hn) as [[Hin He]|(p & Hc & Hp)].
  - left. split; [|exact He]. now rewrite Z.add_0_l in Hin.
  - right. destruct Hp as [Hp|(m & Hm & Hrm & Him)]; [discriminate Hp|].
    exists m, p. rewrite Z.add_0_l in Him. repeat split; assumption.
Qed.

End PrepareProps.

Lemma PrepareResolveParams_hexes_witness :
  separated (resolveHexes (fst (fst examplePrepared))) /\
  (forall h', In h' (resolveHexes (fst (fst examplePrepared))) ->
     In h' (resolveHexes exampleRequests)) /\
  (forall h, In h (resolveHexes exampleRequests) ->
     exists h', In h' (resolveHexes (fst (fst examplePrepared)))
                /\ hasPrefix h' h = true).
Proof.
  apply (PrepareResolveParams_hexes noNibbles exampleRequests
           (fst (fst examplePrepared)) (snd (fst examplePrepared))
           (snd examplePrepared)).
  - intros H. discriminate H.
  - vm_compute. reflexivity.
Defined.

Lemma PrepareResolveParams_requests_witness :
  exists idx first,
    reqIndices (fst (fst examplePrepared)) = reqIndices exampleRequests ++ idx /\
    length (snd (fst examplePrepared)) = length idx /\
    length (snd examplePrepared) = length idx /\
    head idx = Some 0%Z /\
    requests (fst (fst examplePrepared)) !! 0%nat = Some first /\
    startLevel (fst (fst examplePrepared)) = extResolvePos first /\
    length (requests (fst (fst examplePrepared))) = length (requests exampleRequests) /\
    forall n r', requests (fst (fst examplePrepared)) !! n = Some r' ->
      (In (Z.of_nat n) idx /\ extResolvePos r' = extendedPos r') \/
      (exists m p, (m < n)%nat /\ In (Z.of_nat m) idx /\
         requests (fst (fst examplePrepared)) !! m = Some p /\
         contained r' p = Ok true).
Proof.
  apply (PrepareResolveParams_requests noNibbles exampleRequests
           (fst (fst examplePrepared)) (snd (fst examplePrepared))
           (snd examplePrepared)).
  - intros H. discriminate H.
  - vm_compute. reflexivity.
Defined.

End resolverProps.

(** ** The resolver: folding keys into nodes *)

Module resolverMore.
Import trie resolver resolver_spec resolverFacts.

(** Inversion of a computation that returned, from the outside in. *)
Ltac crunch H :=
  repeat match type of H with
    | Err _ = Ok _ => discriminate H
    | rbind ?x _ = Ok _ => destruct x; cbn [rbind] in H; [|discriminate H]
    | (let (_, _) := ?x in _) = Ok _ => destruct x
    | match ?x with Some _ => _ | None => _ end = Ok _ => destruct x
    | match ?x with Ok _ => _ | Err _ => _ end = Ok _ => destruct x
    | (if ?c then _ else _) = Ok _ => destruct c
    end.

Lemma splice_keeps (req req' : ResolveRequest) (r : node) :
  splice req r = Ok req' ->
  contract req' = contract req /\ resolveHex req' = resolveHex req /\
  resolvePos req' = resolvePos req /\ extResolvePos req' = extResolvePos req /\
  resolveHash req' = resolveHash req /\ resolved req' = resolved req.
Proof.
  unfold splice. intros H.
  destruct (resolveParent req) as [|v|pk pv|mask c1 c2|cs|n b ro ch st|h].
  - destruct (isHashNode (root (t req))); injection H as <-; repeat split.
  - injection H as <-; repeat split.
  - destruct (isHashNode pv); injection H as <-; repeat split.
  - destruct (childrenIdx mask) as [i1 i2].
    destruct (at_ (resolveHex req) (resolvePos req - 1)) as [nib|]; cbn [rbind] in H;
      [|discriminate H].
    destruct (b2n nib =? i1); [|destruct (b2n nib =? i2)].
    + destruct (isHashNode c1); injection H as <-; repeat split.
    + destruct (isHashNode c2); injection H as <-; repeat split.
    + injection H as <-; repeat split.
  - destruct (at_ (resolveHex req) (resolvePos req - 1)) as [idx|]; cbn [rbind] in H;
      [|discriminate H].
    destruct (at_ cs (b2z idx)) as [child|]; cbn [rbind] in H; [|discriminate H].
    destruct (isHashNode child).
    + destruct (put_ cs (b2z idx) r) as [cs'|]; cbn [rbind] in H; [|discriminate H].
      injection H as <-; repeat split.
    + injection H as <-; repeat split.
  - injection H as <-; repeat split.
  - injection H as <-; repeat split.
Qed.

(** X19.  A slot that has been resolved is not overwritten: once [splice]
    has run with a root that is not a hash node, running it again for the
    same request, with whatever root, changes nothing. *)
Theorem splice_once (req req1 : ResolveRequest) (r r' : node) :
  splice req r = Ok req1 -> isHashNode r = false ->
  splice req1 r' = Ok req1.
Proof.
  unfold splice. intros H Hr.
  destruct (resolveParent req) as [|v|pk pv|mask c1 c2|cs|n b ro ch st|h] eqn:EP.
  - destruct (isHashNode (root (t req))) eqn:EH; injection H as <-; cbn.
    + rewrite ?EP, Hr. reflexivity.
    + rewrite ?EP, EH. reflexivity.
  - injection H as <-. rewrite ?EP. reflexivity.
  - destruct (isHashNode pv) eqn:EH; injection H as <-; cbn.
    + rewrite Hr. reflexivity.
    + rewrite ?EP, EH. reflexivity.
  - destruct (childrenIdx mask) as [i1 i2] eqn:EI.
    destruct (at_ (resolveHex req) (resolvePos req - 1)) as [nib|] eqn:EN;
      cbn [rbind] in H; [|discriminate H].
    destruct (b2n nib =? i1) eqn:E1.
    + destruct (isHashNode c1) eqn:EH; injection H as <-; cbn.
      * rewrite ?EI, ?EN. cbn [rbind]. rewrite E1, Hr. reflexivity.
      * rewrite ?EP, ?EI, ?EN. cbn [rbind]. rewrite E1, EH. reflexivity.
    + destruct (b2n nib =? i2) eqn:E2.
      * destruct (isHashNode c2) eqn:EH; injection H as <-; cbn.
        -- rewrite ?EI, ?EN. cbn [rbind]. rewrite E1, E2, Hr. reflexivity.
        -- rewrite ?EP, ?EI, ?EN. cbn [rbind]. rewrite E1, E2, EH. reflexivity.
      * injection H as <-. rewrite ?EP, ?EI, ?EN. cbn [rbind]. rewrite E1, E2. reflexivity.
  - destruct (at_ (resolveHex req) (resolvePos req - 1)) as [idx|] eqn:EN;
      cbn [rbind] in H; [|discriminate H].
    destruct (at_ cs (b2z idx)) as [child|] eqn:EC; cbn [rbind] in H; [|discriminate H].
    destruct (isHashNode child) eqn:EH.
    + destruct (put_ cs (b2z idx) r) as [cs'|] eqn:EPut; cbn [rbind] in H;
        [|discriminate H].
      injection H as <-. cbn. rewrite ?EN. cbn [rbind].
      destruct (at_put _ _ _ _ EPut) as [EA _]. rewrite EA. cbn [rbind].
      rewrite Hr. reflexivity.
    + injection H as <-. rewrite ?EP, ?EN. cbn [rbind]. rewrite EC. cbn [rbind].
      rewrite EH. reflexivity.
  - injection H as <-. rewrite ?EP. reflexivity.
  - injection H as <-. rewrite ?EP. reflexivity.
Qed.

Lemma splice_once_witness :
  splice (mkResolveRequest (mkTrie trie_spec.exampleLeaf) None [] 0 0
            (Some (repeat xbb 32)) NilNode NilNode) (HashNode [])
  = Ok (mkResolveRequest (mkTrie trie_spec.exampleLeaf) None [] 0 0
          (Some (repeat xbb 32)) NilNode NilNode).
Proof.
  apply (splice_once exampleRequest _ trie_spec.exampleLeaf (HashNode [])).
  - reflexivity.
  - reflexivity.
Defined.

Lemma adjustRhIndices_post (fuel : nat) (hex : bytes) (rhs : list bytes) :
  forall lte gt resComp,
    (0 <= gt)%Z ->
    ((gt < Z.of_nat (length rhs))%Z ->
     exists h, at_ rhs gt = Ok h /\ resComp = bytesCompare hex h) ->
    (Z.of_nat (length rhs) - gt <= Z.of_nat fuel)%Z ->
    (snd (adjustRhIndices fuel hex rhs lte gt resComp)
     - fst (adjustRhIndices fuel hex rhs lte gt resComp) = gt - lte)%Z /\
    (gt <= snd (adjustRhIndices fuel hex rhs lte gt resComp))%Z /\
    (forall j, (gt <= j < snd (adjustRhIndices fuel hex rhs lte gt resComp))%Z ->
       exists hj, at_ rhs j = Ok hj /\ bytesCompare hex hj <> (-1)%Z) /\
    ((snd (adjustRhIndices fuel hex rhs lte gt resComp) < Z.of_nat (length rhs))%Z ->
     exists h', at_ rhs (snd (adjustRhIndices fuel hex rhs lte gt resComp)) = Ok h' /\
                bytesCompare hex h' = (-1)%Z).
Proof.
  induction fuel as [|f IH]; intros lte gt resComp Hgt Hres Hfuel.
  - cbn [adjustRhIndices fst snd]. split; [lia|]. split; [lia|].
    split; [intros j Hj; lia|]. intros Hlt. lia.
  - cbn [adjustRhIndices].
    destruct (Z.ltb_spec gt (Z.of_nat (length rhs))) as [Hlt|Hge]; cbn [andb].
    + destruct (Hres Hlt) as (h & Hh & ->).
      destruct (Z.eqb_spec (bytesCompare hex h) (-1)) as [E|E]; cbn [negb].
      * cbn [fst snd]. split; [lia|]. split; [lia|]. split; [intros j Hj; lia|].
        intros _. exists h. split; assumption.
      * match goal with
        | |- context [adjustRhIndices f hex rhs ?l ?g ?c] =>
            destruct (IH l g c) as (I1 & I2 & I3 & I4)
        end.
        -- lia.
        -- intros Hlt'. destruct (Z.ltb_spec (gt + 1) (Z.of_nat (length rhs))); [|lia].
           destruct (at_in_range rhs (gt + 1)) as [h' Hh']; [lia|].
           exists h'. rewrite Hh'. split; reflexivity.
        -- lia.
        -- split; [lia|]. split; [lia|]. split; [|exact I4].
           intros j Hj. destruct (Z.eq_dec j gt) as [->|Hne].
           ++ exists h. split; assumption.
           ++ apply I3. lia.
    + cbn [fst snd]. split; [lia|]. split; [lia|]. split; [intros j Hj; lia|].
      intros Hlt. lia.
Qed.

(** X20.  The loop of [finishPreviousKey] that moves the two indices into
    the resolve keys moves them together, past every resolve key that is
    not greater than the current key, and stops at the first one that is
    greater, or at the end of the resolve keys. *)
Theorem adjustRhIndices_stops_at_greater (hex : bytes) (rhs : list bytes)
    (lte gt : Z) (h : bytes) :
  (0 <= gt)%Z -> at_ rhs gt = Ok h ->
  exists lte' gt',
    adjustRhIndices (length rhs) hex rhs lte gt (bytesCompare hex h) = (lte', gt') /\
    (gt' - lte' = gt - lte)%Z /\ (gt <= gt' <= Z.of_nat (length rhs))%Z /\
    (forall j, (gt <= j < gt')%Z ->
       exists hj, at_ rhs j = Ok hj /\ bytesCompare hex hj <> (-1)%Z) /\
    ((gt' < Z.of_nat (length rhs))%Z ->
     exists h', at_ rhs gt' = Ok h' /\ bytesCompare hex h' = (-1)%Z).
Proof.
  intros Hgt Hh.
  destruct (adjustRhIndices_post (length rhs) hex rhs lte gt (bytesCompare hex h))
    as (P1 & P2 & P3 & P4).
  - exact Hgt.
  - intros _. exists h. split; [exact Hh|reflexivity].
  - lia.
  - destruct (adjustRhIndices (length rhs) hex rhs lte gt (bytesCompare hex h))
      as [lte' gt'] eqn:E. cbn [fst snd] in *.
    exists lte', gt'. split; [reflexivity|]. split; [exact P1|].
    split; [|split; [exact P3|exact P4]].
    split; [exact P2|].
    destruct (Z.le_gt_cases gt' (Z.of_nat (length rhs))) as [L|L]; [exact L|].
    exfalso.
    destruct (P3 (gt' - 1)%Z) as (hj & Hj & _).
    + split; [|lia].
      assert (gt < Z.of_nat (length rhs))%Z; [|lia].
      unfold at_ in Hh. destruct (gt <? 0)%Z; [discriminate Hh|].
      destruct (rhs !! Z.to_nat gt) eqn:EL; [|discriminate Hh].
      apply lookup_lt_Some in EL. lia.
    + unfold at_ in Hj. destruct (gt' - 1 <? 0)%Z; [discriminate Hj|].
      destruct (rhs !! Z.to_nat (gt' - 1)) eqn:EL; [|discriminate Hj].
      apply lookup_lt_Some in EL. lia.
Qed.

Lemma adjustRhIndices_stops_at_greater_witness :
  exists lte' gt',
    adjustRhIndices (length [[x01]; [x03]]) [x02] [[x01]; [x03]] (-1) 0
      (bytesCompare [x02] [x01]) = (lte', gt') /\
    (gt' - lte' = 0 - -1)%Z /\ (0 <= gt' <= Z.of_nat (length [[x01]; [x03]]))%Z /\
    (forall j, (0 <= j < gt')%Z ->
       exists hj, at_ [[x01]; [x03]] j = Ok hj /\ bytesCompare [x02] hj <> (-1)%Z) /\
    ((gt' < Z.of_nat (length [[x01]; [x03]]))%Z ->
     exists h', at_ [[x01]; [x03]] gt' = Ok h' /\ bytesCompare [x02] h' = (-1)%Z).
Proof.
  apply (adjustRhIndices_stops_at_greater [x02] [[x01]; [x03]] (-1) 0 [x01]).
  - lia.
  - reflexivity.
Defined.

(** Facts about bytes are checked on all 256 values. *)
Lemma lt256_cases (P : N -> bool) :
  forallb P (map N.of_nat (seq 0 256)) = true -> forall n, n < 256 -> P n = true.
Proof.
  intros H n Hn. rewrite forallb_forall in H. apply H.
  apply in_map_iff. exists (N.to_nat n). split; [lia|]. apply in_seq. lia.
Qed.

(** The test [(x ^ y) & 0xf0 == 0] compares the high nibbles. *)
Lemma high_nibble_test (x y : byte) :
  (N.land (N.lxor (b2n x) (b2n y)) 240 =? 0) = (b2n x / 16 =? b2n y / 16).
Proof.
  apply eqb_prop.
  assert (H : forallb
                (fun a => forallb
                            (fun b => Bool.eqb (N.land (N.lxor a b) 240 =? 0)
                                        (a / 16 =? b / 16))
                            (map N.of_nat (seq 0 256)))
                (map N.of_nat (seq 0 256)) = true)
    by (vm_compute; reflexivity).
  pose proof (lt256_cases _ H (b2n x) (b2n_bound x)) as Hx. cbn beta in Hx.
  exact (lt256_cases _ Hx (b2n y) (b2n_bound y)).
Qed.

Lemma prefixLen_nonneg (a : bytes) : forall b, (0 <= prefixLen a b)%Z.
Proof.
  induction a as [|x a IH]; intros [|y b]; cbn [prefixLen]; try lia.
  destruct (Byte.eqb x y); [specialize (IH b)|]; lia.
Qed.

Lemma at_cons {A} (x : A) (l : list A) (i : Z) :
  (0 <= i)%Z -> at_ (x :: l) (1 + i) = at_ l i.
Proof.
  intros H. unfold at_.
  destruct (Z.ltb_spec (1 + i) 0); [lia|]. destruct (Z.ltb_spec i 0); [lia|].
  replace (Z.to_nat (1 + i)) with (S (Z.to_nat i)) by lia. reflexivity.
Qed.

Lemma n2b_eqb (a b : N) : a < 256 -> b < 256 -> Byte.eqb (n2b a) (n2b b) = (a =? b).
Proof.
  intros Ha Hb. destruct (N.eqb_spec a b) as [->|Hne].
  - now apply Byte.byte_dec_lb.
  - destruct (Byte.eqb (n2b a) (n2b b)) eqn:E; [|reflexivity].
    apply Byte.byte_dec_bl in E. exfalso. apply Hne.
    rewrite <- (b2n_n2b a Ha), <- (b2n_n2b b Hb). now rewrite E.
Qed.

(** The nibbles that two keys share: two for each shared byte, and the
    high nibble of the first bytes in which they differ, if it is shared. *)
Lemma prefixLen_nibbles (a : bytes) : forall (b : bytes) (x y : byte),
  at_ a (prefixLen a b) = Ok x -> at_ b (prefixLen a b) = Ok y ->
  prefixLen (nibbles a) (nibbles b)
  = (2 * prefixLen a b + (if (b2n x / 16 =? b2n y / 16)%N then 1 else 0))%Z.
Proof.
  induction a as [|u a IH]; intros [|v b] x y Hx Hy;
    try (cbn in Hx; discriminate Hx); try (cbn in Hy; discriminate Hy).
  pose proof (b2n_bound u) as Bu. pose proof (b2n_bound v) as Bv.
  assert (Hu : b2n u / 16 < 256) by (apply N.Div0.div_lt_upper_bound; lia).
  assert (Hv : b2n v / 16 < 256) by (apply N.Div0.div_lt_upper_bound; lia).
  assert (Lu : b2n u mod 16 < 256) by (pose proof (N.mod_lt (b2n u) 16); lia).
  assert (Lv : b2n v mod 16 < 256) by (pose proof (N.mod_lt (b2n v) 16); lia).
  cbn [prefixLen] in Hx, Hy |- *. unfold nibbles. cbn [flat_map app prefixLen].
  fold (nibbles a). fold (nibbles b).
  rewrite !n2b_eqb by assumption.
  destruct (Byte.eqb u v) eqn:E.
  - apply Byte.byte_dec_bl in E. subst v. rewrite !N.eqb_refl.
    pose proof (prefixLen_nonneg a b).
    rewrite at_cons in Hx, Hy by assumption.
    rewrite (IH b x y Hx Hy). lia.
  - cbn in Hx, Hy. injection Hx as <-. injection Hy as <-.
    destruct (N.eqb_spec (b2n u / 16) (b2n v / 16)) as [Hhi|Hhi]; [|reflexivity].
    destruct (N.eqb_spec (b2n u mod 16) (b2n v mod 16)) as [Hlo|Hlo]; [|reflexivity].
    exfalso. assert (b2n u = b2n v).
    { rewrite (N.div_mod' (b2n u) 16), (N.div_mod' (b2n v) 16). now rewrite Hhi, Hlo. }
    apply b2n_inj in H. subst v.
    rewrite (Byte.byte_dec_lb eq_refl) in E. discriminate E.
Qed.

Section Folding.
Variable hasher_hash : node -> bool -> Z * bytes.
Variable hexToCompact : bytes -> bytes.
Variable compactToHex : bytes -> bytes.

Local Abbreviation finishLevels' := (finishLevels hasher_hash hexToCompact compactToHex).
Local Abbreviation finishRequest' := (finishRequest hasher_hash).
Local Abbreviation finishPreviousKey' :=
  (finishPreviousKey hasher_hash hexToCompact compactToHex).
Local Abbreviation Walker' := (Walker hasher_hash hexToCompact compactToHex).

Lemma finishRequest_sound (tr tr' : TrieResolver) :
  finishRequest' tr = Ok (tr', None) ->
  exists i req',
    at_ (reqIndices tr) (keyIdx tr) = Ok i /\
    at_ (requests tr') i = Ok req' /\
    isNilNode (resolved req') = false /\
    builtRoot tr req' = Ok (resolved req') /\
    (if (fst (hasher_hash (resolved req') (resolvePos req' =? 0)%Z) =? 32)%Z
     then keyBytes (resolveHash req')
          = snd (hasher_hash (resolved req') (resolvePos req' =? 0)%Z)
     else resolveHash req' = None) /\
    fillCount tr' = replicate 105 0%Z /\
    nodeStack tr' = replicate 105 (mkShortNode None NilNode true) /\
    vertical tr' = replicate 105 (mkFullNode (replicate 17 NilNode) true).
Proof.
  unfold finishRequest, currentRequest. intros H.
  destruct (at_ (reqIndices tr) (keyIdx tr)) as [i|] eqn:EI; cbn [rbind] in H;
    [|discriminate H].
  destruct (at_ (requests tr) i) as [req|] eqn:ER; cbn [rbind] in H; [|discriminate H].
  destruct (builtRoot tr req) as [root_|] eqn:EB; cbn [rbind] in H; [|discriminate H].
  destruct (isNilNode root_) eqn:EN; [discriminate H|].
  destruct (hasher_hash root_ (resolvePos req =? 0)%Z) as [hashLen gotHash] eqn:EH.
  assert (M : (if (hashLen =? 32)%Z
               then keyBytes (resolveHash req) = gotHash
               else resolveHash req = None)).
  { destruct (hashLen =? 32)%Z.
    - destruct (bytes_eqb (keyBytes (resolveHash req)) gotHash) eqn:EE;
        [now apply bytes_eqb_eq|discriminate H].
    - destruct (resolveHash req); [discriminate H|reflexivity]. }
  assert (H' :
    (req2 <-- splice (mkResolveRequest (t req) (contract req) (resolveHex req)
                        (resolvePos req) (extResolvePos req) (resolveHash req)
                        root_ (resolveParent req)) root_ ;;
     reqs <-- put_ (requests tr) i req2 ;;
     Ok (set_requests reqs
           (set_stacks
              (replicate (Z.to_nat (Levels + 1)) (mkShortNode None NilNode true))
              (replicate (Z.to_nat (Levels + 1)) (mkFullNode (replicate 17 NilNode) true))
              (replicate (Z.to_nat (Levels + 1)) 0%Z) tr), @None error))
    = Ok (tr', None)).
  { destruct (hashLen =? 32)%Z.
    - destruct (bytes_eqb (keyBytes (resolveHash req)) gotHash); [exact H|discriminate H].
    - destruct (resolveHash req); [discriminate H|exact H]. }
  clear H.
  destruct (splice _ root_) as [req2|] eqn:ES; cbn [rbind] in H'; [|discriminate H'].
  destruct (put_ (requests tr) i req2) as [reqs|] eqn:EP; cbn [rbind] in H';
    [|discriminate H'].
  injection H' as <-.
  destruct (splice_keeps _ _ _ ES) as (K1 & K2 & K3 & K4 & K5 & K6).
  cbn [contract resolveHex resolvePos extResolvePos resolveHash resolved] in *.
  exists i, req2. split; [reflexivity|].
  split; [apply (at_put _ _ _ _ EP)|].
  rewrite K6, K3, K5. split; [exact EN|].
  split.
  { unfold builtRoot in *. rewrite K4. exact EB. }
  rewrite EH. cbn [fst snd]. split; [exact M|]. repeat split.
Qed.

(** X21.  A request is marked resolved only with a root of the expected
    hash: when [finishPreviousKey] at the end of a key sequence returns no
    error, the request that the sequence belongs to holds as [resolved] a
    root that is not nil and whose hash, when it is 32 bytes long, is the
    [resolveHash] of the request (a shorter, embedded root goes only with
    a nil [resolveHash]); and the stacks of the resolver are cleared. *)
Theorem finishPreviousKey_sound (tr tr' : TrieResolver) :
  finishPreviousKey' tr None = Ok (tr', None) ->
  exists i req',
    at_ (reqIndices tr) (keyIdx tr) = Ok i /\
    at_ (requests tr') i = Ok req' /\
    isNilNode (resolved req') = false /\
    (if (fst (hasher_hash (resolved req') (resolvePos req' =? 0)%Z) =? 32)%Z
     then keyBytes (resolveHash req')
          = snd (hasher_hash (resolved req') (resolvePos req' =? 0)%Z)
     else resolveHash req' = None) /\
    fillCount tr' = replicate 105 0%Z /\
    nodeStack tr' = replicate 105 (mkShortNode None NilNode true) /\
    vertical tr' = replicate 105 (mkFullNode (replicate 17 NilNode) true).
Proof.
  unfold finishPreviousKey. intros H.
  destruct (finishLevels' tr None) as [tr1|] eqn:EL; cbn [rbind] in H; [|discriminate H].
  apply finishLevels_frame in EL. destruct EL as (_ & _ & _ & _ & ERI & _ & _ & _ & EK).
  destruct (finishRequest_sound tr1 tr' H) as (i & req' & H1 & H2 & H3 & _ & H5).
  exists i, req'. rewrite <- ERI, <- EK. split; [exact H1|]. split; [exact H2|].
  split; [exact H3|exact H5].
Qed.

(** X22.  Between two keys of a sequence the resolver only folds levels:
    [finishPreviousKey] with a next key returns no error, and it changes
    nothing but the stacks, the two indices into the resolve keys and the
    start level, which becomes twice the number of bytes that the next key
    shares with the current one, plus one if the two keys also share the
    next high nibble: the number of nibbles that the two keys share. *)
Theorem finishPreviousKey_between_keys (tr tr' : TrieResolver) (k : bytes)
    (e : option error) :
  finishPreviousKey' tr (Some k) = Ok (tr', e) ->
  e = None /\ sameFrame tr' tr /\
  (exists x y,
     at_ k (prefixLen k (key tr)) = Ok x /\
     at_ (key tr) (prefixLen k (key tr)) = Ok y /\
     startLevel tr'
     = (2 * prefixLen k (key tr) + (if (b2n x / 16 =? b2n y / 16)%N then 1 else 0))%Z) /\
  startLevel tr' = prefixLen (nibbles k) (nibbles (key tr)).
Proof.
  unfold finishPreviousKey. intros H.
  destruct (finishLevels' tr (Some k)) as [tr1|] eqn:EL; cbn [rbind] in H;
    [|discriminate H].
  injection H as <- <-. split; [reflexivity|].
  split; [eapply finishLevels_frame, EL|].
  unfold finishLevels in EL. cbn [keyBytes] in EL.
  destruct (at_ k (prefixLen k (key tr))) as [x|] eqn:EX; cbn [rbind] in EL;
    [|discriminate EL].
  destruct (at_ (key tr) (prefixLen k (key tr))) as [y|] eqn:EY; cbn [rbind] in EL;
    [|discriminate EL].
  rewrite high_nibble_test in EL.
  assert (ES : startLevel tr1
               = (2 * prefixLen k (key tr)
                  + (if (b2n x / 16 =? b2n y / 16)%N then 1 else 0))%Z).
  { destruct (b2n x / 16 =? b2n y / 16); cbn [rbind] in EL;
      inv_ok EL; injection EL as <-; cbn [startLevel set_startLevel]; lia. }
  split; [exists x, y; split; [reflexivity|split; [reflexivity|exact ES]]|].
  rewrite ES. symmetry. now apply prefixLen_nibbles.
Qed.

(** X23.  [Walker] asks for the walk to go on exactly when it returns no
    error. *)
Theorem Walker_continues_iff_no_error (tr tr' : TrieResolver) (keyIdx_ : Z)
    (k v : bytes) (goOn : bool) (e : option error) :
  Walker' tr keyIdx_ k v = Ok (tr', (goOn, e)) ->
  (goOn = true <-> e = None).
Proof.
  unfold Walker. intros H. crunch H; injection H as <- <- <-;
    split; intros X; try reflexivity; discriminate X.
Qed.

End Folding.

Lemma finishPreviousKey_sound_witness :
  exists i req',
    at_ (reqIndices exampleResolver) (keyIdx exampleResolver) = Ok i /\
    at_ (requests exampleResolved) i = Ok req' /\
    isNilNode (resolved req') = false /\
    (if (fst (constHash (repeat xbb 32) (resolved req') (resolvePos req' =? 0)%Z)
         =? 32)%Z
     then keyBytes (resolveHash req')
          = snd (constHash (repeat xbb 32) (resolved req') (resolvePos req' =? 0)%Z)
     else resolveHash req' = None) /\
    fillCount exampleResolved = replicate 105 0%Z /\
    nodeStack exampleResolved = replicate 105 (mkShortNode None NilNode true) /\
    vertical exampleResolved = replicate 105 (mkFullNode (replicate 17 NilNode) true).
Proof.
  apply (finishPreviousKey_sound (constHash (repeat xbb 32)) asIs asIs
           exampleResolver exampleResolved).
  vm_compute. reflexivity.
Defined.

(** The current key is 12 12 .. and the next one 13 13 ..: no byte is
    shared, the first high nibble is, and the start level becomes 1. *)
Lemma finishPreviousKey_between_keys_witness :
  snd exampleBetween = None /\ sameFrame (fst exampleBetween) exampleResolver /\
  startLevel (fst exampleBetween) = 1%Z.
Proof.
  destruct (finishPreviousKey_between_keys (constHash (repeat xaa 32)) asIs asIs
              exampleResolver (fst exampleBetween) (repeat x13 32) (snd exampleBetween))
    as (H1 & H2 & _ & H4).
  - vm_compute. reflexivity.
  - split; [exact H1|]. split; [exact H2|]. rewrite H4. vm_compute. reflexivity.
Defined.

Lemma Walker_continues_iff_no_error_witness :
  true = true <-> @None error = None.
Proof.
  apply (Walker_continues_iff_no_error (constHash (repeat xaa 32)) asIs asIs
           (NewResolver true true 0) exampleWalked 0 (repeat x12 32) [xc0] true None).
  vm_compute. reflexivity.
Defined.

End resolverMore.

(** ** Block proofs *)

Module proofgenProps.
Import proofgen proofgen_spec.

(** X24.  Touches come out in the order they went in, and once: after any
    number of [AddTouch], [ExtractTouches] returns the touches that were
    there followed by the added ones, a second [ExtractTouches] returns
    none, and nothing else in the generator has changed. *)
Theorem touches_in_order (ts : list bytes) (pg : ProofGenerator) :
  fst (ExtractTouches (addTouches ts pg)) = touches pg ++ ts /\
  fst (ExtractTouches (snd (ExtractTouches (addTouches ts pg)))) = [] /\
  snd (ExtractTouches (addTouches ts pg)) = set_touches [] pg.
Proof.
  assert (G : addTouches ts pg = set_touches (touches pg ++ ts) pg).
  { unfold addTouches. revert pg. induction ts as [|t ts IH]; intros pg; cbn [fold_left].
    - rewrite app_nil_r. now destruct pg.
    - rewrite IH. unfold AddTouch, set_touches. cbn. now rewrite <- app_assoc. }
  rewrite G. repeat split.
Qed.

Lemma runCodes_created (evs : list codeEvent) : forall pg h c,
  createdCodes pg !! h = Some c ->
  createdCodes (runCodes evs pg) !! h = Some c /\
  proofCodes (runCodes evs pg) !! h = proofCodes pg !! h.
Proof.
  unfold runCodes. induction evs as [|ev evs IH]; intros pg h c Hc; cbn [fold_left].
  - split; [exact Hc|reflexivity].
  - assert (S : createdCodes (runCode pg ev) !! h = Some c
                /\ proofCodes (runCode pg ev) !! h = proofCodes pg !! h).
    { destruct ev as [h' c'|h' c']; cbn [runCode]; unfold ReadCode, CreateCode.
      - destruct (createdCodes pg !! h') eqn:E; [split; [exact Hc|reflexivity]|].
        cbn. split; [exact Hc|]. apply lookup_insert_ne. congruence.
      - destruct (createdCodes pg !! h') eqn:E; [split; [exact Hc|reflexivity]|].
        cbn. split; [|reflexivity]. rewrite lookup_insert_ne by congruence. exact Hc. }
    destruct S as [S1 S2]. destruct (IH _ _ _ S1) as [I1 I2].
    split; [exact I1|]. now rewrite I2.
Qed.

(** X25.  Code that a block creates is not part of its proof: once a code
    hash is among the created codes, no later [ReadCode] or [CreateCode]
    changes the code created for it, and none adds or changes a proof code
    for it. *)
Theorem created_code_is_kept (evs : list codeEvent) (pg : ProofGenerator)
    (h c : bytes) :
  createdCodes pg !! h = None ->
  createdCodes (runCodes (Create h c :: evs) pg) !! h = Some c /\
  proofCodes (runCodes (Create h c :: evs) pg) !! h = proofCodes pg !! h.
Proof.
  intros Hn. unfold runCodes. cbn [fold_left runCode].
  assert (E : createdCodes (CreateCode h c pg) !! h = Some c).
  { unfold CreateCode. rewrite Hn. cbn. apply lookup_insert_eq. }
  destruct (runCodes_created evs (CreateCode h c pg) h c E) as [R1 R2].
  split; [exact R1|]. unfold runCodes in R2. rewrite R2.
  unfold CreateCode. now rewrite Hn.
Qed.

Lemma created_code_is_kept_witness :
  createdCodes (runCodes [Create [x01] [x60]; Read [x01] [x61]; Create [x01] [x62]]
                  NewProofGenerator) !! [x01] = Some [x60] /\
  proofCodes (runCodes [Create [x01] [x60]; Read [x01] [x61]; Create [x01] [x62]]
                NewProofGenerator) !! [x01]
  = proofCodes NewProofGenerator !! [x01].
Proof.
  apply created_code_is_kept. reflexivity.
Defined.


(** *** Short keys and values *)

Lemma keyPrefix_ok (key : bytes) (pos : Z) :
  (0 <= pos <= Z.of_nat (length key))%Z ->
  keyPrefix key pos = Ok (take (Z.to_nat pos) key).
Proof.
  intros H. unfold keyPrefix. destruct (Z.ltb_spec pos 0); [lia|].
  destruct (Z.ltb_spec (Z.of_nat (length key)) pos); [lia|reflexivity].
Qed.

Lemma slice_ok (key : bytes) (i pos : Z) :
  (0 <= i <= pos)%Z -> (pos <= Z.of_nat (length key))%Z ->
  slice key i pos = Ok (drop (Z.to_nat i) (take (Z.to_nat pos) key)).
Proof.
  intros H1 H2. unfold slice. destruct (Z.ltb_spec i 0); [lia|].
  destruct (Z.ltb_spec pos i); [lia|].
  destruct (Z.ltb_spec (Z.of_nat (length key)) pos); [lia|reflexivity].
Qed.

Lemma mapFor_insert {V} (top : gmap bytes V) (nested : gmap bytes (gmap bytes V))
    (ps : bytes) (m : gmap bytes V) :
  mapFor top (<[ps := m]> nested) (Some ps) = m.
Proof. unfold mapFor. now rewrite lookup_insert_eq. Qed.

Lemma insertNew_lookup {V} (k : bytes) (v : V) (m : gmap bytes V) :
  insertNew k v m !! k = Some (default v (m !! k)).
Proof.
  unfold insertNew. destruct (m !! k) eqn:E; cbn; [exact E|apply lookup_insert_eq].
Qed.

Lemma insertNew_again {V} (k : bytes) (v w : V) (m : gmap bytes V) :
  insertNew k w (insertNew k v m) = insertNew k v m.
Proof.
  unfold insertNew at 1. now rewrite insertNew_lookup.
Qed.

Lemma findShort_found (shorts : gmap bytes bytes) (key : bytes) (pos i : Z) :
  (0 <= i < pos)%Z -> (pos <= Z.of_nat (length key))%Z ->
  shorts !! take (Z.to_nat i) key = Some (drop (Z.to_nat i) (take (Z.to_nat pos) key)) ->
  forall n i0, (0 <= i0 <= i)%Z -> (i < i0 + Z.of_nat n)%Z ->
    findShort shorts key pos n i0 = Ok true.
Proof.
  intros Hi Hpos Hs. induction n as [|n IH]; intros i0 H0 Hn; [lia|].
  cbn [findShort]. rewrite slice_ok by lia. cbn [rbind].
  change (Z.to_nat 0) with 0%nat. rewrite drop_0.
  unfold bytes in *.
  destruct (Z.eq_dec i0 i) as [->|Hne].
  - rewrite Hs, slice_ok by lia. cbn [rbind]. now rewrite bytes_eqb_refl.
  - destruct (shorts !! take (Z.to_nat i0) key) as [short|].
    + rewrite slice_ok by lia. cbn [rbind].
      destruct (bytes_eqb short _); [reflexivity|]. apply IH; lia.
    + apply IH; lia.
Qed.

Lemma findShort_none (shorts : gmap bytes bytes) (key : bytes) (pos : Z) :
  (pos <= Z.of_nat (length key))%Z ->
  forall n i0, (0 <= i0)%Z -> (i0 + Z.of_nat n <= pos)%Z ->
    (forall i, (i0 <= i < i0 + Z.of_nat n)%Z -> shorts !! take (Z.to_nat i) key = None) ->
    findShort shorts key pos n i0 = Ok false.
Proof.
  intros Hpos. induction n as [|n IH]; intros i0 H0 Hn Hnone; [reflexivity|].
  cbn [findShort]. rewrite slice_ok by lia. cbn [rbind].
  change (Z.to_nat 0) with 0%nat. rewrite drop_0. unfold bytes in *.
  rewrite Hnone by lia.
  apply IH; [lia|lia|]. intros i Hi. apply Hnone. lia.
Qed.

(** X26.  A value is recorded under the short key that leads to it: after
    [addShort] has filed the part of a key from [i] to [pos] under the
    first [i] nibbles of the key, where no short key was filed yet,
    [addValue] for the first [pos] nibbles records the value, unless a value
    is recorded there already, which it keeps. *)
Theorem addValue_after_addShort (prefix : option bytes) (key : bytes) (i pos : Z)
    (value : bytes) (pg : ProofGenerator) :
  (0 <= i < pos)%Z -> (pos <= Z.of_nat (length key))%Z ->
  shortsOf pg prefix !! take (Z.to_nat i) key = None ->
  exists pg1 pg2,
    addShort prefix key i (drop (Z.to_nat i) (take (Z.to_nat pos) key)) pg = Ok pg1 /\
    addValue prefix key pos value pg1 = Ok pg2 /\
    valuesOf pg2 prefix !! take (Z.to_nat pos) key
    = Some (default value (valuesOf pg prefix !! take (Z.to_nat pos) key)).
Proof.
  intros Hi Hpos Hfree. unfold addShort, addValue, valuesOf, shortsOf in *.
  rewrite keyPrefix_ok by lia. cbn [rbind]. cbv zeta.
  destruct prefix as [ps|].
  - eexists. eexists. split; [reflexivity|].
    cbn [proofShorts sShorts set_sShorts proofValues sValues].
    rewrite mapFor_insert.
    match goal with
    | |- context [findShort ?m key pos _ 0] =>
        rewrite (findShort_found m key pos i) by
          (try lia; rewrite insertNew_lookup; unfold bytes in *; now rewrite Hfree)
    end.
    cbn [rbind negb]. rewrite keyPrefix_ok by lia. cbn [rbind].
    split; [reflexivity|].
    cbn [proofValues sValues set_sValues]. rewrite mapFor_insert.
    apply insertNew_lookup.
  - eexists. eexists. split; [reflexivity|].
    cbn [proofShorts sShorts set_proofShorts proofValues sValues mapFor] in *.
    match goal with
    | |- context [findShort ?m key pos _ 0] =>
        rewrite (findShort_found m key pos i) by
          (try lia; rewrite insertNew_lookup; unfold bytes in *; now rewrite Hfree)
    end.
    cbn [rbind negb]. rewrite keyPrefix_ok by lia. cbn [rbind].
    split; [reflexivity|].
    cbn [proofValues sValues set_proofValues]. apply insertNew_lookup.
Qed.

Lemma addValue_after_addShort_witness :
  exists pg1 pg2,
    addShort None [x01; x02; x03] 1
      (drop (Z.to_nat 1) (take (Z.to_nat 3) [x01; x02; x03])) NewProofGenerator
    = Ok pg1 /\
    addValue None [x01; x02; x03] 3 [x56] pg1 = Ok pg2 /\
    valuesOf pg2 None !! take (Z.to_nat 3) [x01; x02; x03]
    = Some (default [x56]
              (valuesOf NewProofGenerator None !! take (Z.to_nat 3) [x01; x02; x03])).
Proof.
  apply addValue_after_addShort.
  - lia.
  - cbn. lia.
  - reflexivity.
Defined.

(** X27.  Without a short key that leads to it a value is not recorded:
    when no short key is filed under any proper prefix of the first [pos]
    nibbles of the key, [addValue] leaves the generator as it is. *)
Theorem addValue_without_short (prefix : option bytes) (key : bytes) (pos : Z)
    (value : bytes) (pg : ProofGenerator) :
  (0 <= pos <= Z.of_nat (length key))%Z ->
  (forall i, (0 <= i < pos)%Z -> shortsOf pg prefix !! take (Z.to_nat i) key = None) ->
  addValue prefix key pos value pg = Ok pg.
Proof.
  intros Hpos Hnone. unfold addValue.
  rewrite (findShort_none _ key pos) by (try lia; intros i Hi; apply Hnone; lia).
  reflexivity.
Qed.

Lemma addValue_without_short_witness :
  addValue None [x01; x02; x03] 3 [x56] NewProofGenerator = Ok NewProofGenerator.
Proof.
  apply addValue_without_short.
  - cbn. lia.
  - intros i _. reflexivity.
Defined.

(** X28.  The first sole hash and the first short key filed under a key
    stay: [addSoleHash] and [addShort] write only where nothing is filed
    yet, so that calling either a second time for the same key, with
    whatever hash or short key, changes nothing. *)
Theorem first_write_wins (prefix : option bytes) (key : bytes) (pos : Z)
    (h1 h2 s1 s2 : bytes) (pg pg1 pg2 : ProofGenerator) :
  addSoleHash prefix key pos h1 pg = Ok pg1 ->
  addShort prefix key pos s1 pg = Ok pg2 ->
  addSoleHash prefix key pos h2 pg1 = Ok pg1 /\
  soleHashesOf pg1 prefix !! take (Z.to_nat pos) key
  = Some (default h1 (soleHashesOf pg prefix !! take (Z.to_nat pos) key)) /\
  addShort prefix key pos s2 pg2 = Ok pg2 /\
  shortsOf pg2 prefix !! take (Z.to_nat pos) key
  = Some (default s1 (shortsOf pg prefix !! take (Z.to_nat pos) key)).
Proof.
  unfold addSoleHash, addShort, soleHashesOf, shortsOf. intros H1 H2.
  assert (Hk : keyPrefix key pos = Ok (take (Z.to_nat pos) key)).
  { unfold keyPrefix in *. destruct (pos <? 0)%Z; [discriminate H1|].
    destruct (Z.of_nat (length key) <? pos)%Z; [discriminate H1|reflexivity]. }
  rewrite Hk in *. cbn [rbind] in *.
  injection H1 as <-. injection H2 as <-.
  destruct prefix as [ps|].
  - cbn [soleHashes sSoleHashes set_sSoleHashes proofShorts sShorts set_sShorts].
    rewrite !mapFor_insert, !insertNew_again, !insert_insert_eq, !insertNew_lookup.
    repeat split.
  - cbn [soleHashes sSoleHashes set_soleHashes proofShorts sShorts set_proofShorts
         mapFor].
    rewrite !insertNew_again, !insertNew_lookup. repeat split.
Qed.

Lemma first_write_wins_witness :
  addSoleHash None [x01; x02] 1 (repeat xbb 32)
    (set_soleHashes (<[ [x01] := repeat xaa 32 ]> ∅) NewProofGenerator)
  = Ok (set_soleHashes (<[ [x01] := repeat xaa 32 ]> ∅) NewProofGenerator) /\
  soleHashesOf (set_soleHashes (<[ [x01] := repeat xaa 32 ]> ∅) NewProofGenerator) None
    !! take (Z.to_nat 1) [x01; x02]
  = Some (default (repeat xaa 32)
            (soleHashesOf NewProofGenerator None !! take (Z.to_nat 1) [x01; x02])) /\
  addShort None [x01; x02] 1 [x03]
    (set_proofShorts (<[ [x01] := [x02] ]> ∅) NewProofGenerator)
  = Ok (set_proofShorts (<[ [x01] := [x02] ]> ∅) NewProofGenerator) /\
  shortsOf (set_proofShorts (<[ [x01] := [x02] ]> ∅) NewProofGenerator) None
    !! take (Z.to_nat 1) [x01; x02]
  = Some (default [x02]
            (shortsOf NewProofGenerator None !! take (Z.to_nat 1) [x01; x02])).
Proof.
  apply (first_write_wins None [x01; x02] 1 (repeat xaa 32) (repeat xbb 32)
           [x02] [x03] NewProofGenerator).
  - reflexivity.
  - reflexivity.
Defined.


(** *** Proofs of branch nodes *)

Lemma index_ok (hashes : list bytes) (idx : nat) (x : bytes) :
  index hashes idx = Ok x -> default zeroHash (hashes !! idx) = x.
Proof.
  unfold index. destruct (hashes !! idx); intros H; [|discriminate H].
  now injection H as <-.
Qed.

Lemma ammendHashes_spec (intersection mask : N) (hashes : list bytes) (n : nat) :
  forall i h idx h',
    (i + n = 16)%nat -> length h = 16%nat -> idx = rank mask i ->
    ammendHashes n i intersection mask hashes h idx = Ok h' ->
    length h' = 16%nat /\
    forall j, (j < 16)%nat ->
      h' !! j = if (j <? i)%nat then h !! j
                else Some (slotHash intersection mask hashes j).
Proof.
  induction n as [|n IH]; intros i h idx h' Hn Hl Hidx H; cbn [ammendHashes] in H.
  - injection H as <-. split; [exact Hl|]. intros j Hj.
    destruct (Nat.ltb_spec j i); [reflexivity|lia].
  - destruct (N.testbit intersection (N.of_nat i)) eqn:EB.
    + destruct (index hashes idx) as [x|] eqn:EX; cbn [rbind] in H; [|discriminate H].
      apply IH in H; [|lia|now rewrite length_insert|subst idx; cbn [rank];
        destruct (N.testbit mask (N.of_nat i)); lia].
      destruct H as [L H]. split; [exact L|]. intros j Hj. rewrite (H j Hj).
      destruct (Nat.ltb_spec j (S i)), (Nat.ltb_spec j i); try lia.
      * apply list_lookup_insert_ne. lia.
      * assert (j = i) by lia. subst j. rewrite list_lookup_insert_eq by lia.
        unfold slotHash. rewrite EB. f_equal. symmetry. subst idx.
        now apply index_ok.
      * reflexivity.
    + cbn [rbind] in H.
      apply IH in H; [|lia|now rewrite length_insert|subst idx; cbn [rank];
        destruct (N.testbit mask (N.of_nat i)); lia].
      destruct H as [L H]. split; [exact L|]. intros j Hj. rewrite (H j Hj).
      destruct (Nat.ltb_spec j (S i)), (Nat.ltb_spec j i); try lia.
      * apply list_lookup_insert_ne. lia.
      * assert (j = i) by lia. subst j. rewrite list_lookup_insert_eq by lia.
        unfold slotHash. now rewrite EB.
      * reflexivity.
Qed.

Lemma freshHashes_spec (mask : N) (hashes : list bytes) (n : nat) :
  forall i h idx h',
    (i + n = 16)%nat -> length h = 16%nat -> idx = rank mask i ->
    freshHashes n i mask hashes h idx = Ok h' ->
    length h' = 16%nat /\
    forall j, (j < 16)%nat ->
      h' !! j = if (j <? i)%nat then h !! j
                else if N.testbit mask (N.of_nat j)
                     then Some (default zeroHash (hashes !! rank mask j))
                     else h !! j.
Proof.
  induction n as [|n IH]; intros i h idx h' Hn Hl Hidx H; cbn [freshHashes] in H.
  - injection H as <-. split; [exact Hl|]. intros j Hj.
    destruct (Nat.ltb_spec j i); [reflexivity|lia].
  - destruct (N.testbit mask (N.of_nat i)) eqn:EB.
    + destruct (index hashes idx) as [x|] eqn:EX; cbn [rbind] in H; [|discriminate H].
      apply IH in H; [|lia|now rewrite length_insert|subst idx; cbn [rank];
        rewrite EB; lia].
      destruct H as [L H]. split; [exact L|]. intros j Hj. rewrite (H j Hj).
      destruct (Nat.ltb_spec j (S i)), (Nat.ltb_spec j i); try lia.
      * apply list_lookup_insert_ne. lia.
      * assert (j = i) by lia. subst j. rewrite list_lookup_insert_eq by lia.
        rewrite EB. f_equal. symmetry. subst idx. now apply index_ok.
      * destruct (N.testbit mask (N.of_nat j)); [reflexivity|].
        apply list_lookup_insert_ne. lia.
    + apply IH in H; [|lia|exact Hl|subst idx; cbn [rank]; rewrite EB; lia].
      destruct H as [L H]. split; [exact L|]. intros j Hj. rewrite (H j Hj).
      destruct (Nat.ltb_spec j (S i)), (Nat.ltb_spec j i); try lia.
      * reflexivity.
      * assert (j = i) by lia. subst j. now rewrite EB.
      * reflexivity.
Qed.

Lemma zeroHashes_lookup (j : nat) : (j < 16)%nat -> zeroHashes !! j = Some zeroHash.
Proof. intros H. unfold zeroHashes. now apply lookup_replicate_2. Qed.

(** X29.  [addProof] narrows what is known of a branch node: the mask filed
    for a key becomes the given mask, or its intersection with the mask
    that was filed already; afterwards the sixteen hashes filed for the key
    are, at each nibble of the filed mask, the hash given for that nibble
    (the hashes are given in the order of the set bits of the given mask),
    and the zero hash at every other nibble. *)
Theorem addProof_narrows (prefix : option bytes) (key : bytes) (pos : Z) (mask : N)
    (hashes : list bytes) (pg pg' : ProofGenerator) :
  addProof prefix key pos mask hashes pg = Ok pg' ->
  (forall h, hashesOf pg prefix !! take (Z.to_nat pos) key = Some h ->
     length h = 16%nat) ->
  exists stored h',
    stored = match masksOf pg prefix !! take (Z.to_nat pos) key with
             | Some m => N.land m mask
             | None => mask
             end /\
    masksOf pg' prefix !! take (Z.to_nat pos) key = Some stored /\
    hashesOf pg' prefix !! take (Z.to_nat pos) key = Some h' /\
    length h' = 16%nat /\
    forall j, (j < 16)%nat -> h' !! j = Some (slotHash stored mask hashes j).
Proof.
  unfold addProof, masksOf, hashesOf. intros H Hlen.
  assert (Hk : keyPrefix key pos = Ok (take (Z.to_nat pos) key)).
  { unfold keyPrefix in *. destruct (pos <? 0)%Z; [discriminate H|].
    destruct (Z.of_nat (length key) <? pos)%Z; [discriminate H|reflexivity]. }
  rewrite Hk in H. cbn [rbind] in H. cbv zeta in H.
  set (k := take (Z.to_nat pos) key) in *.
  set (masks := mapFor (proofMasks pg) (sMasks pg) prefix) in *.
  set (hs := mapFor (proofHashes pg) (sHashes pg) prefix) in *.
  assert (R : exists stored h',
             stored = match masks !! k with
                      | Some m => N.land m mask
                      | None => mask
                      end /\
             length h' = 16%nat /\
             (forall j, (j < 16)%nat -> h' !! j = Some (slotHash stored mask hashes j)) /\
             Ok match prefix with
                | Some ps =>
                    set_sHashes (<[ps := <[k := h']> hs]> (sHashes pg))
                      (set_sMasks (<[ps := <[k := stored]> masks]> (sMasks pg)) pg)
                | None => set_proofHashes (<[k := h']> hs)
                            (set_proofMasks (<[k := stored]> masks) pg)
                end = @Ok fault _ pg').
  { unfold bytes in *. destruct (masks !! k) as [m|] eqn:EM.
    - match type of H with
      | context [ammendHashes ?a ?b ?c ?d ?e ?f ?g] =>
          destruct (ammendHashes a b c d e f g) as [h|] eqn:EA
      end; cbn [rbind] in H; [|discriminate H].
      apply ammendHashes_spec in EA; [|lia| |reflexivity].
      + destruct EA as [L EA]. exists (N.land m mask), h.
        split; [reflexivity|]. split; [exact L|]. split; [|exact H].
        intros j Hj. exact (EA j Hj).
      + destruct (hs !! k) as [h0|] eqn:EH; cbn; [now apply Hlen|reflexivity].
    - match type of H with
      | context [freshHashes ?a ?b ?c ?d ?e ?f] =>
          destruct (freshHashes a b c d e f) as [h|] eqn:EA
      end; cbn [rbind] in H; [|discriminate H].
      apply freshHashes_spec in EA; [|lia|reflexivity|reflexivity].
      destruct EA as [L EA]. exists mask, h.
      split; [reflexivity|]. split; [exact L|]. split; [|exact H].
      intros j Hj. pose proof (EA j Hj) as E. cbn [Nat.ltb Nat.leb] in E.
      rewrite (zeroHashes_lookup j Hj) in E. unfold slotHash.
      destruct (N.testbit mask (N.of_nat j)); exact E. }
  destruct R as (stored & h' & Hst & L & Hslots & Hpg).
  exists stored, h'. split; [exact Hst|].
  injection Hpg as <-.
  destruct prefix as [ps|].
  - cbn [proofMasks sMasks proofHashes sHashes set_sHashes set_sMasks].
    rewrite !mapFor_insert, !lookup_insert_eq. repeat split; assumption.
  - cbn [proofMasks sMasks proofHashes sHashes set_proofHashes set_proofMasks mapFor].
    rewrite !lookup_insert_eq. repeat split; assumption.
Qed.

Lemma addProof_narrows_witness :
  exists stored h',
    stored = match masksOf NewProofGenerator None !! take (Z.to_nat 1) [x01; x02] with
             | Some m => N.land m 5
             | None => 5
             end /\
    masksOf exampleProof None !! take (Z.to_nat 1) [x01; x02] = Some stored /\
    hashesOf exampleProof None !! take (Z.to_nat 1) [x01; x02] = Some h' /\
    length h' = 16%nat /\
    forall j, (j < 16)%nat ->
      h' !! j = Some (slotHash stored 5 [repeat xaa 32; repeat xbb 32] j).
Proof.
  apply (addProof_narrows None [x01; x02] 1 5 [repeat xaa 32; repeat xbb 32]
           NewProofGenerator exampleProof).
  - vm_compute. reflexivity.
  - intros h H. vm_compute in H. discriminate H.
Defined.

End proofgenProps.

(** ** The resolver: a level with a single node *)

Module resolverShort.
Import trie resolver resolver_spec resolverFacts.

Section Promotion.
Variable hasher_hash : node -> bool -> Z * bytes.
Variable hexToCompact : bytes -> bytes.
Variable compactToHex : bytes -> bytes.

Local Abbreviation finishLevel' := (finishLevel hasher_hash hexToCompact compactToHex).

(** X30.  A finalized level with a fill count of one is promoted, not
    hashed: the parent slot at the key's nibble gets a copy of the short
    node of the level, the fill count of the parent level grows by one,
    and if the parent level was empty its own short node becomes that
    short node with the nibble put in front of its key. *)
Theorem finishLevel_promotes_short (req : ResolveRequest) (hex : bytes)
    (rhPrefixLen level : Z) (tr : TrieResolver) (keynibble : byte)
    (short : shortNode) (fc0 : Z) :
  wellSized tr ->
  (0 <= level < Levels)%Z ->
  at_ hex level = Ok keynibble ->
  (b2z keynibble < 17)%Z ->
  at_ (fillCount tr) (level + 1) = Ok 1%Z ->
  at_ (nodeStack tr) (level + 1) = Ok short ->
  at_ (fillCount tr) level = Ok fc0 ->
  exists tr' parent,
    finishLevel' req hex rhPrefixLen level tr = Ok tr' /\
    at_ (vertical tr') level = Ok parent /\
    at_ (Children parent) (b2z keynibble) = Ok (copyShort short) /\
    at_ (fillCount tr') level = Ok (fc0 + 1)%Z /\
    (fc0 = 0%Z ->
     at_ (nodeStack tr') level
     = Ok (mkShortNode
             (Some (hexToCompact (keynibble :: compactToHex (keyBytes (Key short)))))
             (Val short) true)).
Proof.
  intros (Hns & Hvs & Hfc & Hch) Hlevel Hnib Hnib17 Hfill Hshort Hfc0.
  unfold Levels in Hlevel.
  destruct (at_in_range (vertical tr) level) as [vl Hvl]; [lia|].
  pose proof (at_Forall _ _ _ _ Hch Hvl) as Hvl17. cbn beta in Hvl17.
  assert (Hb0 : (0 <= b2z keynibble)%Z) by (unfold b2z; lia).
  destruct (put_in_range (Children vl) (b2z keynibble) (copyShort short)) as [ch Hput];
    [lia|].
  destruct (put_in_range (vertical tr) level (mkFullNode ch true)) as [vs Hvs']; [lia|].
  set (promoted := mkShortNode
                     (Some (hexToCompact
                              (keynibble :: compactToHex (keyBytes (Key short)))))
                     (Val short) true).
  assert (Hns' : exists ns,
             (if (fc0 =? 0)%Z then put_ (nodeStack tr) level promoted
              else Ok (nodeStack tr)) = Ok ns /\
             length ns = length (nodeStack tr) /\
             (fc0 = 0%Z -> at_ ns level = Ok promoted)).
  { destruct (Z.eqb_spec fc0 0) as [E|E].
    - destruct (put_in_range (nodeStack tr) level promoted) as [ns Hp]; [lia|].
      exists ns. destruct (at_put _ _ _ _ Hp) as [A L]. repeat split; auto.
    - exists (nodeStack tr). repeat split; auto. intros X; contradiction. }
  destruct Hns' as (ns & Hns1 & Hlen_ns & Hat_ns).
  destruct (put_in_range (fillCount tr) level (fc0 + 1)%Z) as [fc Hfc']; [lia|].
  pose proof (at_put _ _ _ _ Hvs') as [Hat_vs Hlen_vs].
  pose proof (at_put _ _ _ _ Hfc') as [Hat_fc Hlen_fc].
  pose proof (at_put _ _ _ _ Hput) as [Hat_ch _].
  assert (Hstep : finishLevel' req hex rhPrefixLen level tr
                  = (let tr1 := set_stacks ns vs fc tr in
                     if (extResolvePos req <=? level)%Z
                     then resetLevel (level + 1) tr1 else Ok tr1)).
  { unfold finishLevel. rewrite Hnib. cbn [rbind]. rewrite Hfill. cbn [rbind].
    change (1 =? 1)%Z with true. cbv iota.
    rewrite Hshort. cbn [rbind]. rewrite Hvl. cbn [rbind].
    rewrite Hput. cbn [rbind]. rewrite Hvs'. cbn [rbind]. rewrite Hfc0. cbn [rbind].
    fold promoted. rewrite Hns1. cbn [rbind]. rewrite Hfc'. reflexivity. }
  cbn zeta in Hstep.
  destruct (extResolvePos req <=? level)%Z.
  - destruct (put_in_range ns (level + 1) (mkShortNode None NilNode true)) as [ns1 Hns2];
      [lia|].
    destruct (put_in_range fc (level + 1) 0%Z) as [fc1' Hfc1]; [lia|].
    destruct (put_in_range vs (level + 1) (mkFullNode (replicate 17 NilNode) true))
      as [vs1 Hvs1]; [lia|].
    exists (set_stacks ns1 vs1 fc1' (set_stacks ns vs fc tr)), (mkFullNode ch true).
    split.
    + rewrite Hstep. unfold resetLevel. cbn [nodeStack fillCount vertical set_stacks].
      rewrite Hns2, Hfc1, Hvs1. reflexivity.
    + cbn [vertical fillCount nodeStack set_stacks].
      rewrite (at_put_ne _ _ _ level _ Hvs1) by lia.
      rewrite (at_put_ne _ _ _ level _ Hfc1) by lia.
      rewrite (at_put_ne _ _ _ level _ Hns2) by lia.
      split; [exact Hat_vs|]. split; [exact Hat_ch|]. split; [exact Hat_fc|exact Hat_ns].
  - exists (set_stacks ns vs fc tr), (mkFullNode ch true).
    split; [exact Hstep|]. cbn [vertical fillCount nodeStack set_stacks].
    split; [exact Hat_vs|]. split; [exact Hat_ch|]. split; [exact Hat_fc|exact Hat_ns].
Qed.

End Promotion.

(** The example: the short node of level 1 lands in slot 1 of the full
    node of level 0, and the short node of level 0 takes its key with the
    nibble 1 in front. *)
Lemma finishLevel_promotes_short_witness :
  exists tr' parent,
    finishLevel (constHash (repeat xaa 32)) asIs asIs exampleRequest
      (keybytesToHex (key examplePromoting)) 0 0 examplePromoting = Ok tr' /\
    at_ (vertical tr') 0 = Ok parent /\
    at_ (Children parent) 1 = Ok (ShortNode [x02; x10] (ValueNode [xc0])) /\
    at_ (fillCount tr') 0 = Ok 1%Z /\
    at_ (nodeStack tr') 0
    = Ok (mkShortNode (Some [x01; x02; x10]) (ValueNode [xc0]) true).
Proof.
  destruct (finishLevel_promotes_short (constHash (repeat xaa 32)) asIs asIs
              exampleRequest (keybytesToHex (key examplePromoting)) 0 0
              examplePromoting x01
              (mkShortNode (Some [x02; x10]) (ValueNode [xc0]) true) 0)
    as (tr' & parent & H1 & H2 & H3 & H4 & H5).
  - unfold wellSized. repeat split. repeat constructor.
  - unfold Levels. lia.
  - reflexivity.
  - vm_compute. reflexivity.
  - reflexivity.
  - reflexivity.
  - reflexivity.
  - exists tr', parent. split; [exact H1|]. split; [exact H2|].
    split; [exact H3|]. split; [exact H4|]. exact (H5 eq_refl).
Defined.

End resolverShort.

(** ** The resolver: which levels are kept and which are hashed *)

Module resolverPaths.
Import trie resolver resolver_spec resolverFacts resolverProps resolverMore.

Lemma at_lookup {A} (l : list A) (i : Z) (x : A) :
  at_ l i = Ok x <-> (0 <= i)%Z /\ l !! Z.to_nat i = Some x.
Proof.
  unfold at_. destruct (Z.ltb_spec i 0).
  - split; [intros H'; discriminate H'|]. intros [H' _]. lia.
  - destruct (l !! Z.to_nat i) as [y|].
    + split; [intros H'; injection H' as <-; now split|].
      intros [_ H']. now injection H' as <-.
    + split; [intros H'; discriminate H'|]. intros [_ H']. discriminate H'.
Qed.



Lemma at_length {A} (l : list A) (i : Z) (x : A) :
  at_ l i = Ok x -> (0 <= i < Z.of_nat (length l))%Z.
Proof.
  intros H. apply at_lookup in H as [H0 H]. apply lookup_lt_Some in H. lia.
Qed.





(** After the loop that adjusts them, the two indices enclose [hex] in the
    resolve keys: no key before [rhIndexGt] is greater than [hex], and the
    key at [rhIndexGt], if there is one, is. *)
Lemma indices_enclose (rhs : list bytes) (hex : bytes) (lte0 gt0 lte gt : Z) :
  lte0 = (gt0 - 1)%Z -> (0 <= gt0)%Z ->
  (forall i h, (0 <= i < gt0)%Z -> at_ rhs i = Ok h -> bytesCompare hex h <> (-1)%Z) ->
  (if (gt0 <? Z.of_nat (length rhs))%Z then
     h <-- at_ rhs gt0 ;;
     Ok (adjustRhIndices (length rhs) hex rhs lte0 gt0 (bytesCompare hex h))
   else Ok (lte0, gt0)) = (Ok (lte, gt) : result fault (Z * Z)) ->
  lte = (gt - 1)%Z /\ (0 <= gt)%Z /\
  (forall i h, (0 <= i < gt)%Z -> at_ rhs i = Ok h -> bytesCompare hex h <> (-1)%Z) /\
  ((gt < Z.of_nat (length rhs))%Z ->
   exists h', at_ rhs gt = Ok h' /\ bytesCompare hex h' = (-1)%Z).
Proof.
  intros Hlte Hgt0 Hbefore E1.
  destruct (Z.ltb_spec gt0 (Z.of_nat (length rhs))) as [Hlt|Hge].
  - destruct (at_ rhs gt0) as [h0|] eqn:E0; cbn [rbind] in E1; [|discriminate E1].
    destruct (adjustRhIndices_post (length rhs) hex rhs lte0 gt0 (bytesCompare hex h0))
      as (P1 & P2 & P3 & P4); [lia| |lia|].
    { intros _. now exists h0. }
    injection E1 as E1. rewrite E1 in P1, P2, P3, P4. cbn [fst snd] in *.
    split; [lia|]. split; [lia|]. split; [|exact P4].
    intros i h Hi Hat. destruct (Z.lt_ge_cases i gt0).
    + apply (Hbefore i); [lia|exact Hat].
    + destruct (P3 i ltac:(lia)) as (hj & Hj & Hc). congruence.
  - injection E1 as <- <-. split; [exact Hlte|]. split; [exact Hgt0|].
    split; [exact Hbefore|]. lia.
Qed.




Section Paths.
Variable hasher_hash : node -> bool -> Z * bytes.
Variable hexToCompact : bytes -> bytes.
Variable compactToHex : bytes -> bytes.

Local Abbreviation foldSetup' := (foldSetup hexToCompact).
Local Abbreviation finishLevel' := (finishLevel hasher_hash hexToCompact compactToHex).
Local Abbreviation finishLoop' := (finishLoop hasher_hash hexToCompact compactToHex).
Local Abbreviation finishLevels' := (finishLevels hasher_hash hexToCompact compactToHex).
Local Abbreviation finishRequest' := (finishRequest hasher_hash).
Local Abbreviation finishPreviousKey' :=
  (finishPreviousKey hasher_hash hexToCompact compactToHex).

(** [finishPreviousKey] is its first statements, then the loop over the
    levels, then [tr.startLevel = stopLevel]. *)
Lemma finishLevels_foldSetup (tr : TrieResolver) (k : option bytes) :
  finishLevels' tr k
  = (r <-- foldSetup' tr k ;;
     let '(req, rhPrefixLen, start, stop, tr0) := r in
     tr3 <-- finishLoop' req (keybytesToHex (key tr)) rhPrefixLen
               (Z.to_nat (start - stop + 1)) start tr0 ;;
     Ok (set_startLevel stop tr3)).
Proof.
  unfold finishLevels, foldSetup. lazy zeta.
  repeat match goal with
    | |- rbind ?x _ = rbind (rbind ?x _) _ =>
        destruct x as [?|?]; cbn [rbind]; [|reflexivity]
    | |- (let '(_, _) := ?p in _) = _ => destruct p
    end.
  reflexivity.
Qed.

(** What the first statements of [finishPreviousKey] leave behind. *)
Lemma foldSetup_inv (tr : TrieResolver) (k : option bytes) (req : ResolveRequest)
    (rhPrefixLen start stop : Z) (tr0 : TrieResolver) :
  foldSetup' tr k = Ok (req, rhPrefixLen, start, stop, tr0) ->
  (0 <= stop <= start)%Z /\
  (start + 1 <= Z.of_nat (length (keybytesToHex (key tr))))%Z /\
  (wellSized tr -> wellSized tr0) /\
  sameFrame tr0 tr /\
  exists lte gt rh0,
    rhIndexLte tr0 = lte /\ rhIndexGt tr0 = gt /\
    (if (rhIndexGt tr <? Z.of_nat (length (resolveHexes tr)))%Z then
       h <-- at_ (resolveHexes tr) (rhIndexGt tr) ;;
       Ok (adjustRhIndices (length (resolveHexes tr)) (keybytesToHex (key tr))
             (resolveHexes tr) (rhIndexLte tr) (rhIndexGt tr)
             (bytesCompare (keybytesToHex (key tr)) h))
     else Ok (rhIndexLte tr, rhIndexGt tr)) = Ok (lte, gt) /\
    (if (0 <=? lte)%Z
     then h <-- at_ (resolveHexes tr) lte ;; Ok (prefixLen (keybytesToHex (key tr)) h)
     else Ok 0%Z) = Ok rh0 /\
    (if (gt <? Z.of_nat (length (resolveHexes tr)))%Z then
       h <-- at_ (resolveHexes tr) gt ;;
       Ok (if (rh0 <? prefixLen (keybytesToHex (key tr)) h)%Z
           then prefixLen (keybytesToHex (key tr)) h else rh0)
     else Ok rh0) = Ok rhPrefixLen.
Proof.
  unfold foldSetup. intros H.
  pose proof (prefixLen_nonneg (keyBytes k) (key tr)) as HpLen.
  match type of H with rbind ?x _ = _ => destruct x as [stopLevel|] eqn:Estop end;
    cbn [rbind] in H; [|discriminate H].
  assert (Hstop : (0 <= stopLevel)%Z).
  { destruct k as [kb|]; cbn [keyBytes] in *.
    - destruct (at_ kb _); cbn [rbind] in Estop; [|discriminate Estop].
      destruct (at_ (key tr) _); cbn [rbind] in Estop; [|discriminate Estop].
      destruct (N.land _ _ =? 0); injection Estop as <-; lia.
    - injection Estop as <-. lia. }
  destruct (currentRequest tr) as [[i req']|]; cbn [rbind] in H; [|discriminate H].
  lazy zeta in H.
  match type of H with
  | rbind (sliceFrom _ (?st + 1)) _ = _ => set (start2 := st) in H
  end.
  assert (Hstart : (stopLevel <= start2)%Z).
  { subst start2. destruct (Z.ltb_spec (startLevel tr) (extResolvePos req'));
      match goal with |- context [(?a <? ?b)%Z] => destruct (Z.ltb_spec a b) end; lia. }
  destruct (sliceFrom (keybytesToHex (key tr)) (start2 + 1)) as [suffix|] eqn:ESl;
    cbn [rbind] in H; [|discriminate H].
  assert (Hlen : (start2 + 1 <= Z.of_nat (length (keybytesToHex (key tr))))%Z).
  { unfold sliceFrom in ESl. destruct (start2 + 1 <? 0)%Z; [discriminate ESl|].
    destruct (Z.ltb_spec (Z.of_nat (length (keybytesToHex (key tr)))) (start2 + 1));
      [discriminate ESl|lia]. }
  match type of H with rbind ?x _ = _ => destruct x as [ns|] eqn:Ens end;
    cbn [rbind] in H; [|discriminate H].
  match type of H with rbind ?x _ = _ => destruct x as [fc|] eqn:Efc end;
    cbn [rbind] in H; [|discriminate H].
  cbn [resolveHexes rhIndexGt rhIndexLte set_stacks set_rhIndices] in H.
  match type of H with rbind ?x _ = _ => destruct x as [[lte gt]|] eqn:Eadj end;
    cbn [rbind] in H; [|discriminate H].
  match type of H with rbind ?x _ = _ => destruct x as [rh0|] eqn:E0 end;
    cbn [rbind] in H; [|discriminate H].
  match type of H with rbind ?x _ = _ => destruct x as [rh|] eqn:E1 end;
    cbn [rbind] in H; [|discriminate H].
  injection H as <- <- <- <- <-.
  split; [lia|]. split; [exact Hlen|].
  split.
  { intros (Wn & Wv & Wf & Wc). unfold wellSized.
    cbn [nodeStack vertical fillCount set_stacks set_rhIndices].
    rewrite (proj2 (at_put _ _ _ _ Ens)), (proj2 (at_put _ _ _ _ Efc)).
    repeat split; assumption. }
  split; [repeat split|].
  exists lte, gt, rh0. split; [reflexivity|]. split; [reflexivity|].
  split; [reflexivity|]. split; [exact E0|exact E1].
Qed.


Hypothesis hash_is_long : forall nd force, (32 <= fst (hasher_hash nd force))%Z.



Lemma resetLevel_indices (l : Z) (tr tr' : TrieResolver) :
  resetLevel l tr = Ok tr' ->
  rhIndexLte tr' = rhIndexLte tr /\ rhIndexGt tr' = rhIndexGt tr.
Proof.
  unfold resetLevel. intros H. inv_ok H. injection H as <-. split; reflexivity.
Qed.

Lemma finishLevel_indices req hex rh level (tr tr' : TrieResolver) :
  finishLevel' req hex rh level tr = Ok tr' ->
  rhIndexLte tr' = rhIndexLte tr /\ rhIndexGt tr' = rhIndexGt tr.
Proof.
  unfold finishLevel. intros H. inv_ok H;
    try (apply resetLevel_indices in H; destruct H as [-> ->]);
    try (injection H as <-); split; reflexivity.
Qed.

Lemma finishLoop_indices req hex rh (count : nat) :
  forall level tr tr',
    finishLoop' req hex rh count level tr = Ok tr' ->
    rhIndexLte tr' = rhIndexLte tr /\ rhIndexGt tr' = rhIndexGt tr.
Proof.
  induction count as [|c IH]; intros level tr tr' H; cbn [finishLoop] in H.
  - injection H as <-. split; reflexivity.
  - inv_ok H. apply IH in H as [-> ->]. eapply finishLevel_indices, E.
Qed.

(** The state of the two indices is kept from key to key: after the
    levels of a key are folded, it holds for every key that is not less. *)
Lemma finishLevels_trail (tr tr1 : TrieResolver) (k : option bytes) (hex' : bytes) :
  finishLevels' tr k = Ok tr1 ->
  indicesTrail tr (keybytesToHex (key tr)) ->
  bytesCompare hex' (keybytesToHex (key tr)) <> (-1)%Z ->
  indicesTrail tr1 hex'.
Proof.
  intros H (T1 & T2 & T3) Hge. rewrite finishLevels_foldSetup in H.
  destruct (foldSetup' tr k) as [[[[[req rh] start] stop] tr0]|] eqn:ES;
    cbn [rbind] in H; [|discriminate H].
  destruct (finishLoop' req (keybytesToHex (key tr)) rh (Z.to_nat (start - stop + 1))
              start tr0) as [tr3|] eqn:EL; cbn [rbind] in H; [|discriminate H].
  injection H as <-.
  destruct (foldSetup_inv _ _ _ _ _ _ _ ES)
    as (_ & _ & _ & HF & lte & gt & rh0 & I1 & I2 & E1 & _).
  destruct (indices_enclose _ _ _ _ _ _ T1 T2 T3 E1) as (A1 & A2 & A3 & _).
  pose proof (finishLoop_indices _ _ _ _ _ _ _ EL) as [J1 J2].
  apply finishLoop_frame in EL. destruct EL as (_ & _ & _ & ER & _).
  destruct HF as (_ & _ & _ & ER0 & _).
  unfold indicesTrail. cbn [rhIndexLte rhIndexGt resolveHexes set_startLevel].
  rewrite J1, J2, I1, I2, ER, ER0.
  split; [exact A1|]. split; [exact A2|].
  intros i h Hi Hat. specialize (A3 i h Hi Hat).
  (* h <= hex <= hex' *)
  intros Hc.
  assert (C1 : bytesCompare h (keybytesToHex (key tr)) <> 1%Z)
    by (rewrite (bytesCompare_antisym (keybytesToHex (key tr)) h); lia).
  assert (C2 : bytesCompare (keybytesToHex (key tr)) hex' <> 1%Z)
    by (rewrite (bytesCompare_antisym hex' (keybytesToHex (key tr))); lia).
  pose proof (bytesCompare_le_trans _ _ _ C1 C2) as C3.
  rewrite (bytesCompare_antisym hex' h) in C3. lia.
Qed.


End Paths.



End resolverPaths.
